(** * Historization of yearly EPCI snapshots ([historize.py])

    A shallow embedding of the version store of [historize.py] and the
    properties of its upsert / end-of-year closure algorithm.

    Conventions of the embedding:
    - Python [str] is [string] (ASCII text), [int] is [Z], [len] is [nat];
    - a Python [set] of strings is a [gset string]; the order in which
      CPython iterates over it is a parameter of the export ([set_iter]);
    - a document of the TinyDB table is a record whose optional keys
      ([predecesseurs], [successeurs], [dateFin], [raisonFin]) are [option]s:
      [None] is "key absent";
    - the table is the list of its documents in insertion order; documents are
      never removed, so the document id is the position in that list
      (TinyDB counts from 1, the model from 0);
    - [Store] methods are computations in a small state-and-exception monad
      over the store, the standard output and the files written; an
      exception keeps the world as it is when it is raised;
    - [load_year] takes the rows the [csv.DictReader] yields for the file of
      the year; [dump_to] yields the tree the [json] module renders, after
      [JSONEncoder.default];
    - [build_history] takes the input files as a map from the name of a file
      to its rows; [open] on a name the map lacks is [FileNotFoundError], a
      third outcome beside returning and raising. *)

From stdpp Require Import base option list sets gmap strings pretty.
From Stdlib Require Import ZArith Lia Ascii.

#[local] Open Scope Z_scope.
#[local] Set Warnings "-clear-no-such-hyp".

(** ** Python runtime: exceptions, [str.zfill], [int(str)] *)

Inductive exn : Type :=
  | IndexError
  | ValueError
  | TypeError.

Definition ascii_list (s : string) : list ascii := String.list_ascii_of_string s.
Definition of_ascii_list (l : list ascii) : string := String.string_of_list_ascii l.

Definition is_digit (c : ascii) : bool :=
  let n := nat_of_ascii c in ((48 <=? n) && (n <=? 57))%nat.

Definition digit_val (c : ascii) : Z := Z.of_nat (nat_of_ascii c) - 48.

(** The white space [int()] skips at both ends of an ASCII string
    ([Py_ISSPACE]): tab, line feed, vertical tab, form feed, carriage return
    and space. *)
Definition is_space (c : ascii) : bool :=
  let n := nat_of_ascii c in
  (((9 <=? n) && (n <=? 13)) || (n =? 32))%nat.

Definition is_sign (c : ascii) : bool :=
  bool_decide (c = "+"%char) || bool_decide (c = "-"%char).

Fixpoint zeros (n : nat) : list ascii :=
  match n with
  | O => []
  | S n' => "0"%char :: zeros n'
  end.

(** [s.zfill(width)]: pad with zeros on the left, after a leading sign. *)
Definition zfill (width : nat) (s : string) : string :=
  let l := ascii_list s in
  let fill := zeros (width - length l) in
  match l with
  | c :: l' => if is_sign c then of_ascii_list (c :: fill ++ l')
               else of_ascii_list (fill ++ l)
  | [] => of_ascii_list fill
  end.

Fixpoint lstrip (l : list ascii) : list ascii :=
  match l with
  | c :: l' => if is_space c then lstrip l' else l
  | [] => []
  end.

Definition strip (l : list ascii) : list ascii :=
  rev (lstrip (rev (lstrip l))).

(** The digits of a decimal literal: single underscores are allowed between
    digits. [prev] tells what the previous character was:
    [None] at the start, [Some true] after a digit, [Some false] after an
    underscore. *)
Fixpoint int_digits (l : list ascii) (prev : option bool) (acc : Z) : option Z :=
  match l with
  | [] => match prev with Some true => Some acc | _ => None end
  | c :: l' =>
      if is_digit c then int_digits l' (Some true) (10 * acc + digit_val c)
      else if bool_decide (c = "_"%char) then
        match prev with
        | Some true => int_digits l' (Some false) acc
        | _ => None
        end
      else None
  end.

Definition MAX_STR_DIGITS : nat := 4300.

(** [int(s)] for a string of ASCII characters: [None] stands for
    [ValueError]. *)
Definition int (s : string) : option Z :=
  let l := strip (ascii_list s) in
  let '(neg, body) :=
    match l with
    | c :: l' => if bool_decide (c = "-"%char) then (true, l')
                 else if bool_decide (c = "+"%char) then (false, l')
                 else (false, l)
    | [] => (false, [])
    end in
  if (MAX_STR_DIGITS <? length (filter (λ c, is_digit c = true) body))%nat
  then None
  else n ← int_digits body None 0; Some (if neg : bool then - n else n).

(** ** [datetime.date] *)

Module Date.

Record t : Type := mk { year : Z; month : Z; day : Z }.

Definition MINYEAR : Z := 1.
Definition MAXYEAR : Z := 9999.

Definition is_leap (y : Z) : bool :=
  (y mod 4 =? 0) && (negb (y mod 100 =? 0) || (y mod 400 =? 0)).

Definition days_in_month (y m : Z) : Z :=
  if m =? 2 then (if is_leap y then 29 else 28)
  else if (m =? 4) || (m =? 6) || (m =? 9) || (m =? 11) then 30
  else 31.

Definition valid (d : t) : bool :=
  (MINYEAR <=? year d) && (year d <=? MAXYEAR)
  && (1 <=? month d) && (month d <=? 12)
  && (1 <=? day d) && (day d <=? days_in_month (year d) (month d)).

(** [date(y, m, d)]: [None] stands for [ValueError]. *)
Definition date (y m d : Z) : option t :=
  let r := mk y m d in if valid r then Some r else None.

(** ["%0wd" % n] for a natural number. *)
Definition pad (w : nat) (n : Z) : string := zfill w (pretty n).

(** [d.isoformat()], that is ["%04d-%02d-%02d"]. *)
Definition isoformat (d : t) : string :=
  pad 4 (year d) +:+ "-" +:+ pad 2 (month d) +:+ "-" +:+ pad 2 (day d).

End Date.

(** ** [itertools.groupby]

    One group per maximal run of consecutive elements with equal keys. *)

Fixpoint groupby {A K : Type} `{EqDecision K} (key : A → K) (l : list A)
  : list (K * list A) :=
  match l with
  | [] => []
  | x :: l' =>
      match groupby key l' with
      | (k, g) :: gs =>
          if decide (key x = k) then (k, x :: g) :: gs
          else (key x, [x]) :: (k, g) :: gs
      | [] => [(key x, [x])]
      end
  end.

(** ** Rows of a yearly file and documents of the store *)

Module Row.
(** One row of the [csv.DictReader], with the columns the program reads. *)
Record t : Type := mk {
  siren : string;
  nom : string;
  nature : string;
  fiscalite : string;
  ptot : string;
  nb_com : string;
  insee : string;
}.
End Row.

Module Epci.
Record t : Type := mk {
  id : string;
  dateDebut : Date.t;
  siren : string;
  nom : string;
  nature : string;
  fiscalite : string;
  population : string;
  membres : gset string;
  predecesseurs : option (list string);
  successeurs : option (list string);
  dateFin : option Date.t;
  raisonFin : option string;
}.

(** [epci['predecesseurs'] = p] *)
Definition set_predecesseurs (p : list string) (e : t) : t :=
  mk (id e) (dateDebut e) (siren e) (nom e) (nature e) (fiscalite e)
     (population e) (membres e) (Some p) (successeurs e) (dateFin e)
     (raisonFin e).

(** [doc.update({'dateFin': d})] *)
Definition set_dateFin (d : Date.t) (e : t) : t :=
  mk (id e) (dateDebut e) (siren e) (nom e) (nature e) (fiscalite e)
     (population e) (membres e) (predecesseurs e) (successeurs e) (Some d)
     (raisonFin e).

(** [doc.update({'successeurs': s, 'dateFin': d, 'raisonFin': r})] *)
Definition close_with (s : list string) (d : Date.t) (r : string) (e : t) : t :=
  mk (id e) (dateDebut e) (siren e) (nom e) (nature e) (fiscalite e)
     (population e) (membres e) (predecesseurs e) (Some s) (Some d) (Some r).
End Epci.

(** ** TinyDB: a table and the queries the program builds *)

Module TinyDB.
Section Table.
Context {Doc : Type}.

Definition table : Type := list Doc.
Definition query : Type := Doc → bool.

(** [Query().field == v]; a missing field never matches. *)
Definition q_eq {V} `{EqDecision V} (field : Doc → option V) (v : V) : query :=
  λ doc, bool_decide (field doc = Some v).

(** [Query().field.exists()] *)
Definition q_exists {V} (field : Doc → option V) : query :=
  λ doc, match field doc with Some _ => true | None => false end.

(** [Query().field.one_of(items)] *)
Definition q_one_of {V} `{Countable V} (field : Doc → option V)
    (items : gset V) : query :=
  λ doc, match field doc with
         | Some v => bool_decide (v ∈ items)
         | None => false
         end.

Definition q_not (q : query) : query := λ doc, negb (q doc).
Definition q_and (q1 q2 : query) : query := λ doc, q1 doc && q2 doc.
Definition q_or (q1 q2 : query) : query := λ doc, q1 doc || q2 doc.

(** [db.insert(doc)]: the new document goes last; returns its id. *)
Definition insert (doc : Doc) (tb : table) : nat * table :=
  (length tb, tb ++ [doc]).

(** [db.get(cond)]: the first matching document, with its id. *)
Definition get (cond : query) (tb : table) : option (nat * Doc) :=
  list_find (λ doc, cond doc = true) tb.

(** [db.update(fields, cond)]: every matching document is updated; returns
    the ids of the updated documents. *)
Fixpoint update_from (i : nat) (upd : Doc → Doc) (cond : query) (tb : table)
  : list nat * table :=
  match tb with
  | [] => ([], [])
  | doc :: tb' =>
      let '(ids, tb'') := update_from (S i) upd cond tb' in
      if cond doc then (i :: ids, upd doc :: tb'') else (ids, doc :: tb'')
  end.

Definition update (upd : Doc → Doc) (cond : query) (tb : table)
  : list nat * table :=
  update_from 0 upd cond tb.

(** [db.update(fields, doc_ids=ids)]; the program passes the id [get]
    returned, which is in the table. *)
Definition update_ids (upd : Doc → Doc) (ids : list nat) (tb : table)
  : list nat * table :=
  (ids, foldl (λ tb' i, alter upd i tb') tb ids).

(** [db.all()] *)
Definition all (tb : table) : list Doc := tb.
End Table.
End TinyDB.

(** ** Values handed to the JSON encoder, and JSON documents *)

#[local] Set Warnings "-register-all".

Inductive pyval : Type :=
  | PStr (s : string)
  | PDate (d : Date.t)
  | PSet (s : gset string)
  | PList (l : list pyval)
  | PDict (items : list (string * pyval)).

Inductive json : Type :=
  | JString (s : string)
  | JArray (l : list json)
  | JObject (items : list (string * json)).

(** ** The world of a run: the store, the console and the files written *)

Record world : Type := World {
  db : list Epci.t;
  stdout : list string;
  files : gmap string json;
}.

Inductive outcome (A : Type) : Type :=
  | Ret (a : A) (w : world)
  | Raise (e : exn) (w : world).
Arguments Ret {A} a w.
Arguments Raise {A} e w.

Definition M (A : Type) : Type := world → outcome A.

Definition ret {A} (a : A) : M A := λ w, Ret a w.

Definition bind {A B} (m : M A) (k : A → M B) : M B :=
  λ w, match m w with
       | Ret a w' => k a w'
       | Raise e w' => Raise e w'
       end.

Definition raise {A} (e : exn) : M A := λ w, Raise e w.

Notation "'let*' x ':=' m 'in' k" := (bind m (λ x, k))
  (at level 10, x name, m at level 100, k at level 200).
Notation "m ';;' k" := (bind m (λ _, k))
  (at level 100, k at level 200, right associativity).

(** [Some v] or raise [e]. *)
Definition or_raise {A} (e : exn) (o : option A) : M A :=
  match o with
  | Some a => ret a
  | None => raise e
  end.

(** Run a TinyDB operation on [self.db]. *)
Definition with_db {A} (op : list Epci.t → A * list Epci.t) : M A :=
  λ w, let '(a, tb) := op (db w) in Ret a (World tb (stdout w) (files w)).

Definition read_db {A} (op : list Epci.t → A) : M A :=
  λ w, Ret (op (db w)) w.

(** [print(text, end=e)] *)
Definition print (text e : string) : M () :=
  λ w, Ret () (World (db w) (stdout w ++ [text +:+ e]) (files w)).

Definition write_file (filename : string) (doc : json) : M () :=
  λ w, Ret () (World (db w) (stdout w) (<[filename := doc]> (files w))).

(** ** Constants and console helpers *)

Definition DOT_MOD : nat := 10.
Definition IDX_MOD : nat := 10 * DOT_MOD.

Definition INSERTED : Z := 0.
Definition UPDATED : Z := 1.

Definition ESC : string := String "027" "".
Definition QUOTE : string := String "034" "".
Definition NL : string := String "010" "".

Definition MISMATCH_ERROR (a0 a1 a2 : string) : string :=
  "Number of members mismatch for " +:+ QUOTE +:+ a0 +:+ QUOTE
  +:+ ", expected " +:+ a1 +:+ ", found " +:+ a2.

(** A simple ANSI color wrapper factory *)
Definition color (code t : string) : string :=
  ESC +:+ "[" +:+ code +:+ t +:+ ESC +:+ "[0;m".

Definition red : string → string := color "1;31m".
Definition white : string → string := color "1;39m".

(** Display an error message *)
Definition error (text : string) : M () :=
  print (red ("✘ " +:+ text)) NL.

Record LoadResult : Type := mkLoadResult {
  total : nat;
  new : nat;
  updated : nat;
  ended : nat;
}.

(** ** The fields the queries name *)

Definition EPCI_siren (doc : Epci.t) : option string := Some (Epci.siren doc).
Definition EPCI_dateFin (doc : Epci.t) : option Date.t := Epci.dateFin doc.

(** [a ^ b] on sets *)
Definition sym_diff (a b : gset string) : gset string := (a ∖ b) ∪ (b ∖ a).

(** [bool(s)] for a set *)
Definition set_bool (s : gset string) : bool := negb (bool_decide (s = ∅)).

(** ** [Store] *)

(** The query of [upsert]: the open version of [siren]. *)
Definition open_version (siren : string) : @TinyDB.query Epci.t :=
  TinyDB.q_and (TinyDB.q_eq EPCI_siren siren)
               (TinyDB.q_not (TinyDB.q_exists EPCI_dateFin)).

(** The query of the cleanup of [load_year]: open and not seen this year. *)
Definition missing (sirens : gset string) : @TinyDB.query Epci.t :=
  TinyDB.q_not (TinyDB.q_or (TinyDB.q_one_of EPCI_siren sirens)
                            (TinyDB.q_exists EPCI_dateFin)).

Definition extract_epci (year : Z) (rows : list Row.t) : M Epci.t :=
  let* row := or_raise IndexError (head rows) in
  let id := Row.siren row +:+ "@" +:+ pretty year +:+ "-01-01" in
  let* dateDebut := or_raise ValueError (Date.date year 1 1) in
  let epci :=
    Epci.mk id dateDebut (Row.siren row) (Row.nom row) (Row.nature row)
      (Row.fiscalite row) (Row.ptot row)
      (list_to_set ((λ r, zfill 5 (Row.insee r)) <$> rows))
      None None None None in
  let* nb_com := or_raise ValueError (int (Row.nb_com row)) in
  (if bool_decide (nb_com ≠ Z.of_nat (size (Epci.membres epci)))
   then error (MISMATCH_ERROR (Epci.siren epci) (Row.nb_com row)
                 (pretty (size (Epci.membres epci))))
   else ret ());;
  ret epci.

Definition upsert (year : Z) (siren : string) (rows : list Row.t)
  : M (option Z) :=
  let* current := read_db (TinyDB.get (open_version siren)) in
  let* epci := extract_epci year rows in
  match current with
  | None =>
      with_db (TinyDB.insert epci);;
      ret (Some INSERTED)
  | Some (doc_id, current) =>
      if set_bool (sym_diff (Epci.membres current) (Epci.membres epci)) then
        let epci := Epci.set_predecesseurs [Epci.id current] epci in
        with_db (TinyDB.insert epci);;
        let* dateFin := or_raise ValueError (Date.date (year - 1) 12 31) in
        with_db (TinyDB.update_ids
                   (Epci.close_with [Epci.id epci] dateFin
                      "Changement de membres")
                   [doc_id]);;
        ret (Some UPDATED)
      else ret None
  end.

(** The loop of [load_year] over the groups, [idx] counting from 1. *)
Fixpoint load_groups (year : Z) (groups : list (string * list Row.t))
    (idx : nat) (sirens : gset string) (result : LoadResult)
  : M (gset string * LoadResult) :=
  match groups with
  | [] => ret (sirens, result)
  | (siren, rows) :: groups' =>
      (if bool_decide (idx mod DOT_MOD = 0)%nat
       then print (if bool_decide (idx mod IDX_MOD = 0)%nat
                   then white (pretty idx) else ".") ""
       else ret ());;
      let* op := upsert year siren rows in
      let result :=
        if bool_decide (op = Some INSERTED)
        then mkLoadResult (total result) (new result + 1) (updated result)
               (ended result)
        else if bool_decide (op = Some UPDATED)
        then mkLoadResult (total result) (new result) (updated result + 1)
               (ended result)
        else result in
      let result :=
        mkLoadResult (total result + 1) (new result) (updated result)
          (ended result) in
      load_groups year groups' (S idx) ({[siren]} ∪ sirens) result
  end.

(** The end of [load_year], after the loop ("cleanup missing SIRENs"): the
    open versions whose SIREN was not seen this year get an end date; returns
    the ids [db.update] returns. *)
Definition cleanup_missing (year : Z) (sirens : gset string) : M (list nat) :=
  let* dateFin := or_raise ValueError (Date.date (year - 1) 12 31) in
  with_db (TinyDB.update (Epci.set_dateFin dateFin) (missing sirens)).

(** [load_year(year, filename)], on the rows the reader yields for the
    file. *)
Definition load_year (year : Z) (rows : list Row.t) : M LoadResult :=
  let groups := groupby Row.siren rows in
  let* state := load_groups year groups 1 ∅ (mkLoadResult 0 0 0 0) in
  let '(sirens, result) := state in
  print "" NL;;
  let* ids := cleanup_missing year sirens in
  ret (mkLoadResult (total result) (new result) (updated result)
         (length ids)).

(** ** Export *)

Section json_export.

(** The order in which CPython iterates over a set: [list(obj)]. The program
    does not sort, so the order is whatever the interpreter yields. *)
Variable set_iter : gset string → list string.

(** [JSONEncoder.default]; [None] is [super().default(obj)], which raises
    [TypeError]. *)
Definition JSONEncoder_default (obj : pyval) : option pyval :=
  match obj with
  | PSet s => Some (PList (PStr <$> set_iter s))
  | PDate d => Some (PStr (Date.isoformat d))
  | _ => None
  end.

(** The encoder of the [json] module: strings, lists and dicts are encoded
    natively, any other object goes through [default]. *)
Fixpoint iterencode (default : pyval → option json) (o : pyval) : option json :=
  match o with
  | PStr s => Some (JString s)
  | PList l => JArray <$> mapM (iterencode default) l
  | PDict items =>
      JObject <$> mapM (λ kv, pair kv.1 <$> iterencode default kv.2) items
  | _ => default o
  end.

(** [json.dumps(o, cls=JSONEncoder)]: what [default] returns is encoded in
    turn; it holds only strings and lists of strings. *)
Definition encode (o : pyval) : option json :=
  iterencode (λ obj, JSONEncoder_default obj ≫= iterencode (λ _, None)) o.

Definition optional_key {A} (key : string) (f : A → pyval) (o : option A)
  : list (string * pyval) :=
  match o with
  | Some a => [(key, f a)]
  | None => []
  end.

(** A document of the table as the [dict] it is, keys in insertion order. *)
Definition document (e : Epci.t) : pyval :=
  PDict ([("id", PStr (Epci.id e));
          ("dateDebut", PDate (Epci.dateDebut e));
          ("siren", PStr (Epci.siren e));
          ("nom", PStr (Epci.nom e));
          ("nature", PStr (Epci.nature e));
          ("fiscalite", PStr (Epci.fiscalite e));
          ("population", PStr (Epci.population e));
          ("membres", PSet (Epci.membres e))]
         ++ optional_key "predecesseurs" (λ l, PList (PStr <$> l))
              (Epci.predecesseurs e)
         ++ optional_key "successeurs" (λ l, PList (PStr <$> l))
              (Epci.successeurs e)
         ++ optional_key "dateFin" PDate (Epci.dateFin e)
         ++ optional_key "raisonFin" PStr (Epci.raisonFin e)).

Definition dump_to (filename : string) : M () :=
  let* docs := read_db TinyDB.all in
  let* out := or_raise TypeError (encode (PList (document <$> docs))) in
  write_file filename out.

End json_export.

(** The JSON object the encoder yields for a document of the table. *)
Definition export_doc (set_iter : gset string → list string) (e : Epci.t)
  : json :=
  JObject ([("id", JString (Epci.id e));
            ("dateDebut", JString (Date.isoformat (Epci.dateDebut e)));
            ("siren", JString (Epci.siren e));
            ("nom", JString (Epci.nom e));
            ("nature", JString (Epci.nature e));
            ("fiscalite", JString (Epci.fiscalite e));
            ("population", JString (Epci.population e));
            ("membres", JArray (JString <$> set_iter (Epci.membres e)))]
           ++ from_option (λ l, [("predecesseurs", JArray (JString <$> l))])
                [] (Epci.predecesseurs e)
           ++ from_option (λ l, [("successeurs", JArray (JString <$> l))])
                [] (Epci.successeurs e)
           ++ from_option (λ d, [("dateFin", JString (Date.isoformat d))])
                [] (Epci.dateFin e)
           ++ from_option (λ r, [("raisonFin", JString r)])
                [] (Epci.raisonFin e)).

(** The dates of a document are dates [datetime.date] can hold. *)
Definition dates_valid (e : Epci.t) : Prop :=
  Date.valid (Epci.dateDebut e) = true
  ∧ ∀ d, Epci.dateFin e = Some d → Date.valid d = true.

(** ** Runs *)

(** [Store()] *)
Definition Store_init : world := World [] [] ∅.

(** The stores a run can be in between two years: any number of completed
    [load_year] calls on a new store. *)
Inductive reachable : world → Prop :=
  | reach_init : reachable Store_init
  | reach_year w year rows r w' :
      reachable w → load_year year rows w = Ret r w' → reachable w'.


(** Rows with the same key are next to each other. *)
Definition contiguous {A K : Type} (key : A → K) (l : list A) : Prop :=
  ∀ l1 x l2 y l3, l = l1 ++ x :: l2 ++ y :: l3 → key x = key y →
    ∀ z, z ∈ l2 → key z = key x.

(** The stores of a run as the history runner makes it: years in ascending
    order, each from a file in which the rows of a SIREN are next to each
    other. [chronological y w]: [w] is reached and no year after [y] was
    loaded. *)
Inductive chronological : Z → world → Prop :=
  | chrono_init y : chronological y Store_init
  | chrono_year y w year rows r w' :
      chronological y w → y < year →
      contiguous Row.siren rows →
      load_year year rows w = Ret r w' →
      chronological year w'.

(** ** Properties of a store, as the specification words them *)

(** At most one open version per natural key. *)
Definition one_open (tb : list Epci.t) : Prop :=
  ∀ i j a b,
    tb !! i = Some a → tb !! j = Some b →
    Epci.siren a = Epci.siren b →
    Epci.dateFin a = None → Epci.dateFin b = None →
    i = j.

(** [a] names [b] as its only successor exactly when [b] names [a] as its
    only predecessor. *)
Definition links_symmetric (tb : list Epci.t) : Prop :=
  ∀ a b, a ∈ tb → b ∈ tb →
    Epci.successeurs a = Some [Epci.id b]
    ↔ Epci.predecesseurs b = Some [Epci.id a].

(** Every id a link names is the id of a version of the store. *)
Definition links_resolve (tb : list Epci.t) : Prop :=
  ∀ a l x, a ∈ tb →
    Epci.successeurs a = Some l ∨ Epci.predecesseurs a = Some l →
    x ∈ l → x ∈ (Epci.id <$> tb).

Record store_inv (tb : list Epci.t) : Prop := {
  inv_ids : NoDup (Epci.id <$> tb);
  inv_sym : links_symmetric tb;
  inv_open : ∀ a, a ∈ tb → Epci.dateFin a = None → Epci.successeurs a = None;
  inv_resolve : links_resolve tb;
}.

(** Every version carries the id [siren@year-01-01] of its SIREN and of the
    year it starts. *)
Definition ids_well_formed (tb : list Epci.t) : Prop :=
  ∀ e, e ∈ tb →
    Epci.id e
    = Epci.siren e +:+ "@" +:+ pretty (Date.year (Epci.dateDebut e))
        +:+ "-01-01"
    ∧ 1 ≤ Date.year (Epci.dateDebut e) ≤ 9999.

(** Every version started before [year], or in [year] for a SIREN of
    [sirens]. *)
Definition started_by (year : Z) (sirens : gset string) (tb : list Epci.t)
  : Prop :=
  ∀ e, e ∈ tb →
    Date.year (Epci.dateDebut e) < year
    ∨ (Date.year (Epci.dateDebut e) = year ∧ Epci.siren e ∈ sirens).

(** What holds between two groups of a chronological year. *)
Definition run_inv (year : Z) (sirens : gset string) (tb : list Epci.t)
  : Prop :=
  store_inv tb ∧ ids_well_formed tb ∧ started_by year sirens tb.

(** [e'] is the version [e], but for the fields a closure writes. *)
Definition same_version (e e' : Epci.t) : Prop :=
  Epci.id e' = Epci.id e
  ∧ Epci.dateDebut e' = Epci.dateDebut e
  ∧ Epci.siren e' = Epci.siren e
  ∧ Epci.nom e' = Epci.nom e
  ∧ Epci.nature e' = Epci.nature e
  ∧ Epci.fiscalite e' = Epci.fiscalite e
  ∧ Epci.population e' = Epci.population e
  ∧ Epci.membres e' = Epci.membres e
  ∧ Epci.predecesseurs e' = Epci.predecesseurs e.

(** The table [tb'] keeps every version of [tb] at its place. *)
Definition extends (tb tb' : list Epci.t) : Prop :=
  ∀ i e, tb !! i = Some e → ∃ e', tb' !! i = Some e' ∧ same_version e e'.

(** The shape [YYYY-MM-DD] of an ISO-8601 calendar date. *)
Definition is_iso_date (s : string) : bool :=
  match ascii_list s with
  | [y1; y2; y3; y4; h1; m1; m2; h2; d1; d2] =>
      is_digit y1 && is_digit y2 && is_digit y3 && is_digit y4
      && bool_decide (h1 = "-"%char)
      && is_digit m1 && is_digit m2
      && bool_decide (h2 = "-"%char)
      && is_digit d1 && is_digit d2
  | _ => false
  end.

(** A string of [n] decimal digits. *)
Definition digits_only (n : nat) (s : string) : bool :=
  bool_decide (length (ascii_list s) = n)
  && forallb is_digit (ascii_list s).

(** [obj[key]] on a JSON object. *)
Definition json_get (key : string) (j : json) : option json :=
  match j with
  | JObject items =>
      (λ found : nat * (string * json), found.2.2)
        <$> list_find (λ kv, kv.1 = key) items
  | _ => None
  end.

(** The id under which [extract_epci] files the group of [row]. *)
Definition epci_id (row : Row.t) (year : Z) : string :=
  Row.siren row +:+ "@" +:+ pretty year +:+ "-01-01".

(** The members of a group: the zero-padded INSEE codes of its rows. *)
Definition members_of (rows : list Row.t) : gset string :=
  list_to_set ((λ r, zfill 5 (Row.insee r)) <$> rows).

(** The candidate version [extract_epci] builds for a group headed by
    [row]. *)
Definition candidate (year : Z) (row : Row.t) (rows : list Row.t) : Epci.t :=
  Epci.mk (epci_id row year) (Date.mk year 1 1) (Row.siren row) (Row.nom row)
    (Row.nature row) (Row.fiscalite row) (Row.ptot row) (members_of rows)
    None None None None.

(** The line [error] prints for a count mismatch. *)
Definition mismatch_line (row : Row.t) (rows : list Row.t) : string :=
  red ("✘ " +:+ MISMATCH_ERROR (Row.siren row) (Row.nb_com row)
                  (pretty (size (members_of rows)))) +:+ NL.

(** The world after one more line on the console. *)
Definition printed (line : string) (w : world) : world :=
  World (db w) (stdout w ++ [line]) (files w).

(** The world with another table. *)
Definition with_table (tb : list Epci.t) (w : world) : world :=
  World tb (stdout w) (files w).

(** ** Sample data *)

Definition sample_row (siren nb_com insee : string) : Row.t :=
  Row.mk siren "CC du Val" "CC" "FA" "1200" nb_com insee.

Definition rows_abc : list Row.t :=
  [sample_row "E1" "3" "1"; sample_row "E1" "3" "2"; sample_row "E1" "3" "3"].

Definition rows_ab : list Row.t :=
  [sample_row "E1" "2" "1"; sample_row "E1" "2" "2"].

(** Declared count 3, three rows, two distinct members. *)
Definition rows_dup : list Row.t :=
  [sample_row "E1" "3" "1"; sample_row "E1" "3" "2"; sample_row "E1" "3" "00002"].

(** Declared count 2, three rows, two distinct members. *)
Definition rows_dup_ok : list Row.t :=
  [sample_row "E1" "2" "1"; sample_row "E1" "2" "2"; sample_row "E1" "2" "00002"].

(** The rows of [E1] are not next to each other. *)
Definition rows_scattered : list Row.t :=
  [sample_row "E1" "1" "1"; sample_row "E2" "1" "7"; sample_row "E1" "1" "2"].

Definition rows_bad_count : list Row.t :=
  [sample_row "E1" "three" "1"].

(** The store after year 2000 brought [E1] with members 1, 2 and 3. *)
Definition store_2000 : world :=
  World [candidate 2000 (sample_row "E1" "3" "1") rows_abc] [] ∅.

(** The store after year 2001 brought [E1] with members 1 and 2 only. *)
Definition store_2001 : world :=
  World [Epci.close_with ["E1@2001-01-01"] (Date.mk 2000 12 31)
           "Changement de membres"
           (candidate 2000 (sample_row "E1" "3" "1") rows_abc);
         Epci.set_predecesseurs ["E1@2000-01-01"]
           (candidate 2001 (sample_row "E1" "2" "1") rows_ab)]
    [] ∅.

(** The store after year 2002 came without [E1]. *)
Definition store_2002 : world :=
  World [Epci.close_with ["E1@2001-01-01"] (Date.mk 2000 12 31)
           "Changement de membres"
           (candidate 2000 (sample_row "E1" "3" "1") rows_abc);
         Epci.set_dateFin (Date.mk 2001 12 31)
           (Epci.set_predecesseurs ["E1@2000-01-01"]
              (candidate 2001 (sample_row "E1" "2" "1") rows_ab))]
    [] ∅.

(** Two keys, the rows of each next to each other. *)
Definition rows_two_keys : list Row.t :=
  [sample_row "E1" "2" "1"; sample_row "E1" "2" "2"; sample_row "E2" "1" "7"].

(** The store after a year 2000 whose file has the rows of [E1] apart. *)
Definition store_scattered : world :=
  World [Epci.close_with ["E1@2000-01-01"] (Date.mk 1999 12 31)
           "Changement de membres"
           (candidate 2000 (sample_row "E1" "1" "1") [sample_row "E1" "1" "1"]);
         candidate 2000 (sample_row "E2" "1" "7") [sample_row "E2" "1" "7"];
         Epci.set_predecesseurs ["E1@2000-01-01"]
           (candidate 2000 (sample_row "E1" "1" "2")
              [sample_row "E1" "1" "2"])]
    [NL] ∅.

(** ** The history runner *)

Definition FIRST_YEAR : Z := 1999.
Definition LAST_YEAR : Z := 2019.
Definition OUTPUT : string := "historique-epcis.json".

Definition SUMMARY (total years insertions updates ended : string) : string :=
  "Processed " +:+ total +:+ " EPCIs on " +:+ years +:+ " years." +:+ NL
  +:+ "- " +:+ insertions +:+ " insertions" +:+ NL
  +:+ "- " +:+ updates +:+ " updates" +:+ NL
  +:+ "- " +:+ ended +:+ " ended" +:+ NL.

Definition green : string → string := color "1;32m".
Definition purple : string → string := color "1;35m".

(** Display informations *)
Definition info (text : string) : M () :=
  print (purple "➤" +:+ " " +:+ white text) NL.

(** Display a success message *)
Definition success (text : string) : M () :=
  print (green "✓" +:+ " " +:+ white text) NL.

(** [c * n] for a one-character string *)
Fixpoint str_repeat (c : ascii) (n : nat) : string :=
  match n with
  | O => ""
  | S n' => String c (str_repeat c n')
  end.

(** The outcome of a computation that opens files: [open] on a file that
    does not exist raises [FileNotFoundError]. *)
Inductive io_outcome (A : Type) : Type :=
  | Done (a : A) (w : world)
  | Failed (e : exn) (w : world)
  | FileNotFound (filename : string) (w : world).
Arguments Done {A} a w.
Arguments Failed {A} e w.
Arguments FileNotFound {A} filename w.

Definition IO (A : Type) : Type := world → io_outcome A.

Definition io_bind {A B} (m : IO A) (k : A → IO B) : IO B :=
  λ w, match m w with
       | Done a w' => k a w'
       | Failed e w' => Failed e w'
       | FileNotFound f w' => FileNotFound f w'
       end.

Definition lift {A} (m : M A) : IO A :=
  λ w, match m w with
       | Ret a w' => Done a w'
       | Raise e w' => Failed e w'
       end.

Notation "'let+' x ':=' m 'in' k" := (io_bind m (λ x, k))
  (at level 10, x name, m at level 100, k at level 200).

(** [store = Store()]: a new, empty table. *)
Definition new_store : M () :=
  λ w, Ret () (World [] (stdout w) (files w)).

(** [store.load_year(year, filename)] with its [open(filename)]: [csv] maps
    the name of a file to the rows its reader yields. *)
Definition load_year_file (csv : gmap string (list Row.t)) (year : Z)
    (filename : string) : IO LoadResult :=
  λ w, match csv !! filename with
       | Some rows => lift (load_year year rows) w
       | None => FileNotFound filename w
       end.

(** The loop of [build_history] over the years. *)
Fixpoint load_years (csv : gmap string (list Row.t)) (years : list Z)
    (results : list LoadResult) : IO (list LoadResult) :=
  match years with
  | [] => lift (ret results)
  | year :: years' =>
      let filename := pretty year +:+ ".csv" in
      let+ _ := lift (info ("Processing " +:+ filename)) in
      let+ result := load_year_file csv year filename in
      let+ _ := lift (success
                        ("Processed " +:+ pretty (total result)
                         +:+ " EPCIs: added " +:+ pretty (new result)
                         +:+ ", updated " +:+ pretty (updated result)
                         +:+ ", ended " +:+ pretty (ended result))) in
      load_years csv years' (results ++ [result])
  end.

(** [sum(f(r) for r in results)] *)
Definition sum_of (f : LoadResult → nat) (results : list LoadResult) : nat :=
  foldr (λ r n, f r + n)%nat 0%nat results.

(** Build the history JSON file *)
Definition build_history (set_iter : gset string → list string)
    (csv : gmap string (list Row.t)) (output : string) : IO () :=
  let+ _ := lift new_store in
  let+ results :=
    load_years csv (seqZ FIRST_YEAR (LAST_YEAR + 1 - FIRST_YEAR)) [] in
  let+ _ := lift (info "Writing history file") in
  let+ _ := lift (dump_to set_iter output) in
  let+ _ := lift (success ("History writed to " +:+ output)) in
  (* Print summary *)
  let+ _ := lift (print (str_repeat "=" 80) NL) in
  lift (success (SUMMARY (pretty (sum_of total results))
                   (pretty (length results))
                   (pretty (sum_of new results))
                   (pretty (sum_of updated results))
                   (pretty (sum_of ended results)))).

(** ** More properties of a store *)

(** A version without [dateFin]. *)
Definition is_open (e : Epci.t) : bool :=
  match Epci.dateFin e with
  | None => true
  | Some _ => false
  end.

(** The number of open versions. *)
Definition nb_open (tb : list Epci.t) : nat :=
  length (filter (λ e, is_open e = true) tb).

(** The first row of a group has a member count [int] reads. *)
Definition group_ok (g : list Row.t) : Prop :=
  ∃ row, head g = Some row ∧ is_Some (int (Row.nb_com row)).

(** The row with its INSEE code zero-padded. *)
Definition padded (r : Row.t) : Row.t :=
  Row.mk (Row.siren r) (Row.nom r) (Row.nature r) (Row.fiscalite r)
    (Row.ptot r) (Row.nb_com r) (zfill 5 (Row.insee r)).

(** The table has an open version of [siren] with the members [members]. *)
Definition current_members (tb : list Epci.t) (siren : string)
    (members : gset string) : Prop :=
  ∃ e, e ∈ tb ∧ Epci.siren e = siren ∧ Epci.dateFin e = None
       ∧ Epci.membres e = members.

(** The world a computation ends in, whether it returns or raises. *)
Definition world_of {A} (o : outcome A) : world :=
  match o with
  | Ret _ w => w
  | Raise _ w => w
  end.

(** The store after a year 2000 brought [E1] and [E2]. *)
Definition store_two_keys : world :=
  World [candidate 2000 (sample_row "E1" "2" "1")
           [sample_row "E1" "2" "1"; sample_row "E1" "2" "2"];
         candidate 2000 (sample_row "E2" "1" "7") [sample_row "E2" "1" "7"]]
    [] ∅.

(** Validity intervals: every version starts on January 1 of a year from
    [lo] to [hi]; one with a [dateFin] ends on a December 31, not before the
    year it starts and before [hi]. *)
Definition intervals_ok (lo hi : Z) (tb : list Epci.t) : Prop :=
  ∀ e, e ∈ tb →
    ∃ y, lo ≤ y ≤ hi ∧ Epci.dateDebut e = Date.mk y 1 1
         ∧ ∀ d, Epci.dateFin e = Some d →
                ∃ y', y ≤ y' < hi ∧ d = Date.mk y' 12 31.

(** Input files for a whole run: [E1] has three members in 1999, two in
    2000, and is gone from 2001 on. *)
Definition sample_csv : gmap string (list Row.t) :=
  list_to_map
    ((λ year, (pretty year +:+ ".csv",
               if bool_decide (year = 1999) then rows_abc
               else if bool_decide (year = 2000) then rows_ab
               else []))
       <$> seqZ FIRST_YEAR (LAST_YEAR + 1 - FIRST_YEAR)).

(** ** Auxiliary lemmas: dates *)

Lemma date_in_range (y m d : Z) :
  1 ≤ y ≤ 9999 → 1 ≤ m ≤ 12 → 1 ≤ d ≤ 28 →
  Date.date y m d = Some (Date.mk y m d).
Proof.
  intros Hy Hm Hd. unfold Date.date, Date.valid, Date.MINYEAR, Date.MAXYEAR.
  cbn [Date.year Date.month Date.day].
  assert (d ≤ Date.days_in_month y m) as Hdm.
  { unfold Date.days_in_month. repeat case_match; lia. }
  rewrite !andb_true_intro; [done|..]; repeat split; try apply Z.leb_le; lia.
Qed.

Lemma date_Jan1 (y : Z) :
  1 ≤ y ≤ 9999 → Date.date y 1 1 = Some (Date.mk y 1 1).
Proof. intros. apply date_in_range; lia. Qed.

Lemma date_Dec31 (y : Z) :
  1 ≤ y ≤ 9999 → Date.date y 12 31 = Some (Date.mk y 12 31).
Proof.
  intros Hy. unfold Date.date, Date.valid, Date.MINYEAR, Date.MAXYEAR.
  cbn [Date.year Date.month Date.day].
  change (Date.days_in_month y 12) with 31.
  rewrite !andb_true_intro; [done|..]; repeat split; try apply Z.leb_le; lia.
Qed.

Lemma date_Some (y m d : Z) (r : Date.t) :
  Date.date y m d = Some r →
  r = Date.mk y m d ∧ 1 ≤ y ≤ 9999 ∧ 1 ≤ m ≤ 12 ∧ 1 ≤ d ≤ 31.
Proof.
  unfold Date.date. destruct (Date.valid _) eqn:Hv; [|done].
  intros [= <-]. split; [done|].
  unfold Date.valid, Date.MINYEAR, Date.MAXYEAR in Hv.
  cbn [Date.year Date.month Date.day] in Hv.
  repeat (apply andb_prop in Hv as [Hv ?]).
  assert (Date.days_in_month y m ≤ 31).
  { unfold Date.days_in_month. repeat case_match; lia. }
  lia.
Qed.

Lemma date_None (y m d : Z) :
  ¬ (1 ≤ y ≤ 9999) → Date.date y m d = None.
Proof.
  intros Hy. destruct (Date.date y m d) eqn:E; [|done].
  apply date_Some in E. lia.
Qed.

(** ** Auxiliary lemmas: queries and table operations *)

Lemma open_version_true (k : string) (d : Epci.t) :
  open_version k d = true ↔ Epci.siren d = k ∧ Epci.dateFin d = None.
Proof.
  unfold open_version, TinyDB.q_and, TinyDB.q_eq, TinyDB.q_not,
    TinyDB.q_exists, EPCI_siren, EPCI_dateFin.
  rewrite andb_true_iff, bool_decide_eq_true, negb_true_iff.
  destruct (Epci.dateFin d); naive_solver.
Qed.

Lemma missing_true (seen : gset string) (d : Epci.t) :
  missing seen d = true ↔ (Epci.siren d ∉ seen) ∧ Epci.dateFin d = None.
Proof.
  unfold missing, TinyDB.q_not, TinyDB.q_or, TinyDB.q_one_of,
    TinyDB.q_exists, EPCI_siren, EPCI_dateFin.
  rewrite negb_true_iff, orb_false_iff, bool_decide_eq_false.
  destruct (Epci.dateFin d); naive_solver.
Qed.

Lemma get_Some {Doc} (q : @TinyDB.query Doc) (tb : list Doc) i d :
  TinyDB.get q tb = Some (i, d)
  ↔ tb !! i = Some d ∧ q d = true
    ∧ ∀ j y, tb !! j = Some y → (j < i)%nat → q y = false.
Proof.
  unfold TinyDB.get. rewrite list_find_Some.
  setoid_rewrite not_true_iff_false. done.
Qed.

Lemma get_None {Doc} (q : @TinyDB.query Doc) (tb : list Doc) :
  TinyDB.get q tb = None ↔ ∀ d, d ∈ tb → q d = false.
Proof.
  unfold TinyDB.get. rewrite list_find_None, Forall_forall.
  setoid_rewrite not_true_iff_false. done.
Qed.

Lemma update_from_spec {Doc} (upd : Doc → Doc) (q : TinyDB.query)
    (tb : list Doc) i :
  (TinyDB.update_from i upd q tb).2 = (λ d, if q d then upd d else d) <$> tb
  ∧ length (TinyDB.update_from i upd q tb).1
    = length (filter (λ d, q d = true) tb)
  ∧ ∀ j, j ∈ (TinyDB.update_from i upd q tb).1
      ↔ ∃ d, tb !! (j - i)%nat = Some d ∧ (i ≤ j)%nat ∧ q d = true.
Proof.
  revert i. induction tb as [|d tb IH]; intros i; simpl.
  - split_and!; [done..|]. intros j. rewrite elem_of_nil. naive_solver.
  - destruct (IH (S i)) as (IH1 & IH2 & IH3).
    destruct (TinyDB.update_from (S i) upd q tb) as [ids tb'] eqn:E.
    simpl in *. rewrite filter_cons.
    destruct (q d) eqn:Hq; simpl.
    + split_and!; [by subst|by f_equal|].
      intros j. rewrite elem_of_cons, IH3. split.
      * intros [->|(d' & Hd' & Hle & Hq')].
        -- exists d. rewrite Nat.sub_diag. done.
        -- exists d'. replace (j - i)%nat with (S (j - S i)) by lia.
           split_and!; [done|lia|done].
      * intros (d' & Hd' & Hle & Hq').
        destruct (decide (j = i)) as [->|]; [by left|right].
        exists d'. replace (j - i)%nat with (S (j - S i)) in Hd' by lia. 
        split_and!; [done|lia|done].
    + split_and!; [by subst|done|].
      intros j. rewrite IH3. split.
      * intros (d' & Hd' & Hle & Hq').
        exists d'. replace (j - i)%nat with (S (j - S i)) by lia.
        split_and!; [done|lia|done].
      * intros (d' & Hd' & Hle & Hq').
        destruct (decide (j = i)) as [->|].
        { rewrite Nat.sub_diag in Hd'. simpl in Hd'. congruence. }
        exists d'. replace (j - i)%nat with (S (j - S i)) in Hd' by lia. 
        split_and!; [done|lia|done].
Qed.

(** ** Auxiliary lemmas: [extract_epci] and [upsert] unfolded *)

Lemma set_bool_sym_diff (a b : gset string) :
  set_bool (sym_diff a b) = true ↔ a ≠ b.
Proof.
  unfold set_bool, sym_diff. rewrite negb_true_iff, bool_decide_eq_false.
  split; intros H1 H2; apply H1; [set_solver|].
  apply leibniz_equiv. intros x. split; intros Hx.
  - destruct (decide (x ∈ b)); [done|]. set_solver.
  - destruct (decide (x ∈ a)); [done|]. set_solver.
Qed.

Lemma set_bool_sym_diff_false (a b : gset string) :
  set_bool (sym_diff a b) = false ↔ a = b.
Proof.
  rewrite <- not_true_iff_false, set_bool_sym_diff.
  destruct (decide (a = b)); naive_solver.
Qed.

(** [extract_epci], case by case. *)
Lemma extract_epci_eq (year : Z) (rows : list Row.t) (w : world) :
  extract_epci year rows w =
  match head rows with
  | None => Raise IndexError w
  | Some row =>
      match Date.date year 1 1 with
      | None => Raise ValueError w
      | Some _ =>
          match int (Row.nb_com row) with
          | None => Raise ValueError w
          | Some n =>
              if bool_decide (n ≠ Z.of_nat (size (members_of rows)))
              then Ret (candidate year row rows)
                     (printed (mismatch_line row rows) w)
              else Ret (candidate year row rows) w
          end
      end
  end.
Proof.
  unfold extract_epci, bind, or_raise, ret, raise.
  destruct (head rows) as [row|]; [|done].
  destruct (Date.date year 1 1) as [d|] eqn:Hd; [|done].
  apply date_Some in Hd as [-> _].
  destruct (int (Row.nb_com row)) as [n|]; [|done].
  cbn [Epci.membres Epci.siren]. fold (members_of rows).
  destruct (bool_decide _); [|by destruct w].
  reflexivity.
Qed.

Lemma extract_epci_Ret (year : Z) (rows : list Row.t) (w w' : world) e :
  extract_epci year rows w = Ret e w' →
  ∃ row n, head rows = Some row ∧ 1 ≤ year ≤ 9999
    ∧ int (Row.nb_com row) = Some n
    ∧ e = candidate year row rows
    ∧ w' = (if bool_decide (n ≠ Z.of_nat (size (members_of rows)))
            then printed (mismatch_line row rows) w else w).
Proof.
  rewrite extract_epci_eq.
  destruct (head rows) as [row|]; [|done].
  destruct (Date.date year 1 1) as [d|] eqn:Hd; [|done].
  apply date_Some in Hd as [_ [Hy _]].
  destruct (int (Row.nb_com row)) as [n|] eqn:Hn; [|done].
  intros H. exists row, n.
  destruct (bool_decide _); inversion H; subst; repeat split; done || lia.
Qed.

Lemma extract_epci_db (year : Z) (rows : list Row.t) (w w' : world) e :
  extract_epci year rows w = Ret e w' → db w' = db w ∧ files w' = files w.
Proof.
  intros (row & n & _ & _ & _ & _ & ->)%extract_epci_Ret.
  by case_bool_decide.
Qed.

(** [upsert], case by case. *)
Lemma upsert_eq (year : Z) (siren : string) (rows : list Row.t) (w : world) :
  upsert year siren rows w =
  match extract_epci year rows w with
  | Raise e w1 => Raise e w1
  | Ret epci w1 =>
      match TinyDB.get (open_version siren) (db w) with
      | None => Ret (Some INSERTED) (with_table (db w ++ [epci]) w1)
      | Some (doc_id, current) =>
          if set_bool (sym_diff (Epci.membres current) (Epci.membres epci))
          then
            let tb :=
              db w ++ [Epci.set_predecesseurs [Epci.id current] epci] in
            match Date.date (year - 1) 12 31 with
            | None => Raise ValueError (with_table tb w1)
            | Some dateFin =>
                Ret (Some UPDATED)
                  (with_table
                     (alter (Epci.close_with [Epci.id epci] dateFin
                               "Changement de membres") doc_id tb) w1)
            end
          else Ret None w1
      end
  end.
Proof.
  unfold upsert, bind, read_db.
  destruct (extract_epci year rows w) as [epci w1|] eqn:He; [|done].
  apply extract_epci_db in He as [Hdb Hfiles].
  destruct (TinyDB.get _ _) as [[doc_id current]|].
  - destruct (set_bool _); [|done].
    unfold with_db, with_table, TinyDB.insert, or_raise, ret, raise. simpl.
    rewrite Hdb. destruct (Date.date _ _ _); done.
  - unfold with_db, with_table, TinyDB.insert, ret. simpl. by rewrite Hdb.
Qed.

Lemma extract_epci_any_world (year : Z) (rows : list Row.t) (w w1 v : world) e :
  extract_epci year rows w = Ret e w1 →
  ∃ v1, extract_epci year rows v = Ret e v1 ∧ db v1 = db v.
Proof.
  rewrite !extract_epci_eq.
  destruct (head rows); [|done]. destruct (Date.date _ _ _); [|done].
  destruct (int _); [|done].
  case_bool_decide; intros [= <- _]; eauto.
Qed.

Lemma candidate_open (year : Z) (row : Row.t) (rows : list Row.t) (k : string) :
  open_version k (candidate year row rows) = true ↔ Row.siren row = k.
Proof. rewrite open_version_true. simpl. naive_solver. Qed.

Lemma alter_as_insert {A} (f : A → A) (i : nat) (l : list A) (x : A) :
  l !! i = Some x → alter f i l = <[i := f x]> l.
Proof.
  intros Hx. apply list_eq. intros j.
  destruct (decide (i = j)) as [<-|Hne].
  - rewrite list_lookup_alter_eq, Hx.
    rewrite list_lookup_insert_eq; [done|]. by eapply lookup_lt_Some.
  - by rewrite list_lookup_alter_ne, list_lookup_insert_ne.
Qed.

(** C1. [upsert(year, siren, rows)], on the candidate [epci] that
    [extract_epci] returns for the rows. When no version of [siren] is open
    (there is none, or all have an end date) the candidate is appended as it
    is, without predecessors, and the result is [INSERTED]. When [current] is
    the open version of [siren] (the first document with this SIREN and no
    [dateFin]) and its members differ from the candidate's, the candidate is
    appended with [predecesseurs = [current.id]], the current version gets
    [successeurs = [epci.id]], [dateFin] = 31 December of [year - 1] and
    [raisonFin = "Changement de membres"] in place, and the result is
    [UPDATED]. The year is one whose previous year [datetime.date] can hold
    ([1 < year]; the extraction already needs [1 <= year <= 9999]). *)
Theorem upsert_inserts_or_supersedes
    (year : Z) (siren : string) (rows : list Row.t) (w w1 : world)
    (epci : Epci.t) :
  extract_epci year rows w = Ret epci w1 →
  ((∀ v, v ∈ db w → Epci.siren v = siren → Epci.dateFin v ≠ None) →
     upsert year siren rows w
     = Ret (Some INSERTED) (with_table (db w ++ [epci]) w1)
     ∧ Epci.predecesseurs epci = None
     ∧ Epci.successeurs epci = None
     ∧ Epci.dateFin epci = None)
  ∧ (∀ doc_id current,
       db w !! doc_id = Some current →
       Epci.siren current = siren → Epci.dateFin current = None →
       (∀ j v, db w !! j = Some v → (j < doc_id)%nat →
          ¬ (Epci.siren v = siren ∧ Epci.dateFin v = None)) →
       Epci.membres current ≠ Epci.membres epci →
       1 < year →
       upsert year siren rows w
       = Ret (Some UPDATED)
           (with_table
              (<[doc_id := Epci.close_with [Epci.id epci]
                             (Date.mk (year - 1) 12 31)
                             "Changement de membres" current]>
                 (db w ++ [Epci.set_predecesseurs [Epci.id current] epci]))
              w1)).
Proof.
  intros He. rewrite upsert_eq, He.
  pose proof He as (row & n & _ & Hy & _ & -> & _)%extract_epci_Ret.
  split.
  - intros Hclosed.
    assert (TinyDB.get (open_version siren) (db w) = None) as ->; [|done].
    apply get_None. intros v Hv. apply not_true_iff_false.
    rewrite open_version_true. intros [Hs Ho]. by eapply Hclosed.
  - intros doc_id current Hcur Hs Ho Hfirst Hne Hyear.
    assert (TinyDB.get (open_version siren) (db w) = Some (doc_id, current))
      as ->.
    { apply get_Some. split_and!; [done|by apply open_version_true|].
      intros j v Hj Hlt. apply not_true_iff_false.
      rewrite open_version_true. by eapply Hfirst. }
    apply set_bool_sym_diff in Hne as ->.
    rewrite date_Dec31 by lia. cbv zeta.
    erewrite alter_as_insert; [done|].
    by apply lookup_app_l_Some.
Qed.

Lemma upsert_inserts_or_supersedes_witness :
  upsert 2000 "E1" rows_abc Store_init
  = Ret (Some INSERTED) store_2000
  ∧ upsert 2001 "E1" rows_ab store_2000
    = Ret (Some UPDATED)
        (with_table
           [Epci.close_with ["E1@2001-01-01"] (Date.mk 2000 12 31)
              "Changement de membres"
              (candidate 2000 (sample_row "E1" "3" "1") rows_abc);
            Epci.set_predecesseurs ["E1@2000-01-01"]
              (candidate 2001 (sample_row "E1" "2" "1") rows_ab)]
           store_2000).
Proof.
  split.
  - refine (proj1 (proj1 (upsert_inserts_or_supersedes 2000 "E1" rows_abc
                     Store_init Store_init
                     (candidate 2000 (sample_row "E1" "3" "1") rows_abc)
                     _) _)).
    + reflexivity.
    + intros v Hv. by apply elem_of_nil in Hv.
  - refine (proj2 (upsert_inserts_or_supersedes 2001 "E1" rows_ab
                     store_2000 store_2000
                     (candidate 2001 (sample_row "E1" "2" "1") rows_ab) _)
              0%nat (candidate 2000 (sample_row "E1" "3" "1") rows_abc)
              _ _ _ _ _ _).
    + reflexivity.
    + reflexivity.
    + reflexivity.
    + reflexivity.
    + intros j v _ Hj. lia.
    + intros H. by vm_compute in H.
    + lia.
Defined.

(** What a completed [upsert] did to the table. *)
Lemma upsert_Ret (year : Z) (siren : string) (rows : list Row.t)
    (w w' : world) (op : option Z) :
  upsert year siren rows w = Ret op w' →
  ∃ row,
    head rows = Some row ∧ 1 ≤ year ≤ 9999
    ∧ let epci := candidate year row rows in
      match TinyDB.get (open_version siren) (db w) with
      | None => op = Some INSERTED ∧ db w' = db w ++ [epci]
      | Some (doc_id, current) =>
          if set_bool (sym_diff (Epci.membres current) (Epci.membres epci))
          then op = Some UPDATED ∧ 1 < year
               ∧ db w' =
                 <[doc_id := Epci.close_with [Epci.id epci]
                                (Date.mk (year - 1) 12 31)
                                "Changement de membres" current]>
                   (db w ++ [Epci.set_predecesseurs [Epci.id current] epci])
          else op = None ∧ db w' = db w
      end.
Proof.
  rewrite upsert_eq.
  destruct (extract_epci year rows w) as [epci w1|] eqn:He; [|done].
  pose proof He as [Hdb _]%extract_epci_db.
  apply extract_epci_Ret in He as (row & n & Hrow & Hy & _ & -> & _).
  intros H. exists row. split_and!; [done|lia..|]. cbv zeta.
  destruct (TinyDB.get _ _) as [[doc_id current]|] eqn:Hget.
  - destruct (set_bool _); [|by inversion H; subst].
    cbv zeta in H. destruct (Date.date _ _ _) as [d|] eqn:Hd; [|done].
    apply date_Some in Hd as [-> [? _]]. inversion H; subst.
    split_and!; [done|lia|]. simpl.
    apply alter_as_insert, lookup_app_l_Some. by apply get_Some in Hget as [? _].
  - by inversion H; subst.
Qed.

(** C9. Frame of the membership-change branch: when [upsert] returns
    [UPDATED], exactly one document [doc_id] of the old table changed, and
    only in [successeurs], [dateFin] and [raisonFin]: its id, SIREN, start
    date, members, attributes and predecessors are as before; every other
    document of the old table is unchanged, and one document, the new
    version, was appended. *)
Theorem upsert_updated_frame (year : Z) (siren : string) (rows : list Row.t)
    (w w' : world) :
  upsert year siren rows w = Ret (Some UPDATED) w' →
  ∃ doc_id current current' epci,
    db w !! doc_id = Some current
    ∧ db w' !! doc_id = Some current'
    ∧ Epci.id current' = Epci.id current
    ∧ Epci.siren current' = Epci.siren current
    ∧ Epci.dateDebut current' = Epci.dateDebut current
    ∧ Epci.membres current' = Epci.membres current
    ∧ Epci.nom current' = Epci.nom current
    ∧ Epci.nature current' = Epci.nature current
    ∧ Epci.fiscalite current' = Epci.fiscalite current
    ∧ Epci.population current' = Epci.population current
    ∧ Epci.predecesseurs current' = Epci.predecesseurs current
    ∧ (∀ j v, j ≠ doc_id → db w !! j = Some v → db w' !! j = Some v)
    ∧ db w' !! length (db w) = Some epci
    ∧ length (db w') = S (length (db w)).
Proof.
  intros (row & _ & _ & H)%upsert_Ret. cbv zeta in H.
  destruct (TinyDB.get _ _) as [[doc_id current]|] eqn:Hget;
    [|by destruct H].
  destruct (set_bool _); [|by destruct H].
  destruct H as (_ & _ & ->).
  apply get_Some in Hget as (Hcur & _ & _).
  pose proof (lookup_lt_Some _ _ _ Hcur) as Hlt.
  eexists doc_id, current, _, _. split_and!.
  - done.
  - apply list_lookup_insert_eq. rewrite length_app. simpl. lia.
  - done.
  - done.
  - done.
  - done.
  - done.
  - done.
  - done.
  - done.
  - done.
  - intros j v Hne Hj. rewrite list_lookup_insert_ne by done.
    by apply lookup_app_l_Some.
  - rewrite list_lookup_insert_ne by lia.
    rewrite lookup_app_r by lia. by rewrite Nat.sub_diag.
  - rewrite length_insert, length_app. simpl. lia.
Qed.

Lemma upsert_updated_frame_witness :
  ∃ doc_id current current' epci,
    db store_2000 !! doc_id = Some current
    ∧ db store_2001 !! doc_id = Some current'
    ∧ Epci.id current' = Epci.id current
    ∧ Epci.siren current' = Epci.siren current
    ∧ Epci.dateDebut current' = Epci.dateDebut current
    ∧ Epci.membres current' = Epci.membres current
    ∧ Epci.nom current' = Epci.nom current
    ∧ Epci.nature current' = Epci.nature current
    ∧ Epci.fiscalite current' = Epci.fiscalite current
    ∧ Epci.population current' = Epci.population current
    ∧ Epci.predecesseurs current' = Epci.predecesseurs current
    ∧ (∀ j v, j ≠ doc_id → db store_2000 !! j = Some v →
         db store_2001 !! j = Some v)
    ∧ db store_2001 !! length (db store_2000) = Some epci
    ∧ length (db store_2001) = S (length (db store_2000)).
Proof.
  apply (upsert_updated_frame 2001 "E1" rows_ab store_2000 store_2001).
  vm_compute. reflexivity.
Defined.

(** C6. When the open version of the key has the members of the candidate,
    [upsert] leaves the table as it is and returns [None], which is neither
    [INSERTED] nor [UPDATED]. Consequently, on a store with at most one open
    version per key and rows of the key [siren], a second [upsert] with the
    same year and rows right after the first is such a no-op: the two calls
    together add the one version the first call added (one when it returned
    [INSERTED] or [UPDATED], none when it was itself a no-op). *)
Theorem upsert_same_members_noop (year : Z) (siren : string)
    (rows : list Row.t) (w : world) :
  (∀ doc_id current epci w1,
     TinyDB.get (open_version siren) (db w) = Some (doc_id, current) →
     extract_epci year rows w = Ret epci w1 →
     Epci.membres current = Epci.membres epci →
     upsert year siren rows w = Ret None w1
     ∧ db w1 = db w
     ∧ None ≠ Some INSERTED ∧ None ≠ Some UPDATED)
  ∧ (one_open (db w) →
     (∀ row, head rows = Some row → Row.siren row = siren) →
     ∀ op w1,
       upsert year siren rows w = Ret op w1 →
       ∃ w2,
         upsert year siren rows w1 = Ret None w2
         ∧ db w2 = db w1
         ∧ length (db w2)
           = (length (db w) + if op is Some _ then 1 else 0)%nat).
Proof.
  split.
  - intros doc_id current epci w1 Hget He Heq.
    rewrite upsert_eq, He, Hget.
    apply set_bool_sym_diff_false in Heq as ->.
    by apply extract_epci_db in He as [-> _].
  - intros Hone Hkey op w1 Hup.
    pose proof Hup as Hup'. rewrite upsert_eq in Hup'.
    destruct (extract_epci year rows w) as [epci v|] eqn:He; [|done].
    destruct (extract_epci_any_world _ _ _ _ w1 _ He) as (w2 & He2 & Hdb2).
    pose proof He as (row & n & Hrow & _ & _ & Hepci & _)%extract_epci_Ret.
    specialize (Hkey row Hrow).
    apply upsert_Ret in Hup as (row' & Hrow' & _ & Hup).
    assert (row' = row) as -> by congruence.
    cbv zeta in Hup. rewrite <- Hepci in Hup. clear Hup'.
    exists w2. rewrite upsert_eq, He2.
    destruct (TinyDB.get (open_version siren) (db w))
      as [[doc_id current]|] eqn:Hget.
    + destruct (set_bool _) eqn:Hdiff.
      * destruct Hup as (-> & _ & Hdb).
        apply get_Some in Hget as (Hcur & Hq & _).
        apply open_version_true in Hq as [Hs Ho].
        pose proof (lookup_lt_Some _ _ _ Hcur) as Hlt.
        assert (TinyDB.get (open_version siren) (db w1)
                = Some (length (db w),
                        Epci.set_predecesseurs [Epci.id current] epci)) as ->.
        { apply get_Some. rewrite Hdb. split_and!.
          - rewrite list_lookup_insert_ne by lia.
            rewrite lookup_app_r by lia. by rewrite Nat.sub_diag.
          - apply open_version_true. by subst epci.
          - intros j y Hj Hjlt. apply not_true_iff_false.
            rewrite open_version_true. intros [Hys Hyo].
            destruct (decide (j = doc_id)) as [->|Hne].
            + rewrite list_lookup_insert_eq in Hj
                by (rewrite length_app; simpl; lia).
              by injection Hj as <-.
            + rewrite list_lookup_insert_ne in Hj by done.
              rewrite lookup_app_l in Hj by done.
              apply Hne. eapply Hone; eauto. congruence. }
        assert (set_bool (sym_diff
                  (Epci.membres (Epci.set_predecesseurs [Epci.id current] epci))
                  (Epci.membres epci)) = false) as ->.
        { by apply set_bool_sym_diff_false. }
        split_and!; [done..|].
        rewrite Hdb2, Hdb, length_insert, length_app. simpl. lia.
      * destruct Hup as (-> & Hdb). rewrite Hdb, Hget, Hdiff.
        split_and!; [done|congruence|]. rewrite Hdb2, Hdb. lia.
    + destruct Hup as (-> & Hdb).
      assert (TinyDB.get (open_version siren) (db w1)
              = Some (length (db w), epci)) as ->.
      { apply get_Some. rewrite Hdb. split_and!.
        - rewrite lookup_app_r by lia. by rewrite Nat.sub_diag.
        - apply open_version_true. by subst epci.
        - intros j y Hj Hjlt. rewrite lookup_app_l in Hj by done.
          eapply get_None; [done|]. by eapply list_elem_of_lookup_2. }
      assert (set_bool (sym_diff (Epci.membres epci) (Epci.membres epci))
              = false) as -> by by apply set_bool_sym_diff_false.
      split_and!; [done..|]. rewrite Hdb2, Hdb, length_app. simpl. lia.
Qed.

Lemma upsert_same_members_noop_witness :
  (upsert 2001 "E1" rows_ab store_2001 = Ret None store_2001)
  ∧ ∃ w2, upsert 2001 "E1" rows_ab store_2001 = Ret None w2
          ∧ db w2 = db store_2001
          ∧ length (db w2) = (length (db store_2000) + 1)%nat.
Proof.
  split.
  - refine (proj1 (proj1 (upsert_same_members_noop 2001 "E1" rows_ab
                            store_2001) 1%nat _ _ store_2001 _ _ _)).
    + vm_compute. reflexivity.
    + vm_compute. reflexivity.
    + vm_compute. reflexivity.
  - refine (proj2 (upsert_same_members_noop 2001 "E1" rows_ab store_2000)
              _ _ (Some UPDATED) store_2001 _).
    + intros [|i] [|j] a b Hi Hj; simpl in Hi, Hj;
        rewrite ?lookup_nil in *; done.
    + by intros row [= <-].
    + vm_compute. reflexivity.
Defined.

Lemma members_of_spec (rows : list Row.t) (x : string) :
  x ∈ members_of rows ↔ ∃ r, r ∈ rows ∧ x = zfill 5 (Row.insee r).
Proof.
  unfold members_of. rewrite elem_of_list_to_set, list_elem_of_fmap.
  naive_solver.
Qed.

Lemma members_of_size (rows : list Row.t) :
  (size (members_of rows) ≤ length rows)%nat.
Proof.
  unfold members_of, size, set_size. simpl.
  rewrite <- (length_fmap (λ r, zfill 5 (Row.insee r)) rows).
  apply submseteq_length, NoDup_submseteq; [apply NoDup_elements|].
  intros x. by rewrite elem_of_elements, elem_of_list_to_set.
Qed.

(** C7. For a group with a first row [row] whose [nb_com] reads as the
    integer [n]: [extract_epci] returns the candidate built from the set of
    zero-padded INSEE codes of the rows, whether or not [n] agrees with the
    size of that set; it prints the mismatch line exactly when [n] differs
    from the size of the set. The comparison is with the cardinality of the
    set, which can be smaller than the number of rows, so repeated members
    alone print nothing. *)
Theorem extract_epci_count_warning (year : Z) (rows : list Row.t)
    (row : Row.t) (n : Z) (w : world) :
  head rows = Some row →
  int (Row.nb_com row) = Some n →
  1 ≤ year ≤ 9999 →
  (n ≠ Z.of_nat (size (members_of rows)) →
     extract_epci year rows w
     = Ret (candidate year row rows) (printed (mismatch_line row rows) w))
  ∧ (n = Z.of_nat (size (members_of rows)) →
     extract_epci year rows w = Ret (candidate year row rows) w)
  ∧ Epci.membres (candidate year row rows) = members_of rows
  ∧ (∀ x, x ∈ members_of rows
          ↔ ∃ r, r ∈ rows ∧ x = zfill 5 (Row.insee r))
  ∧ (size (members_of rows) ≤ length rows)%nat.
Proof.
  intros Hrow Hn Hy. rewrite extract_epci_eq, Hrow, Hn, date_Jan1 by done.
  split_and!.
  - intros Hne. by rewrite bool_decide_eq_true_2.
  - intros Heq. by rewrite bool_decide_eq_false_2 by (by intros ?).
  - done.
  - apply members_of_spec.
  - apply members_of_size.
Qed.

Lemma extract_epci_count_warning_witness :
  (extract_epci 2000 rows_dup Store_init
   = Ret (candidate 2000 (sample_row "E1" "3" "1") rows_dup)
       (printed (mismatch_line (sample_row "E1" "3" "1") rows_dup) Store_init)
   ∧ size (members_of rows_dup) = 2%nat)
  ∧ extract_epci 2000 rows_dup_ok Store_init
    = Ret (candidate 2000 (sample_row "E1" "2" "1") rows_dup_ok) Store_init.
Proof.
  split; [split|].
  - refine (proj1 (extract_epci_count_warning 2000 rows_dup
                     (sample_row "E1" "3" "1") 3 Store_init _ _ _) _).
    + reflexivity.
    + vm_compute. reflexivity.
    + lia.
    + vm_compute. discriminate.
  - vm_compute. reflexivity.
  - refine (proj1 (proj2 (extract_epci_count_warning 2000 rows_dup_ok
                     (sample_row "E1" "2" "1") 2 Store_init _ _ _)) _).
    + reflexivity.
    + vm_compute. reflexivity.
    + lia.
    + vm_compute. reflexivity.
Defined.

(** C10. Extraction is partial. There is a group (first row with
    [nb_com = "three"]) on which [extract_epci] raises [ValueError] and
    [load_year] with it. In general, for a group with a first row and a year
    [datetime.date] can hold: when [int(row['nb_com'])] fails, [extract_epci]
    and [upsert] raise [ValueError] and nothing was printed (the world is
    unchanged: the mismatch check comes after the conversion); when it
    succeeds, [extract_epci] returns the candidate. *)
Theorem extract_epci_partial :
  (int (Row.nb_com (sample_row "E1" "three" "1")) = None
   ∧ extract_epci 2000 rows_bad_count Store_init
     = Raise ValueError Store_init
   ∧ load_year 2000 rows_bad_count Store_init
     = Raise ValueError Store_init)
  ∧ ∀ (year : Z) (rows : list Row.t) (row : Row.t) (w : world),
      head rows = Some row →
      1 ≤ year ≤ 9999 →
      (int (Row.nb_com row) = None →
         extract_epci year rows w = Raise ValueError w
         ∧ ∀ siren, upsert year siren rows w = Raise ValueError w)
      ∧ (∀ n, int (Row.nb_com row) = Some n →
           ∃ w', extract_epci year rows w = Ret (candidate year row rows) w').
Proof.
  split.
  - split_and!; vm_compute; reflexivity.
  - intros year rows row w Hrow Hy. split.
    + intros Hn.
      assert (extract_epci year rows w = Raise ValueError w) as He.
      { by rewrite extract_epci_eq, Hrow, Hn, date_Jan1. }
      split; [done|]. intros siren. by rewrite upsert_eq, He.
    + intros n Hn. rewrite extract_epci_eq, Hrow, Hn, date_Jan1 by done.
      case_bool_decide; eauto.
Qed.

Lemma extract_epci_partial_witness :
  extract_epci 2000 rows_bad_count Store_init = Raise ValueError Store_init
  ∧ ∃ w', extract_epci 2000 rows_abc Store_init
          = Ret (candidate 2000 (sample_row "E1" "3" "1") rows_abc) w'.
Proof.
  destruct extract_epci_partial as [_ H]. split.
  - refine (proj1 (proj1 (H 2000 rows_bad_count
              (sample_row "E1" "three" "1") Store_init _ _) _)).
    + reflexivity.
    + lia.
    + vm_compute. reflexivity.
  - refine (proj2 (H 2000 rows_abc (sample_row "E1" "3" "1") Store_init _ _)
              3 _).
    + reflexivity.
    + lia.
    + vm_compute. reflexivity.
Defined.

(** ** Auxiliary lemmas: [itertools.groupby] *)

Lemma elem_of_concat {A} (x : A) (ls : list (list A)) :
  x ∈ concat ls ↔ ∃ l, x ∈ l ∧ l ∈ ls.
Proof.
  induction ls as [|l ls IH]; simpl.
  - split; [by intros ?%elem_of_nil|]. by intros (l & _ & ?%elem_of_nil).
  - rewrite elem_of_app, IH. split.
    + intros [Hx|(l' & Hx & Hl')]; [exists l|exists l']; split; try done;
        [left|by right].
    + intros (l' & Hx & [->|Hl']%elem_of_cons); [by left|right; eauto].
Qed.

Lemma filter_all {A} (P : A → Prop) `{∀ x, Decision (P x)} (l : list A) :
  (∀ x, x ∈ l → P x) → filter P l = l.
Proof.
  induction l as [|x l IH]; intros Hl; [done|].
  rewrite filter_cons, decide_True by (apply Hl; left).
  f_equal. apply IH. intros y Hy. apply Hl. by right.
Qed.

Lemma filter_none {A} (P : A → Prop) `{∀ x, Decision (P x)} (l : list A) :
  (∀ x, x ∈ l → ¬ P x) → filter P l = [].
Proof.
  induction l as [|x l IH]; intros Hl; [done|].
  rewrite filter_cons, decide_False by (apply Hl; left).
  apply IH. intros y Hy. apply Hl. by right.
Qed.

Section groupby.
Context {A K : Type} `{EqDecision K} (key : A → K).

Lemma groupby_cons (x : A) (l : list A) :
  groupby key (x :: l) =
  match groupby key l with
  | (k, g) :: gs =>
      if decide (key x = k) then (k, x :: g) :: gs
      else (key x, [x]) :: (k, g) :: gs
  | [] => [(key x, [x])]
  end.
Proof. reflexivity. Qed.

Lemma groupby_concat (l : list A) : concat (snd <$> groupby key l) = l.
Proof.
  induction l as [|x l IH]; [done|]. rewrite groupby_cons.
  destruct (groupby key l) as [|[k g] gs]; simpl in *; [by subst|].
  case_decide; simpl; by rewrite <- IH.
Qed.

Lemma groupby_head (l : list A) (k : K) (g : list A) gs :
  groupby key l = (k, g) :: gs →
  ∃ x l' g', l = x :: l' ∧ g = x :: g' ∧ key x = k.
Proof.
  destruct l as [|x l]; [done|]. rewrite groupby_cons.
  destruct (groupby key l) as [|[k' g'] gs'].
  - intros [= <- <- <-]. by eexists _, _, _.
  - case_decide; intros [= <- <- <-]; by eexists _, _, _.
Qed.

Lemma groupby_groups (l : list A) (k : K) (g : list A) :
  (k, g) ∈ groupby key l → g ≠ [] ∧ ∀ x, x ∈ g → key x = k.
Proof.
  revert k g. induction l as [|x l IH]; intros k g.
  { simpl. by intros ?%elem_of_nil. }
  rewrite groupby_cons. destruct (groupby key l) as [|[k' g'] gs].
  - intros [= -> ->]%list_elem_of_singleton. split; [done|].
    by intros y ->%list_elem_of_singleton.
  - case_decide as Hk.
    + intros [[= -> ->]|Hin]%elem_of_cons.
      * split; [done|]. intros y [->|Hy]%elem_of_cons; [done|].
        eapply IH; [|done]. left.
      * apply IH. by right.
    + intros [[= -> ->]|Hin]%elem_of_cons.
      * split; [done|]. by intros y ->%list_elem_of_singleton.
      * by apply IH.
Qed.

Lemma groupby_adjacent (l : list A) (i : nat) k1 g1 k2 g2 :
  groupby key l !! i = Some (k1, g1) →
  groupby key l !! S i = Some (k2, g2) →
  k1 ≠ k2.
Proof.
  revert i k1 g1 k2 g2.
  induction l as [|x l IH]; intros i k1 g1 k2 g2; [done|].
  rewrite groupby_cons. destruct (groupby key l) as [|[k' g'] gs]; [done|].
  case_decide as Hk.
  - destruct i as [|i]; simpl.
    + intros [= <- <-] H2. by eapply (IH 0%nat).
    + intros H1 H2. by eapply (IH (S i)).
  - destruct i as [|i]; simpl.
    + by intros [= <- <-] [= <- <-].
    + intros H1 H2. by eapply IH.
Qed.

Lemma groupby_keys (l : list A) (k : K) :
  k ∈ (fst <$> groupby key l) → ∃ x, x ∈ l ∧ key x = k.
Proof.
  intros ([k' g] & -> & Hin)%list_elem_of_fmap.
  pose proof (groupby_groups _ _ _ Hin) as [Hne Hkey].
  destruct g as [|x g]; [done|]. exists x. split; [|apply Hkey; left].
  rewrite <- (groupby_concat l). apply elem_of_concat.
  exists (x :: g). split; [left|].
  apply list_elem_of_fmap. by exists (k', x :: g).
Qed.

Lemma contiguous_tail (x : A) (l : list A) :
  contiguous key (x :: l) → contiguous key l.
Proof.
  intros H l1 a l2 b l3 -> Hab. by apply (H (x :: l1) a l2 b l3).
Qed.

Lemma groupby_contiguous (l : list A) :
  contiguous key l → NoDup (fst <$> groupby key l).
Proof.
  induction l as [|x l IH]; intros Hc; [constructor|].
  specialize (IH (contiguous_tail _ _ Hc)).
  rewrite groupby_cons.
  destruct (groupby key l) as [|[k g] gs] eqn:Hg; simpl.
  { apply NoDup_singleton. }
  case_decide as Hk; simpl; [done|].
  apply NoDup_cons. split; [|done].
  intros Hin.
  assert (key x ∈ (fst <$> groupby key l)) as Hin' by by rewrite Hg.
  apply groupby_keys in Hin' as (y & Hy & Hxy).
  apply groupby_head in Hg as (z & l' & g' & -> & -> & Hz).
  apply elem_of_cons in Hy as [->|Hy]; [congruence|].
  apply list_elem_of_split in Hy as (l1 & l2 & ->).
  apply Hk. rewrite <- Hz.
  symmetry. apply (Hc [] x (z :: l1) y l2); [done|done|left].
Qed.

Lemma groupby_filter (l : list A) (k : K) (g : list A) :
  NoDup (fst <$> groupby key l) →
  (k, g) ∈ groupby key l →
  g = filter (λ x, key x = k) l.
Proof.
  intros Hnd Hin.
  pose proof (groupby_concat l) as Hl.
  pose proof (groupby_groups l) as Hgroups.
  revert Hnd Hin Hgroups Hl. generalize (groupby key l) as gs.
  intros gs Hnd Hin Hgroups <-.
  induction gs as [|[k' g'] gs IH]; [by apply elem_of_nil in Hin|].
  rewrite fmap_cons in Hnd. rewrite fmap_cons, concat_cons.
  cbn [fst snd] in *. apply NoDup_cons in Hnd as [Hk' Hnd].
  rewrite filter_app.
  assert (∀ x, x ∈ g' → key x = k') as Hg'.
  { intros. eapply Hgroups; [left|done]. }
  apply elem_of_cons in Hin as [[= <- <-]|Hin].
  - rewrite (filter_all _ g) by done.
    assert (filter (λ x, key x = k) (concat gs.*2) = []) as ->;
      [|by rewrite app_nil_r].
    apply filter_none.
    intros x (gx & Hx & [[kx gx'] [-> Hgx]]%list_elem_of_fmap)%elem_of_concat Hkx.
    apply Hk'. apply list_elem_of_fmap. exists (kx, gx'). split; [|done].
    simpl. rewrite <- Hkx.
    eapply (proj2 (Hgroups kx gx' ltac:(by right))). done.
  - assert (filter (λ x, key x = k) g' = []) as ->.
    { apply filter_none. intros x Hx Hkx.
      apply Hk'. apply list_elem_of_fmap. exists (k, g). split; [|done].
      simpl. rewrite <- Hkx. symmetry. by apply Hg'. }
    simpl. apply IH; [done..|]. intros. apply Hgroups. by right.
Qed.
End groupby.

(** *** The loop of [load_year] *)

Lemma load_groups_cons (year : Z) (siren : string) (rows : list Row.t)
    groups (idx : nat) (sirens : gset string) (result : LoadResult) (w : world) :
  ∃ w0, db w0 = db w ∧ files w0 = files w
    ∧ load_groups year ((siren, rows) :: groups) idx sirens result w =
      match upsert year siren rows w0 with
      | Raise e w1 => Raise e w1
      | Ret op w1 =>
          load_groups year groups (S idx) ({[siren]} ∪ sirens)
            (mkLoadResult (S (total result))
               (new result + if bool_decide (op = Some INSERTED) then 1 else 0)
               (updated result
                + if bool_decide (op = Some UPDATED) then 1 else 0)
               (ended result))
            w1
      end.
Proof.
  cbn [load_groups]. unfold bind at 1.
  destruct (bool_decide (idx mod DOT_MOD = 0)%nat).
  - exists (printed ((if bool_decide (idx mod IDX_MOD = 0)%nat
                      then white (pretty idx) else ".") +:+ "") w).
    split_and!; [done..|]. unfold print, printed. cbn beta iota.
    unfold bind. destruct (upsert _ _ _ _) as [op w1|]; [|done].
    f_equal. destruct result as [t n u e]. simpl.
    unfold INSERTED, UPDATED.
    repeat case_bool_decide; simplify_eq; f_equal; simpl; lia.
  - exists w. split_and!; [done..|]. unfold ret, bind.
    destruct (upsert _ _ _ _) as [op w1|]; [|done].
    f_equal. destruct result as [t n u e]. simpl.
    unfold INSERTED, UPDATED.
    repeat case_bool_decide; simplify_eq; f_equal; simpl; lia.
Qed.

Lemma load_groups_Ret (P : list Epci.t → Prop) (year : Z) groups
    (idx : nat) (sirens sirens' : gset string) (result result' : LoadResult)
    (w w' : world) :
  (∀ siren rows v op v',
     (siren, rows) ∈ groups → P (db v) →
     upsert year siren rows v = Ret op v' → P (db v')) →
  P (db w) →
  load_groups year groups idx sirens result w = Ret (sirens', result') w' →
  P (db w')
  ∧ sirens' = list_to_set (fst <$> groups) ∪ sirens
  ∧ total result' = (total result + length groups)%nat.
Proof.
  revert idx sirens result w.
  induction groups as [|[siren rows] groups IH]; intros idx sirens result w Hstep HP.
  - intros [= <- <- <-]. split_and!; [done|set_solver|simpl; lia].
  - destruct (load_groups_cons year siren rows groups idx sirens result w)
      as (w0 & Hdb & _ & ->).
    destruct (upsert year siren rows w0) as [op w1|] eqn:Hup; [|done].
    intros Hrest. apply IH in Hrest as (HP' & -> & ->).
    + split_and!; [done|set_solver|simpl; lia].
    + intros ? ? ? ? ? Hin. apply Hstep. by right.
    + eapply Hstep; [left|by rewrite Hdb|done].
Qed.

(** *** At most one open version per key *)

Lemma one_open_upsert (year : Z) (siren : string) (rows : list Row.t)
    (w w' : world) (op : option Z) :
  one_open (db w) →
  (∀ row, head rows = Some row → Row.siren row = siren) →
  upsert year siren rows w = Ret op w' →
  one_open (db w').
Proof.
  intros Hone Hkey (row & Hrow & _ & H)%upsert_Ret. cbv zeta in H.
  specialize (Hkey row Hrow).
  destruct (TinyDB.get _ _) as [[doc_id current]|] eqn:Hget.
  - destruct (set_bool _); [|destruct H as [_ ->]; done].
    destruct H as (_ & _ & ->).
    apply get_Some in Hget as (Hcur & [Hs Ho]%open_version_true & _).
    pose proof (lookup_lt_Some _ _ _ Hcur) as Hlt.
    set (new := Epci.set_predecesseurs _ _).
    assert (∀ i a,
      <[doc_id := Epci.close_with [Epci.id new]
         (Date.mk (year - 1) 12 31) "Changement de membres" current]>
        (db w ++ [new]) !! i = Some a →
      Epci.dateFin a = None →
      (db w !! i = Some a ∧ i ≠ doc_id)
      ∨ (i = length (db w) ∧ a = new)) as Hcase.
    { intros i a Hi Ha. destruct (decide (i = doc_id)) as [->|Hne].
      - rewrite list_lookup_insert_eq in Hi
          by (rewrite length_app; simpl; lia).
        by injection Hi as <-.
      - rewrite list_lookup_insert_ne in Hi by done.
        apply lookup_app_Some in Hi as [Hi|[Hge Hi]]; [by left|right].
        apply list_lookup_singleton_Some in Hi as [? <-]. split; [lia|done]. }
    intros i j a b Hi Hj Hab Ha Hb.
    destruct (Hcase i a Hi Ha) as [[Hi' Hni]|[-> ->]];
      destruct (Hcase j b Hj Hb) as [[Hj' Hnj]|[-> ->]]; try done.
    + by eapply Hone.
    + exfalso. apply Hni. eapply (Hone i doc_id); eauto.
      rewrite Hab, Hs. subst new. simpl. done.
    + exfalso. apply Hnj. eapply (Hone j doc_id); eauto.
      rewrite <- Hab, Hs. subst new. simpl. done.
  - destruct H as [_ ->].
    intros i j a b Hi Hj Hab Ha Hb.
    apply lookup_app_Some in Hi as [Hi|[Hgi Hi]];
      apply lookup_app_Some in Hj as [Hj|[Hgj Hj]].
    + by eapply Hone.
    + apply list_lookup_singleton_Some in Hj as [? <-].
      exfalso. eapply not_true_iff_false;
        [eapply (proj1 (get_None _ _) Hget), list_elem_of_lookup_2, Hi|].
      apply open_version_true. split; [|done]. by rewrite Hab.
    + apply list_lookup_singleton_Some in Hi as [? <-].
      exfalso. eapply not_true_iff_false;
        [eapply (proj1 (get_None _ _) Hget), list_elem_of_lookup_2, Hj|].
      apply open_version_true. split; [|done]. by rewrite <- Hab.
    + apply list_lookup_singleton_Some in Hi as [? _].
      apply list_lookup_singleton_Some in Hj as [? _]. lia.
Qed.

(** *** The cleanup of [load_year] *)

Lemma cleanup_missing_eq (year : Z) (sirens : gset string) (w : world) :
  cleanup_missing year sirens w =
  match Date.date (year - 1) 12 31 with
  | None => Raise ValueError w
  | Some d =>
      let r := TinyDB.update (Epci.set_dateFin d) (missing sirens) (db w) in
      Ret r.1 (with_table r.2 w)
  end.
Proof.
  unfold cleanup_missing, bind, or_raise, with_db, with_table.
  destruct (Date.date _ _ _); [|done]. unfold ret.
  by destruct (TinyDB.update _ _ _).
Qed.

Lemma cleanup_missing_Ret (year : Z) (sirens : gset string) (w w' : world) ids :
  cleanup_missing year sirens w = Ret ids w' →
  1 < year ≤ 10000
  ∧ w' = with_table
           ((λ e, if missing sirens e
                  then Epci.set_dateFin (Date.mk (year - 1) 12 31) e else e)
              <$> db w) w
  ∧ ids = (TinyDB.update (Epci.set_dateFin (Date.mk (year - 1) 12 31))
             (missing sirens) (db w)).1.
Proof.
  rewrite cleanup_missing_eq.
  destruct (Date.date _ _ _) as [d|] eqn:Hd; [|done].
  apply date_Some in Hd as [-> [Hy _]]. cbv zeta.
  destruct (update_from_spec (Epci.set_dateFin (Date.mk (year - 1) 12 31))
              (missing sirens) (db w) 0) as (Heq & _ & _).
  intros [= <- <-]. split; [lia|]. unfold TinyDB.update. by rewrite Heq.
Qed.

Lemma load_year_Ret (year : Z) (rows : list Row.t) (w w' : world)
    (r : LoadResult) :
  load_year year rows w = Ret r w' →
  ∃ sirens result w1 ids,
    load_groups year (groupby Row.siren rows) 1 ∅ (mkLoadResult 0 0 0 0) w
    = Ret (sirens, result) w1
    ∧ cleanup_missing year sirens (printed NL w1) = Ret ids w'
    ∧ r = mkLoadResult (total result) (new result) (updated result)
            (length ids).
Proof.
  unfold load_year. unfold bind at 1.
  destruct (load_groups _ _ _ _ _ _) as [[sirens result] w1|]; [|done].
  unfold bind at 1. unfold print. cbn beta iota.
  unfold bind. change (World (db w1) (stdout w1 ++ ["" +:+ NL]) (files w1))
    with (printed NL w1).
  destruct (cleanup_missing _ _ _) as [ids w2|] eqn:Hc; [|done].
  intros [= <- <-]. by eexists _, _, _, _.
Qed.

(** C2, as the code has it. For a year whose previous year
    [datetime.date] can hold, the cleanup at the end of [load_year] returns
    and changes exactly the documents that are open and whose SIREN is not
    among the SIRENs seen: each gets [dateFin] = 31 December of [year - 1]
    and keeps every other field, [raisonFin] and [successeurs] included (no
    reason is recorded). The ids returned are the ids of these documents,
    and their number is the [ended] count of [load_year], which runs the
    cleanup with the keys of all groups of the year. *)
Theorem cleanup_missing_closes_unseen :
  (∀ (year : Z) (sirens : gset string) (w : world),
     1 < year ≤ 10000 →
     ∃ ids,
       cleanup_missing year sirens w
       = Ret ids
           (with_table
              ((λ e, if missing sirens e
                     then Epci.set_dateFin (Date.mk (year - 1) 12 31) e
                     else e) <$> db w) w)
       ∧ (∀ i, i ∈ ids ↔ ∃ e, db w !! i = Some e ∧ missing sirens e = true)
       ∧ length ids = length (filter (λ e, missing sirens e = true) (db w)))
  ∧ (∀ (sirens : gset string) (e : Epci.t),
       missing sirens e = true
       ↔ (Epci.siren e ∉ sirens) ∧ Epci.dateFin e = None)
  ∧ (∀ (d : Date.t) (e : Epci.t),
       Epci.dateFin (Epci.set_dateFin d e) = Some d
       ∧ Epci.raisonFin (Epci.set_dateFin d e) = Epci.raisonFin e
       ∧ Epci.successeurs (Epci.set_dateFin d e) = Epci.successeurs e)
  ∧ (∀ (year : Z) (rows : list Row.t) (w w' : world) (r : LoadResult),
       load_year year rows w = Ret r w' →
       ∃ result w1 ids,
         load_groups year (groupby Row.siren rows) 1 ∅ (mkLoadResult 0 0 0 0) w
         = Ret (list_to_set (fst <$> groupby Row.siren rows), result) w1
         ∧ cleanup_missing year
             (list_to_set (fst <$> groupby Row.siren rows)) (printed NL w1)
           = Ret ids w'
         ∧ ended r = length ids).
Proof.
  split_and!.
  - intros year sirens w Hy. rewrite cleanup_missing_eq, date_Dec31 by lia.
    cbv zeta. unfold TinyDB.update.
    destruct (update_from_spec (Epci.set_dateFin (Date.mk (year - 1) 12 31))
                (missing sirens) (db w) 0) as (-> & Hlen & Hids).
    eexists. split_and!; [done| |done].
    intros i. rewrite Hids, Nat.sub_0_r. naive_solver lia.
  - apply missing_true.
  - done.
  - intros year rows w w' r (sirens & result & w1 & ids & Hg & Hc & ->)%load_year_Ret.
    pose proof Hg as Hg'.
    apply (load_groups_Ret (λ _, True)) in Hg' as (_ & -> & _); [|done..].
    rewrite (right_id_L ∅ (∪)) in Hg, Hc. by eexists _, _, _.
Qed.

Lemma cleanup_missing_closes_unseen_witness :
  ∃ ids,
    cleanup_missing 2002 ∅ store_2001
    = Ret ids
        (with_table
           ((λ e, if missing ∅ e
                  then Epci.set_dateFin (Date.mk (2002 - 1) 12 31) e
                  else e) <$> db store_2001) store_2001)
    ∧ (∀ i, i ∈ ids
            ↔ ∃ e, db store_2001 !! i = Some e ∧ missing ∅ e = true)
    ∧ length ids
      = length (filter (λ e, missing ∅ e = true) (db store_2001)).
Proof.
  apply (proj1 cleanup_missing_closes_unseen 2002 ∅ store_2001). lia.
Defined.

(** C2 as stated fails: year 2002 comes without [E1]; the cleanup closes the
    open version with [dateFin = 2001-12-31], counts it as ended, and leaves
    [raisonFin] absent. *)
Lemma cleanup_missing_no_reason :
  cleanup_missing 2002 ∅ store_2001 = Ret [1%nat] store_2002
  ∧ load_year 2002 [] store_2001
    = Ret (mkLoadResult 0 0 0 1) (printed NL store_2002)
  ∧ ∃ e, db store_2002 !! 1%nat = Some e
         ∧ Epci.dateFin e = Some (Date.mk 2001 12 31)
         ∧ Epci.raisonFin e = None
         ∧ Epci.raisonFin e ≠ Some "discontinued".
Proof.
  split_and!; [vm_compute; reflexivity..|].
  eexists. split_and!; [reflexivity..|done].
Qed.

(** *** One open version per key, through a year *)

Lemma cleanup_one_open (year : Z) (sirens : gset string) (w w' : world) ids :
  one_open (db w) →
  cleanup_missing year sirens w = Ret ids w' →
  one_open (db w').
Proof.
  intros Hone (_ & -> & _)%cleanup_missing_Ret. simpl.
  assert (∀ i a,
    ((λ e, if missing sirens e
           then Epci.set_dateFin (Date.mk (year - 1) 12 31) e else e)
       <$> db w) !! i = Some a →
    Epci.dateFin a = None → db w !! i = Some a) as Hcase.
  { intros i a. rewrite list_lookup_fmap.
    destruct (db w !! i) as [e|]; [|done]. simpl.
    destruct (missing sirens e); [|done]. by intros [= <-]. }
  intros i j a b Hi Hj Hab Ha Hb. eapply Hone; eauto.
Qed.

Lemma load_year_one_open (year : Z) (rows : list Row.t) (w w' : world)
    (r : LoadResult) :
  one_open (db w) →
  load_year year rows w = Ret r w' →
  one_open (db w').
Proof.
  intros Hone (sirens & result & w1 & ids & Hg & Hc & _)%load_year_Ret.
  eapply cleanup_one_open; [|done]. simpl.
  eapply (load_groups_Ret one_open); [|done..].
  intros siren g v op v' Hin Hv. apply one_open_upsert; [done|].
  intros row Hrow. eapply groupby_groups; [done|].
  by apply head_Some_elem_of.
Qed.

(** C4. In every store that completed [load_year] calls lead to from a new
    store, no two distinct documents with the same SIREN are both without
    [dateFin]: at most one open version per natural key. *)
Theorem reachable_one_open (w : world) :
  reachable w → one_open (db w).
Proof.
  induction 1 as [|w year rows r w' _ IH Hyear].
  - by intros i j a b ?.
  - by eapply load_year_one_open.
Qed.

Lemma reachable_one_open_witness :
  one_open (db (printed NL (printed NL store_2001))).
Proof.
  apply reachable_one_open.
  apply (reach_year (printed NL store_2000) 2001 rows_ab
           (mkLoadResult 1 0 1 0)); [|vm_compute; reflexivity].
  apply (reach_year Store_init 2000 rows_abc (mkLoadResult 1 1 0 0));
    [apply reach_init|vm_compute; reflexivity].
Defined.

(** C3, as the code has it. [load_year] groups with [itertools.groupby]:
    the groups are the maximal runs of consecutive rows with the same SIREN
    (they concatenate to the input, none is empty, all rows of a group have
    the group's key, neighbouring groups have different keys), and there is
    one [upsert] per group ([total] is the number of groups). When the rows
    of each SIREN are next to each other, whatever the order of the SIRENs,
    every SIREN has one group, made of all its rows. *)
Theorem groupby_runs (rows : list Row.t) :
  let groups := groupby Row.siren rows in
  concat (snd <$> groups) = rows
  ∧ (∀ k g, (k, g) ∈ groups → g ≠ [] ∧ ∀ r, r ∈ g → Row.siren r = k)
  ∧ (∀ i k1 g1 k2 g2,
       groups !! i = Some (k1, g1) → groups !! S i = Some (k2, g2) → k1 ≠ k2)
  ∧ (contiguous Row.siren rows →
       NoDup (fst <$> groups)
       ∧ ∀ k g, (k, g) ∈ groups → g = filter (λ r, Row.siren r = k) rows)
  ∧ (∀ year w r w',
       load_year year rows w = Ret r w' → total r = length groups).
Proof.
  intros groups. subst groups. split_and!.
  - apply groupby_concat.
  - apply groupby_groups.
  - apply groupby_adjacent.
  - intros Hc. pose proof (groupby_contiguous _ _ Hc) as Hnd.
    split; [done|]. intros k g. by apply groupby_filter.
  - intros year w r w' (sirens & result & w1 & ids & Hg & _ & ->)%load_year_Ret.
    by apply (load_groups_Ret (λ _, True)) in Hg as (_ & _ & ->).
Qed.

Lemma rows_two_keys_contiguous : contiguous Row.siren rows_two_keys.
Proof.
  intros l1 x l2 y l3 Heq Hxy z Hz. unfold rows_two_keys in Heq.
  destruct l1 as [|a1 [|a2 [|a3 l1]]]; simplify_eq/=;
    try (destruct l2 as [|b1 [|b2 l2]]; simplify_eq/=);
    try (by apply elem_of_nil in Hz);
    try (by destruct l2); try (by destruct l1).
Qed.

Lemma groupby_runs_witness :
  NoDup (fst <$> groupby Row.siren rows_two_keys)
  ∧ ∀ k g, (k, g) ∈ groupby Row.siren rows_two_keys →
           g = filter (λ r, Row.siren r = k) rows_two_keys.
Proof.
  apply (groupby_runs rows_two_keys), rows_two_keys_contiguous.
Defined.

(** C3 as stated fails: with the rows of [E1] apart, [E1] has two groups,
    [load_year] makes three [upsert] calls for two keys and the store gets
    two versions of [E1] for the year. *)
Lemma groupby_scattered_rows :
  groupby Row.siren rows_scattered
  = [("E1", [sample_row "E1" "1" "1"]);
     ("E2", [sample_row "E2" "1" "7"]);
     ("E1", [sample_row "E1" "1" "2"])]
  ∧ ¬ NoDup (fst <$> groupby Row.siren rows_scattered)
  ∧ ∃ w, load_year 2000 rows_scattered Store_init
         = Ret (mkLoadResult 3 2 1 0) w
         ∧ (Epci.siren <$> db w) = ["E1"; "E2"; "E1"].
Proof.
  split_and!.
  - reflexivity.
  - intros Hnd. vm_compute in Hnd.
    apply NoDup_cons in Hnd as [Hin _]. apply Hin. right. left.
  - eexists. split; vm_compute; reflexivity.
Qed.

(** *** Links between versions *)

Lemma store_inv_nil : store_inv [].
Proof.
  split.
  - constructor.
  - by intros a b ?%elem_of_nil.
  - by intros a ?%elem_of_nil.
  - by intros a l x ?%elem_of_nil.
Qed.

Lemma store_inv_insert (tb : list Epci.t) (c : Epci.t) :
  store_inv tb →
  Epci.id c ∉ (Epci.id <$> tb) →
  Epci.predecesseurs c = None → Epci.successeurs c = None →
  store_inv (tb ++ [c]).
Proof.
  intros [Hids Hsym Hopen Hres] Hfresh Hp Hs.
  assert (∀ a l, a ∈ tb →
            Epci.successeurs a = Some l ∨ Epci.predecesseurs a = Some l →
            l ≠ [Epci.id c]) as Hnot.
  { intros a l Ha Hl ->. apply Hfresh. eapply Hres; [done..|left]. }
  split.
  - rewrite fmap_app. apply NoDup_app. split_and!; [done| |apply NoDup_singleton].
    by intros x Hx ->%list_elem_of_singleton.
  - intros a b [Ha| ->%list_elem_of_singleton]%elem_of_app
      [Hb| ->%list_elem_of_singleton]%elem_of_app.
    + by apply Hsym.
    + rewrite Hp. split; [|done]. intros H.
      exfalso. exact (Hnot a _ Ha (or_introl H) eq_refl).
    + rewrite Hs. split; [done|]. intros H.
      exfalso. exact (Hnot b _ Hb (or_intror H) eq_refl).
    + by rewrite Hp, Hs.
  - intros a [Ha| ->%list_elem_of_singleton]%elem_of_app; [by apply Hopen|done].
  - intros a l x [Ha| ->%list_elem_of_singleton]%elem_of_app Hl Hx.
    + rewrite fmap_app, elem_of_app. left. by eapply Hres.
    + rewrite Hp, Hs in Hl. by destruct Hl.
Qed.

Lemma store_inv_supersede (tb : list Epci.t) (i : nat) (cur c : Epci.t)
    (d : Date.t) (r : string) :
  store_inv tb →
  tb !! i = Some cur → Epci.dateFin cur = None →
  Epci.id c ∉ (Epci.id <$> tb) →
  Epci.predecesseurs c = None → Epci.successeurs c = None →
  store_inv (<[i := Epci.close_with [Epci.id c] d r cur]>
               (tb ++ [Epci.set_predecesseurs [Epci.id cur] c])).
Proof.
  intros [Hids Hsym Hopen Hres] Hcur Hcopen Hfresh Hp Hs.
  pose proof (lookup_lt_Some _ _ _ Hcur) as Hlt.
  pose proof (list_elem_of_lookup_2 _ _ _ Hcur) as Hcurin.
  set (cur' := Epci.close_with [Epci.id c] d r cur).
  set (c' := Epci.set_predecesseurs [Epci.id cur] c).
  assert (Epci.id cur ∈ (Epci.id <$> tb)) as Hcurid.
  { apply list_elem_of_fmap. eauto. }
  assert (Epci.id cur ≠ Epci.id c) as Hne by congruence.
  assert (Epci.successeurs cur = None) as Hcs by by apply Hopen.
  assert (∀ a l, a ∈ tb →
            Epci.successeurs a = Some l ∨ Epci.predecesseurs a = Some l →
            l ≠ [Epci.id c]) as Hnot.
  { intros a l Ha Hl ->. apply Hfresh. eapply Hres; [done..|left]. }
  assert (Epci.id <$> <[i := cur']> (tb ++ [c'])
          = (Epci.id <$> tb) ++ [Epci.id c]) as Hids'.
  { rewrite list_fmap_insert, fmap_app. simpl.
    apply list_insert_id. rewrite lookup_app_l by by rewrite length_fmap.
    by rewrite list_lookup_fmap, Hcur. }
  assert (∀ a, a ∈ <[i := cur']> (tb ++ [c']) →
            a = cur' ∨ a = c' ∨ (a ∈ tb ∧ Epci.id a ≠ Epci.id cur)) as Hcase.
  { intros a (j & Hj)%list_elem_of_lookup_1.
    destruct (decide (j = i)) as [->|Hji].
    - rewrite list_lookup_insert_eq in Hj by (rewrite length_app; simpl; lia).
      left. congruence.
    - rewrite list_lookup_insert_ne in Hj by done.
      apply lookup_app_Some in Hj as [Hj|[_ Hj]].
      + right. right. split; [by eapply list_elem_of_lookup_2|].
        intros Heq. apply Hji. eapply (NoDup_lookup _ _ _ _ Hids).
        * by rewrite list_lookup_fmap, Hj.
        * by rewrite list_lookup_fmap, Hcur, Heq.
      + apply list_lookup_singleton_Some in Hj as [_ <-]. by right; left. }
  split.
  - rewrite Hids'. apply NoDup_app. split_and!; [done| |apply NoDup_singleton].
    by intros x Hx ->%list_elem_of_singleton.
  - intros a b Ha Hb.
    destruct (Hcase a Ha) as [->|[->|[Ha' Hna]]];
      destruct (Hcase b Hb) as [->|[->|[Hb' Hnb]]]; subst cur' c'; simpl.
    + split; [congruence|]. intros H. apply Hsym in H; [congruence|done..].
    + done.
    + split.
      * intros [= Heq]. exfalso. apply Hfresh. rewrite Heq.
        apply list_elem_of_fmap. eauto.
      * intros H. apply Hsym in H; [congruence|done..].
    + rewrite Hs. split; [done|]. intros H.
      exfalso. exact (Hnot cur _ Hcurin (or_intror H) eq_refl).
    + rewrite Hs. split; [done|]. congruence.
    + rewrite Hs. split; [done|]. intros H.
      exfalso. exact (Hnot b _ Hb' (or_intror H) eq_refl).
    + by apply Hsym.
    + split; [|congruence]. intros H.
      exfalso. exact (Hnot a _ Ha' (or_introl H) eq_refl).
    + by apply Hsym.
  - intros a Ha.
    destruct (Hcase a Ha) as [->|[->|[Ha' Hna]]]; subst cur' c'; simpl;
      [done|done|].
    by apply Hopen.
  - intros a l x Ha Hl Hx. rewrite Hids', elem_of_app.
    destruct (Hcase a Ha) as [->|[->|[Ha' Hna]]]; subst cur' c'; simpl in Hl.
    + destruct Hl as [[= <-]|Hl].
      * right. by apply list_elem_of_singleton in Hx as ->; left.
      * left. eapply Hres; [done|by right|done].
    + rewrite Hs in Hl. destruct Hl as [|[= <-]]; [done|].
      left. by apply list_elem_of_singleton in Hx as ->.
    + left. by eapply Hres.
Qed.

Lemma store_inv_upsert (year : Z) (siren : string) (rows : list Row.t)
    (w w' : world) (op : option Z) :
  store_inv (db w) →
  (∀ row, head rows = Some row → epci_id row year ∉ (Epci.id <$> db w)) →
  upsert year siren rows w = Ret op w' →
  store_inv (db w').
Proof.
  intros Hinv Hfresh (row & Hrow & _ & H)%upsert_Ret. cbv zeta in H.
  specialize (Hfresh row Hrow).
  destruct (TinyDB.get _ _) as [[doc_id current]|] eqn:Hget.
  - destruct (set_bool _); [|destruct H as [_ ->]; done].
    destruct H as (_ & _ & ->).
    apply get_Some in Hget as (Hcur & [_ Ho]%open_version_true & _).
    by apply store_inv_supersede.
  - destruct H as [_ ->]. by apply store_inv_insert.
Qed.

Lemma store_inv_cleanup (year : Z) (sirens : gset string) (w w' : world) ids :
  store_inv (db w) →
  cleanup_missing year sirens w = Ret ids w' →
  store_inv (db w').
Proof.
  intros [Hids Hsym Hopen Hres] (_ & -> & _)%cleanup_missing_Ret. simpl.
  set (f := λ e : Epci.t, if missing sirens e
              then Epci.set_dateFin (Date.mk (year - 1) 12 31) e else e).
  assert (∀ e, Epci.id (f e) = Epci.id e
               ∧ Epci.predecesseurs (f e) = Epci.predecesseurs e
               ∧ Epci.successeurs (f e) = Epci.successeurs e
               ∧ (Epci.dateFin (f e) = None → Epci.dateFin e = None)) as Hf.
  { intros e. unfold f. by destruct (missing sirens e). }
  assert (Epci.id <$> (f <$> db w) = Epci.id <$> db w) as Hids'.
  { rewrite <- list_fmap_compose. apply list_fmap_ext. intros ? e _. apply Hf. }
  split.
  - by rewrite Hids'.
  - intros a b (a0 & -> & Ha)%list_elem_of_fmap (b0 & -> & Hb)%list_elem_of_fmap.
    destruct (Hf a0) as (Ha1 & _ & Ha3 & _), (Hf b0) as (Hb1 & Hb2 & _ & _).
    rewrite Ha1, Ha3, Hb1, Hb2. by apply Hsym.
  - intros a (a0 & -> & Ha)%list_elem_of_fmap Hopen'.
    destruct (Hf a0) as (_ & _ & Ha3 & Hd). rewrite Ha3. by apply Hopen, Hd.
  - intros a l x (a0 & -> & Ha)%list_elem_of_fmap.
    destruct (Hf a0) as (_ & Ha2 & Ha3 & _).
    rewrite Ha2, Ha3, Hids'. by apply Hres.
Qed.

Lemma closed_frozen_upsert (year : Z) (siren : string) (rows : list Row.t)
    (w w' : world) (op : option Z) (i : nat) (e : Epci.t) :
  db w !! i = Some e → Epci.dateFin e ≠ None →
  upsert year siren rows w = Ret op w' →
  db w' !! i = Some e.
Proof.
  intros Hi Hclosed (row & _ & _ & H)%upsert_Ret. cbv zeta in H.
  destruct (TinyDB.get _ _) as [[doc_id current]|] eqn:Hget.
  - destruct (set_bool _); [|destruct H as [_ ->]; done].
    destruct H as (_ & _ & ->).
    apply get_Some in Hget as (Hcur & [_ Ho]%open_version_true & _).
    rewrite list_lookup_insert_ne by (intros ->; congruence).
    by apply lookup_app_l_Some.
  - destruct H as [_ ->]. by apply lookup_app_l_Some.
Qed.

Lemma closed_frozen_cleanup (year : Z) (sirens : gset string) (w w' : world)
    ids (i : nat) (e : Epci.t) :
  db w !! i = Some e → Epci.dateFin e ≠ None →
  cleanup_missing year sirens w = Ret ids w' →
  db w' !! i = Some e.
Proof.
  intros Hi Hclosed (_ & -> & _)%cleanup_missing_Ret. simpl.
  rewrite list_lookup_fmap, Hi. simpl.
  destruct (missing sirens e) eqn:Hm; [|done].
  by apply missing_true in Hm as [_ ?].
Qed.

(** *** Ids of versions *)

Lemma ascii_list_app (s t : string) :
  ascii_list (s +:+ t) = ascii_list s ++ ascii_list t.
Proof. induction s as [|c s IH]; [done|]. simpl. by rewrite <- IH. Qed.

Lemma ascii_list_inj (s t : string) : ascii_list s = ascii_list t → s = t.
Proof.
  intros H. rewrite <- (String.string_of_list_ascii_of_string s),
    <- (String.string_of_list_ascii_of_string t).
  unfold ascii_list in H. by rewrite H.
Qed.

Lemma split_at_unique {A} (c : A) (s1 s2 u1 u2 : list A) :
  c ∉ u1 → c ∉ u2 → s1 ++ c :: u1 = s2 ++ c :: u2 → s1 = s2 ∧ u1 = u2.
Proof.
  intros H1 H2. revert s2. induction s1 as [|a s1 IH]; intros [|b s2] Heq.
  - by injection Heq.
  - injection Heq as <- ->. exfalso. apply H1. set_solver.
  - injection Heq as -> <-. exfalso. apply H2. set_solver.
  - injection Heq as -> Heq. by destruct (IH _ Heq) as [-> ->].
Qed.

Lemma pretty_year_digits (y : Z) :
  1 ≤ y ≤ 9999 → forallb is_digit (ascii_list (pretty y)) = true.
Proof.
  intros Hy.
  assert (Forall (λ y, forallb is_digit (ascii_list (pretty y)) = true)
            (seqZ 1 9999)) as Hall.
  { apply (bool_decide_unpack _). vm_compute. exact I. }
  eapply Forall_forall in Hall; [done|]. apply elem_of_seqZ. lia.
Qed.

Lemma epci_id_inj (s1 s2 : string) (y1 y2 : Z) :
  1 ≤ y1 ≤ 9999 → 1 ≤ y2 ≤ 9999 →
  s1 +:+ "@" +:+ pretty y1 +:+ "-01-01" = s2 +:+ "@" +:+ pretty y2 +:+ "-01-01" →
  s1 = s2 ∧ y1 = y2.
Proof.
  intros Hy1 Hy2 Heq. apply (f_equal ascii_list) in Heq.
  rewrite !ascii_list_app in Heq.
  change (ascii_list "@") with ["@"%char] in Heq. simpl in Heq.
  assert (∀ y, 1 ≤ y ≤ 9999 →
            "@"%char ∉ ascii_list (pretty y) ++ ascii_list "-01-01") as Hat.
  { intros y Hy [Hin|Hin]%elem_of_app.
    - pose proof (pretty_year_digits y Hy) as Hd.
      rewrite forallb_forall in Hd. apply list_elem_of_In, Hd in Hin.
      discriminate Hin.
    - vm_compute in Hin. set_solver. }
  apply split_at_unique in Heq as [H1 H2]; [|by apply Hat..].
  split; [by apply ascii_list_inj|].
  apply app_inv_tail, ascii_list_inj in H2. by apply (inj pretty).
Qed.

(** *** Chronological runs *)

(** Every document after [upsert] has the id, SIREN and start of a document
    before it, or those of the candidate. *)
Lemma upsert_elements (year : Z) (siren : string) (rows : list Row.t)
    (w w' : world) (op : option Z) (e' : Epci.t) :
  upsert year siren rows w = Ret op w' →
  e' ∈ db w' →
  (∃ e, e ∈ db w ∧ Epci.id e' = Epci.id e ∧ Epci.siren e' = Epci.siren e
        ∧ Epci.dateDebut e' = Epci.dateDebut e)
  ∨ (∃ row, head rows = Some row ∧ 1 ≤ year ≤ 9999
            ∧ Epci.id e' = epci_id row year
            ∧ Epci.siren e' = Row.siren row
            ∧ Epci.dateDebut e' = Date.mk year 1 1).
Proof.
  intros (row & Hrow & Hy & H)%upsert_Ret He'. cbv zeta in H.
  destruct (TinyDB.get _ _) as [[doc_id current]|] eqn:Hget.
  - destruct (set_bool _); [|destruct H as [_ Hdb]; rewrite Hdb in He'; left;
                             by exists e'].
    destruct H as (_ & _ & Hdb). rewrite Hdb in He'.
    apply get_Some in Hget as (Hcur & _ & _).
    apply list_elem_of_lookup_1 in He' as [j Hj].
    destruct (decide (j = doc_id)) as [->|Hne].
    + rewrite list_lookup_insert_eq in Hj.
      * injection Hj as <-. left. exists current.
        split; [by eapply list_elem_of_lookup_2|done].
      * rewrite length_app. apply lookup_lt_Some in Hcur. simpl. lia.
    + rewrite list_lookup_insert_ne in Hj by done.
      apply lookup_app_Some in Hj as [Hj|[_ Hj]].
      * left. exists e'. split; [by eapply list_elem_of_lookup_2|done].
      * apply list_lookup_singleton_Some in Hj as [_ <-].
        right. by exists row.
  - destruct H as [_ Hdb]. rewrite Hdb in He'.
    apply elem_of_app in He' as [He'| ->%list_elem_of_singleton].
    + left. by exists e'.
    + right. by exists row.
Qed.

Lemma upsert_fresh_id (year : Z) (sirens : gset string) (tb : list Epci.t)
    (row : Row.t) :
  ids_well_formed tb → started_by year sirens tb →
  1 ≤ year ≤ 9999 → Row.siren row ∉ sirens →
  epci_id row year ∉ (Epci.id <$> tb).
Proof.
  intros Hwf Hst Hy Hk (e & Hid & He)%list_elem_of_fmap.
  destruct (Hwf e He) as [Hide Hye]. unfold epci_id in Hid.
  rewrite Hide in Hid. apply epci_id_inj in Hid as [Hs Hyy]; [|done..].
  destruct (Hst e He) as [?|[_ Hin]]; [lia|]. apply Hk. by rewrite Hs.
Qed.

Lemma run_inv_upsert (year : Z) (sirens : gset string) (siren : string)
    (rows : list Row.t) (w w' : world) (op : option Z) :
  run_inv year sirens (db w) →
  siren ∉ sirens →
  (∀ row, head rows = Some row → Row.siren row = siren) →
  upsert year siren rows w = Ret op w' →
  run_inv year ({[siren]} ∪ sirens) (db w').
Proof.
  intros (Hinv & Hwf & Hst) Hk Hkey Hup.
  pose proof Hup as (row & Hrow & Hy & _)%upsert_Ret.
  split_and!.
  - eapply store_inv_upsert; [done| |done].
    intros row' Hrow'. eapply upsert_fresh_id; [done..|].
    by rewrite (Hkey row' Hrow').
  - intros e' He'.
    destruct (upsert_elements _ _ _ _ _ _ _ Hup He')
      as [(e & He & -> & -> & ->)|(row' & Hrow' & _ & -> & -> & ->)].
    + by apply Hwf.
    + done.
  - intros e' He'.
    destruct (upsert_elements _ _ _ _ _ _ _ Hup He')
      as [(e & He & _ & -> & ->)|(row' & Hrow' & _ & _ & -> & ->)].
    + destruct (Hst e He) as [?|[? ?]]; [by left|right].
      split; [done|set_solver].
    + right. split; [done|]. rewrite (Hkey row' Hrow'). set_solver.
Qed.

Lemma run_inv_load_groups (year : Z) groups (idx : nat)
    (sirens sirens' : gset string) (result result' : LoadResult)
    (w w' : world) :
  NoDup (fst <$> groups) →
  (∀ k, k ∈ (fst <$> groups) → k ∉ sirens) →
  (∀ k g row, (k, g) ∈ groups → head g = Some row → Row.siren row = k) →
  run_inv year sirens (db w) →
  load_groups year groups idx sirens result w = Ret (sirens', result') w' →
  run_inv year sirens' (db w').
Proof.
  revert idx sirens result w.
  induction groups as [|[siren rows] groups IH];
    intros idx sirens result w Hnd Hnew Hkey Hinv.
  - by intros [= <- <- <-].
  - destruct (load_groups_cons year siren rows groups idx sirens result w)
      as (w0 & Hdb & _ & ->).
    destruct (upsert year siren rows w0) as [op w1|] eqn:Hup; [|done].
    rewrite fmap_cons in Hnd. apply NoDup_cons in Hnd as [Hk Hnd].
    apply IH; [done| | |].
    + intros k Hin. rewrite not_elem_of_union, not_elem_of_singleton.
      split; [by intros ->|]. apply Hnew. rewrite fmap_cons. by right.
    + intros k g row Hin. apply Hkey. by right.
    + eapply run_inv_upsert; [by rewrite Hdb| | |done].
      * apply Hnew. rewrite fmap_cons. left.
      * intros row. apply Hkey. left.
Qed.

Lemma run_inv_load_year (y year : Z) (rows : list Row.t) (w w' : world)
    (r : LoadResult) :
  run_inv (y + 1) ∅ (db w) → y < year →
  contiguous Row.siren rows →
  load_year year rows w = Ret r w' →
  run_inv (year + 1) ∅ (db w').
Proof.
  intros (Hinv & Hwf & Hst) Hlt Hc
    (sirens & result & w1 & ids & Hg & Hcl & _)%load_year_Ret.
  apply run_inv_load_groups in Hg as (Hinv1 & Hwf1 & Hst1).
  - pose proof Hcl as (_ & Hw' & _)%cleanup_missing_Ret.
    split_and!.
    + eapply store_inv_cleanup; [|exact Hcl]. exact Hinv1.
    + rewrite Hw'. simpl.
      intros e' (e & -> & He)%list_elem_of_fmap.
      destruct (Hwf1 e He) as [Hid Hy].
      destruct (missing sirens e); [simpl|]; by split.
    + rewrite Hw'. simpl.
      intros e' (e & -> & He)%list_elem_of_fmap. left.
      assert (Date.year (Epci.dateDebut e) ≤ year) as Hle.
      { destruct (Hst1 e He) as [?|[? _]]; lia. }
      destruct (missing sirens e); simpl; lia.
  - by apply groupby_contiguous.
  - intros k _. set_solver.
  - intros k g row Hin Hrow. eapply groupby_groups; [done|].
    by apply head_Some_elem_of.
  - split_and!; [done..|].
    intros e He. left. destruct (Hst e He) as [?|[_ ?]]; [lia|set_solver].
Qed.

Lemma chronological_store_inv (y : Z) (w : world) :
  chronological y w → store_inv (db w) ∧ ids_well_formed (db w).
Proof.
  intros Hrun.
  assert (run_inv (y + 1) ∅ (db w)) as (Hinv & Hwf & _); [|done].
  induction Hrun as [y|y w year rows r w' _ IH Hlt Hc Hyear].
  - split_and!; [apply store_inv_nil|by intros e ?%elem_of_nil..].
  - by eapply run_inv_load_year.
Qed.

(** C5, as the code has it. [store_inv] (ids are unique, links are
    symmetric, open versions have no successors, links name versions of the
    store) holds of a new store; [upsert] preserves it when the id of the
    candidate is not yet the id of a version of the store, and the cleanup of
    [load_year] preserves it; so links stay symmetric. This is the case all
    along a run that loads years in ascending order from files in which the
    rows of a SIREN are next to each other. A version with a [dateFin] is
    never changed again by [upsert] or by the cleanup: one the cleanup closed
    keeps [successeurs] absent. *)
Theorem links_symmetric_preserved :
  store_inv (db Store_init)
  ∧ (∀ (year : Z) (siren : string) (rows : list Row.t) (w w' : world)
       (op : option Z),
       store_inv (db w) →
       (∀ row, head rows = Some row →
          epci_id row year ∉ (Epci.id <$> db w)) →
       upsert year siren rows w = Ret op w' →
       store_inv (db w') ∧ links_symmetric (db w'))
  ∧ (∀ (year : Z) (sirens : gset string) (w w' : world) (ids : list nat),
       store_inv (db w) →
       cleanup_missing year sirens w = Ret ids w' →
       store_inv (db w') ∧ links_symmetric (db w'))
  ∧ (∀ (y : Z) (w : world),
       chronological y w → store_inv (db w) ∧ links_symmetric (db w))
  ∧ (∀ (year : Z) (siren : string) (rows : list Row.t) (w w' : world)
       (op : option Z) (i : nat) (e : Epci.t),
       db w !! i = Some e → Epci.dateFin e ≠ None →
       upsert year siren rows w = Ret op w' →
       db w' !! i = Some e)
  ∧ (∀ (year : Z) (sirens : gset string) (w w' : world) (ids : list nat)
       (i : nat) (e : Epci.t),
       db w !! i = Some e → Epci.dateFin e ≠ None →
       cleanup_missing year sirens w = Ret ids w' →
       db w' !! i = Some e).
Proof.
  split_and!.
  - apply store_inv_nil.
  - intros year siren rows w w' op Hinv Hfresh Hup.
    assert (store_inv (db w')) as Hinv' by by eapply store_inv_upsert.
    split; [done|apply Hinv'].
  - intros year sirens w w' ids Hinv Hc.
    assert (store_inv (db w')) as Hinv' by by eapply store_inv_cleanup.
    split; [done|apply Hinv'].
  - intros y w [Hinv _]%chronological_store_inv. split; [done|apply Hinv].
  - intros. by eapply closed_frozen_upsert.
  - intros. by eapply closed_frozen_cleanup.
Qed.

Lemma links_symmetric_preserved_witness :
  (store_inv (db store_2001) ∧ links_symmetric (db store_2001))
  ∧ (store_inv (db (printed NL (printed NL store_2001)))
     ∧ links_symmetric (db (printed NL (printed NL store_2001)))).
Proof.
  split.
  - apply (proj1 (proj2 links_symmetric_preserved)
             2001 "E1" rows_ab store_2000 store_2001 (Some UPDATED)).
    + apply (store_inv_insert []); [apply store_inv_nil| |done..].
      by intros ?%elem_of_nil.
    + intros row [= <-]. by intros ?%list_elem_of_singleton.
    + vm_compute. reflexivity.
  - apply (proj1 (proj2 (proj2 (proj2 links_symmetric_preserved))) 2001).
    apply (chrono_year 2000 (printed NL store_2000) 2001 rows_ab
             (mkLoadResult 1 0 1 0)); [|lia| |vm_compute; reflexivity].
    + apply (chrono_year 1999 Store_init 2000 rows_abc
               (mkLoadResult 1 1 0 0));
        [apply chrono_init|lia| |vm_compute; reflexivity].
      intros l1 x l2 z l3 Heq Hxz m Hm. unfold rows_abc in Heq.
      destruct l1 as [|a1 [|a2 [|a3 l1]]]; simplify_eq/=;
        try (destruct l2 as [|b1 [|b2 l2]]; simplify_eq/=);
        try (by apply elem_of_nil in Hm);
        try (by apply list_elem_of_singleton in Hm as ->);
        try (by destruct l2); try (by destruct l1).
    + intros l1 x l2 z l3 Heq Hxz m Hm. unfold rows_ab in Heq.
      destruct l1 as [|a1 [|a2 l1]]; simplify_eq/=;
        try (destruct l2 as [|b1 l2]; simplify_eq/=);
        try (by apply elem_of_nil in Hm);
        try (by destruct l2); try (by destruct l1).
Defined.

(** C5 as stated fails: a key upserted twice in one year with different
    members gives both versions the id [E1@2000-01-01]; the first then names
    its own id as successor and has no predecessor, so the links of the
    store are not symmetric. *)
Lemma links_asymmetric_same_year :
  load_year 2000 rows_scattered Store_init
  = Ret (mkLoadResult 3 2 1 0) store_scattered
  ∧ store_inv (db Store_init)
  ∧ ¬ links_symmetric (db store_scattered)
  ∧ ∃ a, db store_scattered !! 0%nat = Some a
         ∧ Epci.successeurs a = Some [Epci.id a]
         ∧ Epci.predecesseurs a = None.
Proof.
  split_and!.
  - vm_compute. reflexivity.
  - apply store_inv_nil.
  - intros Hsym.
    set (a := Epci.close_with ["E1@2000-01-01"] (Date.mk 1999 12 31)
                "Changement de membres"
                (candidate 2000 (sample_row "E1" "1" "1")
                   [sample_row "E1" "1" "1"])).
    assert (a ∈ db store_scattered) as Ha by left.
    discriminate (proj1 (Hsym a a Ha Ha) eq_refl).
  - eexists. split_and!; reflexivity.
Qed.

(** *** Export *)

Lemma pad4_digits (y : Z) : 1 ≤ y ≤ 9999 → digits_only 4 (Date.pad 4 y) = true.
Proof.
  intros Hy.
  assert (Forall (λ y, digits_only 4 (Date.pad 4 y) = true) (seqZ 1 9999))
    as Hall.
  { apply (bool_decide_unpack _). vm_compute. exact I. }
  eapply Forall_forall in Hall; [done|]. apply elem_of_seqZ. lia.
Qed.

Lemma pad2_digits (n : Z) : 1 ≤ n ≤ 31 → digits_only 2 (Date.pad 2 n) = true.
Proof.
  intros Hy.
  assert (Forall (λ y, digits_only 2 (Date.pad 2 y) = true) (seqZ 1 31))
    as Hall.
  { apply (bool_decide_unpack _). vm_compute. exact I. }
  eapply Forall_forall in Hall; [done|]. apply elem_of_seqZ. lia.
Qed.

Lemma isoformat_iso (d : Date.t) :
  Date.valid d = true → is_iso_date (Date.isoformat d) = true.
Proof.
  intros Hv.
  assert (Date.date (Date.year d) (Date.month d) (Date.day d) = Some d)
    as Hd.
  { unfold Date.date. destruct d. simpl in *. by rewrite Hv. }
  apply date_Some in Hd as (_ & Hy & Hm & Hday).
  pose proof (pad4_digits _ Hy) as H4.
  pose proof (pad2_digits (Date.month d) ltac:(lia)) as Hm2.
  pose proof (pad2_digits _ Hday) as Hd2.
  unfold Date.isoformat.
  destruct (Date.pad 4 (Date.year d)) as [|y1 [|y2 [|y3 [|y4 [|? ?]]]]];
    try discriminate H4.
  destruct (Date.pad 2 (Date.month d)) as [|m1 [|m2 [|? ?]]];
    try discriminate Hm2.
  destruct (Date.pad 2 (Date.day d)) as [|d1 [|d2 [|? ?]]];
    try discriminate Hd2.
  unfold digits_only in H4, Hm2, Hd2.
  cbn [ascii_list String.list_ascii_of_string forallb] in H4, Hm2, Hd2.
  repeat match goal with
         | H : _ && _ = true |- _ => apply andb_prop in H as [? ?]
         end.
  unfold is_iso_date. simpl.
  repeat match goal with H : is_digit _ = true |- _ => rewrite H; clear H end.
  done.
Qed.

Lemma iterencode_strs (default : pyval → option json) (l : list string) :
  mapM (iterencode default) (PStr <$> l) = Some (JString <$> l).
Proof. apply mapM_Some_2. induction l; by constructor. Qed.

Lemma encode_document (set_iter : gset string → list string) (e : Epci.t) :
  encode set_iter (document e) = Some (export_doc set_iter e).
Proof.
  unfold encode, document, export_doc, optional_key.
  destruct e as [id dd si no na fi po me pr su df ra].
  cbn [Epci.id Epci.dateDebut Epci.siren Epci.nom Epci.nature Epci.fiscalite
       Epci.population Epci.membres Epci.predecesseurs Epci.successeurs
       Epci.dateFin Epci.raisonFin].
  destruct pr as [pr|], su as [su|], df as [df|], ra as [ra|];
    simpl; rewrite ?iterencode_strs; reflexivity.
Qed.

Lemma encode_table (set_iter : gset string → list string) (tb : list Epci.t) :
  encode set_iter (PList (document <$> tb))
  = Some (JArray (export_doc set_iter <$> tb)).
Proof.
  unfold encode. cbn [iterencode].
  assert (mapM (iterencode (λ obj, JSONEncoder_default set_iter obj
                                     ≫= iterencode (λ _, None)))
            (document <$> tb) = Some (export_doc set_iter <$> tb)) as ->; [|done].
  apply mapM_Some_2. induction tb as [|e tb IH]; constructor; [|done].
  apply encode_document.
Qed.

Lemma dump_to_eq (set_iter : gset string → list string) (filename : string)
    (w : world) :
  dump_to set_iter filename w
  = Ret () (World (db w) (stdout w)
              (<[filename := JArray (export_doc set_iter <$> db w)]> (files w))).
Proof.
  unfold dump_to, bind, read_db, TinyDB.all. by rewrite encode_table.
Qed.

Ltac json_get_keys :=
  cbn;
  repeat first [rewrite decide_True by reflexivity
               |rewrite decide_False by discriminate];
  reflexivity.

(** C8. [dump_to] returns, writes the document [out] and leaves the store
    and the console as they are; exporting again, to the same file or to
    another, writes the same document. [out] is the list of the records of
    the table in insertion order; in each record [membres] is a list holding
    every member once, in the order the interpreter iterates over the set
    (the same at every export), and [dateDebut] and [dateFin] are
    [YYYY-MM-DD] strings. *)
Theorem dump_to_stable (set_iter : gset string → list string)
    (filename : string) (w : world) :
  (∀ X, set_iter X ≡ₚ elements X) →
  (∀ e, e ∈ db w → dates_valid e) →
  ∃ out w1,
    dump_to set_iter filename w = Ret () w1
    ∧ db w1 = db w
    ∧ files w1 !! filename = Some out
    ∧ dump_to set_iter filename w1 = Ret () w1
    ∧ (∀ other, ∃ w2, dump_to set_iter other w1 = Ret () w2
                      ∧ files w2 !! other = Some out)
    ∧ out = JArray (export_doc set_iter <$> db w)
    ∧ ∀ i e, db w !! i = Some e →
        ∃ record,
          (export_doc set_iter <$> db w) !! i = Some record
          ∧ json_get "id" record = Some (JString (Epci.id e))
          ∧ json_get "membres" record
            = Some (JArray (JString <$> set_iter (Epci.membres e)))
          ∧ NoDup (set_iter (Epci.membres e))
          ∧ (∀ x, x ∈ set_iter (Epci.membres e) ↔ x ∈ Epci.membres e)
          ∧ json_get "dateDebut" record
            = Some (JString (Date.isoformat (Epci.dateDebut e)))
          ∧ is_iso_date (Date.isoformat (Epci.dateDebut e)) = true
          ∧ json_get "dateFin" record
            = (λ d, JString (Date.isoformat d)) <$> Epci.dateFin e
          ∧ (∀ d, Epci.dateFin e = Some d →
               is_iso_date (Date.isoformat d) = true).
Proof.
  intros Hiter Hdates. rewrite dump_to_eq. eexists _, _. split_and!.
  - done.
  - done.
  - simpl. apply lookup_insert_eq.
  - rewrite dump_to_eq. simpl. by rewrite insert_insert_eq.
  - intros other. rewrite dump_to_eq. eexists. split; [done|].
    simpl. apply lookup_insert_eq.
  - done.
  - intros i e Hi. exists (export_doc set_iter e).
    destruct (Hdates e) as [Hd1 Hd2]; [by eapply list_elem_of_lookup_2|].
    split_and!.
    + by rewrite list_lookup_fmap, Hi.
    + json_get_keys.
    + json_get_keys.
    + rewrite Hiter. apply NoDup_elements.
    + intros x. by rewrite Hiter, elem_of_elements.
    + json_get_keys.
    + by apply isoformat_iso.
    + destruct e as [id dd si no na fi po me pr su df ra].
      destruct pr, su, df, ra; json_get_keys.
    + intros d Hd. by apply isoformat_iso, Hd2.
Qed.

Lemma dump_to_stable_witness :
  ∃ out w1,
    dump_to elements "historique-epcis.json" store_2002 = Ret () w1
    ∧ files w1 !! "historique-epcis.json" = Some out
    ∧ dump_to elements "historique-epcis.json" w1 = Ret () w1.
Proof.
  destruct (dump_to_stable elements "historique-epcis.json" store_2002)
    as (out & w1 & H1 & _ & H2 & H3 & _).
  - intros X. reflexivity.
  - intros e He. unfold store_2002, db in He.
    apply elem_of_cons in He as [->|He].
    { split; [reflexivity|]. intros d [= <-]. reflexivity. }
    apply list_elem_of_singleton in He as ->.
    split; [reflexivity|]. intros d [= <-]. reflexivity.
  - exists out, w1. split_and!; assumption.
Defined.

(** *** The log only grows *)

Lemma same_version_refl (e : Epci.t) : same_version e e.
Proof. by repeat split. Qed.

Lemma extends_refl (tb : list Epci.t) : extends tb tb.
Proof. intros i e Hi. exists e. split; [done|apply same_version_refl]. Qed.

Lemma extends_trans (tb1 tb2 tb3 : list Epci.t) :
  extends tb1 tb2 → extends tb2 tb3 → extends tb1 tb3.
Proof.
  intros H12 H23 i e Hi.
  destruct (H12 i e Hi) as (e2 & Hi2 & Hs2).
  destruct (H23 i e2 Hi2) as (e3 & Hi3 & Hs3).
  exists e3. split; [done|]. unfold same_version in *. naive_solver congruence.
Qed.

Lemma extends_upsert (year : Z) (siren : string) (rows : list Row.t)
    (w w' : world) (op : option Z) :
  upsert year siren rows w = Ret op w' → extends (db w) (db w').
Proof.
  intros (row & _ & _ & H)%upsert_Ret. cbv zeta in H.
  destruct (TinyDB.get _ _) as [[doc_id current]|] eqn:Hget.
  - destruct (set_bool _); [|destruct H as [_ ->]; apply extends_refl].
    destruct H as (_ & _ & ->).
    apply get_Some in Hget as (Hcur & _ & _).
    intros i e Hi. destruct (decide (i = doc_id)) as [->|Hne].
    + eexists. rewrite list_lookup_insert_eq.
      * split; [done|]. assert (e = current) as -> by congruence.
        by repeat split.
      * rewrite length_app. apply lookup_lt_Some in Hcur. simpl. lia.
    + exists e. rewrite list_lookup_insert_ne by done.
      split; [by apply lookup_app_l_Some|apply same_version_refl].
  - destruct H as [_ ->]. intros i e Hi. exists e.
    split; [by apply lookup_app_l_Some|apply same_version_refl].
Qed.

Lemma extends_cleanup (year : Z) (sirens : gset string) (w w' : world) ids :
  cleanup_missing year sirens w = Ret ids w' → extends (db w) (db w').
Proof.
  intros (_ & -> & _)%cleanup_missing_Ret. simpl. intros i e Hi.
  eexists. rewrite list_lookup_fmap, Hi. split; [done|].
  destruct (missing sirens e); by repeat split.
Qed.

(** No version is ever removed, moved or rewritten: through a year, every
    version stays at its place in the table with its id, start date, SIREN,
    attributes, members and predecessors; only [successeurs], [dateFin] and
    [raisonFin] can be written. *)
Theorem load_year_extends (year : Z) (rows : list Row.t) (w w' : world)
    (r : LoadResult) :
  load_year year rows w = Ret r w' →
  extends (db w) (db w') ∧ (length (db w) ≤ length (db w'))%nat.
Proof.
  intros (sirens & result & w1 & ids & Hg & Hc & _)%load_year_Ret.
  assert (extends (db w) (db w')) as Hext.
  { eapply extends_trans; [|by eapply extends_cleanup]. simpl.
    eapply (load_groups_Ret (extends (db w))); [|apply extends_refl|done].
    intros siren g v op v' _ Hv Hup.
    eapply extends_trans; [done|by eapply extends_upsert]. }
  split; [done|].
  destruct (decide (length (db w) = 0%nat)) as [->|Hne]; [lia|].
  destruct (lookup_lt_is_Some_2 (db w) (length (db w) - 1)) as [e He]; [lia|].
  destruct (Hext _ _ He) as (e' & He' & _).
  apply lookup_lt_Some in He'. lia.
Qed.

Lemma load_year_extends_witness :
  extends (db store_2001) (db (printed NL store_2002))
  ∧ (length (db store_2001) ≤ length (db (printed NL store_2002)))%nat.
Proof.
  apply (load_year_extends 2002 [] store_2001 (printed NL store_2002)
           (mkLoadResult 0 0 0 1)).
  vm_compute. reflexivity.
Defined.

(** The scenario of three years: 2000 brings [E1] with three members, 2001
    brings it with two, 2002 comes without it. *)
Example three_years :
  load_year 2000 rows_abc Store_init
  = Ret (mkLoadResult 1 1 0 0) (printed NL store_2000)
  ∧ load_year 2001 rows_ab (printed NL store_2000)
    = Ret (mkLoadResult 1 0 1 0) (printed NL (printed NL store_2001))
  ∧ load_year 2002 [] (printed NL (printed NL store_2001))
    = Ret (mkLoadResult 0 0 0 1)
        (printed NL (printed NL (printed NL store_2002))).
Proof. split_and!; vm_compute; reflexivity. Qed.

(** ** Failures of [upsert] and [load_year] *)

Lemma extract_epci_Raise (year : Z) (rows : list Row.t) (w w' : world) (e : exn) :
  extract_epci year rows w = Raise e w' →
  w' = w
  ∧ (e = IndexError ∧ rows = []
     ∨ e = ValueError ∧ rows ≠ []
       ∧ (¬ (1 ≤ year ≤ 9999)
          ∨ ∃ row, head rows = Some row ∧ int (Row.nb_com row) = None)).
Proof.
  rewrite extract_epci_eq. destruct rows as [|row rows]; simpl.
  { intros [= <- <-]. split; [done|by left]. }
  destruct (Date.date year 1 1) as [d|] eqn:Hd.
  - destruct (int (Row.nb_com row)) eqn:Hn.
    + by case_bool_decide.
    + intros [= <- <-]. split; [done|right]. split_and!; [done..|].
      right. by exists row.
  - intros [= <- <-]. split; [done|right]. split_and!; [done..|].
    left. intros Hy. by rewrite date_Jan1 in Hd.
Qed.

Lemma upsert_Raise (year : Z) (siren : string) (rows : list Row.t)
    (w w' : world) (e : exn) :
  upsert year siren rows w = Raise e w' →
  (e = IndexError ∧ rows = [] ∨ e = ValueError ∧ rows ≠ [])
  ∧ (year ≠ 1 → w' = w).
Proof.
  rewrite upsert_eq.
  destruct (extract_epci year rows w) as [epci w1|e1 w1] eqn:He.
  - apply extract_epci_Ret in He as (row & n & Hrow & Hy & _ & _ & _).
    assert (rows ≠ []) by by destruct rows.
    destruct (TinyDB.get _ _) as [[doc_id current]|]; [|done].
    destruct (set_bool _); [|done]. cbv zeta.
    destruct (Date.date (year - 1) 12 31) as [d|] eqn:Hd; [done|].
    intros [= <- <-]. split; [by right|].
    intros Hne. rewrite date_Dec31 in Hd by lia. done.
  - apply extract_epci_Raise in He as [-> H]. intros [= <- <-].
    split; [|done]. destruct H as [[-> ->]|(-> & Hne & _)]; [by left|by right].
Qed.

Lemma upsert_files (year : Z) (siren : string) (rows : list Row.t)
    (w : world) :
  files (world_of (upsert year siren rows w)) = files w.
Proof.
  rewrite upsert_eq.
  destruct (extract_epci year rows w) as [epci w1|e1 w1] eqn:He.
  - apply extract_epci_db in He as [_ Hf].
    destruct (TinyDB.get _ _) as [[doc_id current]|]; [|done].
    destruct (set_bool _); [|done]. cbv zeta.
    by destruct (Date.date (year - 1) 12 31).
  - by apply extract_epci_Raise in He as [-> _].
Qed.



Lemma upsert_returns (year : Z) (siren : string) (rows : list Row.t)
    (w : world) :
  1 < year ≤ 9999 → group_ok rows →
  ∃ op w', upsert year siren rows w = Ret op w'.
Proof.
  intros Hy (row & Hrow & n & Hn).
  rewrite upsert_eq, extract_epci_eq, Hrow, Hn, date_Jan1 by lia.
  assert (∀ e v, ∃ op w',
    match TinyDB.get (open_version siren) (db w) with
    | None => Ret (Some INSERTED) (with_table (db w ++ [e]) v)
    | Some (doc_id, current) =>
        if set_bool (sym_diff (Epci.membres current) (Epci.membres e))
        then
          let tb := db w ++ [Epci.set_predecesseurs [Epci.id current] e] in
          match Date.date (year - 1) 12 31 with
          | None => Raise ValueError (with_table tb v)
          | Some dateFin =>
              Ret (Some UPDATED)
                (with_table
                   (alter (Epci.close_with [Epci.id e] dateFin
                             "Changement de membres") doc_id tb) v)
          end
        else Ret None v
    end = Ret op w') as H.
  { intros e v. destruct (TinyDB.get _ _) as [[doc_id current]|]; [|eauto].
    destruct (set_bool _); [|eauto]. cbv zeta.
    rewrite date_Dec31 by lia. eauto. }
  case_bool_decide; apply H.
Qed.

Lemma upsert_Ret_group_ok (year : Z) (siren : string) (rows : list Row.t)
    (w w' : world) (op : option Z) :
  upsert year siren rows w = Ret op w' → 1 ≤ year ≤ 9999 ∧ group_ok rows.
Proof.
  rewrite upsert_eq.
  destruct (extract_epci year rows w) as [epci w1|] eqn:He; [|done].
  apply extract_epci_Ret in He as (row & n & Hrow & Hy & Hn & _ & _).
  intros _. split; [done|]. exists row. by rewrite Hn.
Qed.

Lemma load_groups_returns (year : Z) groups (idx : nat)
    (sirens : gset string) (result : LoadResult) (w : world) :
  1 < year ≤ 9999 →
  (∀ k g, (k, g) ∈ groups → group_ok g) →
  ∃ st w', load_groups year groups idx sirens result w = Ret st w'.
Proof.
  intros Hy. revert idx sirens result w.
  induction groups as [|[siren rows] groups IH]; intros idx sirens result w Hok.
  - by eexists _, _.
  - destruct (load_groups_cons year siren rows groups idx sirens result w)
      as (w0 & _ & _ & ->).
    destruct (upsert_returns year siren rows w0 Hy) as (op & w1 & ->).
    { eapply Hok. left. }
    apply IH. intros k g Hin. eapply Hok. by right.
Qed.

Lemma load_groups_Ret_ok (year : Z) groups (idx : nat)
    (sirens : gset string) (result : LoadResult) (w w' : world) st :
  load_groups year groups idx sirens result w = Ret st w' →
  ∀ k g, (k, g) ∈ groups → 1 ≤ year ≤ 9999 ∧ group_ok g.
Proof.
  revert idx sirens result w.
  induction groups as [|[siren rows] groups IH]; intros idx sirens result w.
  { by intros _ k g ?%elem_of_nil. }
  destruct (load_groups_cons year siren rows groups idx sirens result w)
    as (w0 & _ & _ & ->).
  destruct (upsert year siren rows w0) as [op w1|] eqn:Hup; [|done].
  intros Hrest k g [[= -> ->]|Hin]%elem_of_cons.
  - by eapply upsert_Ret_group_ok.
  - by eapply IH.
Qed.

Lemma load_groups_Raise (year : Z) groups (idx : nat)
    (sirens : gset string) (result : LoadResult) (w w' : world) (e : exn) :
  (∀ k g, (k, g) ∈ groups → g ≠ []) →
  load_groups year groups idx sirens result w = Raise e w' →
  e = ValueError.
Proof.
  revert idx sirens result w.
  induction groups as [|[siren rows] groups IH]; intros idx sirens result w Hne.
  { done. }
  destruct (load_groups_cons year siren rows groups idx sirens result w)
    as (w0 & _ & _ & ->).
  destruct (upsert year siren rows w0) as [op w1|e1 w1] eqn:Hup.
  - apply IH. intros k g Hin. eapply Hne. by right.
  - intros [= <- <-].
    apply upsert_Raise in Hup as [[[_ Hnil]|[? _]] _]; [|done].
    exfalso. by eapply Hne; [left|].
Qed.

Lemma load_groups_files (year : Z) groups (idx : nat)
    (sirens : gset string) (result : LoadResult) (w : world) :
  files (world_of (load_groups year groups idx sirens result w)) = files w.
Proof.
  revert idx sirens result w.
  induction groups as [|[siren rows] groups IH]; intros idx sirens result w.
  { done. }
  destruct (load_groups_cons year siren rows groups idx sirens result w)
    as (w0 & _ & Hf & ->).
  pose proof (upsert_files year siren rows w0) as Hup.
  destruct (upsert year siren rows w0) as [op w1|e1 w1]; simpl in Hup.
  - rewrite IH. congruence.
  - simpl. congruence.
Qed.

(** [load_year] returns when the previous year is a year [datetime.date]
    can hold and every group can be extracted. *)
Lemma load_year_returns (year : Z) (rows : list Row.t) (w : world) :
  1 < year ≤ 10000 →
  (∀ k g, (k, g) ∈ groupby Row.siren rows → year ≤ 9999 ∧ group_ok g) →
  ∃ r w', load_year year rows w = Ret r w'.
Proof.
  intros Hy Hok. unfold load_year. unfold bind at 1.
  destruct (groupby Row.siren rows) as [|[k g] groups] eqn:Hgr.
  + simpl. unfold bind at 1. unfold print. cbn beta iota.
    unfold bind. rewrite cleanup_missing_eq, date_Dec31 by lia.
    cbv zeta. by eexists _, _.
  + assert (year ≤ 9999) as Hy' by (eapply (Hok k g); left).
    destruct (load_groups_returns year ((k, g) :: groups) 1 ∅
                (mkLoadResult 0 0 0 0) w) as ([sirens result] & w1 & ->).
    { lia. } { intros k' g' Hin. by eapply Hok. }
    unfold bind at 1. unfold print. cbn beta iota.
    unfold bind. rewrite cleanup_missing_eq, date_Dec31 by lia.
    cbv zeta. by eexists _, _.
Qed.

Lemma load_year_Ret_ok (year : Z) (rows : list Row.t) (w w' : world)
    (r : LoadResult) :
  load_year year rows w = Ret r w' →
  1 < year ≤ 10000
  ∧ ∀ k g, (k, g) ∈ groupby Row.siren rows → year ≤ 9999 ∧ group_ok g.
Proof.
  intros (sirens & result & w1 & ids & Hg & Hc & _)%load_year_Ret.
  apply cleanup_missing_Ret in Hc as (Hy & _). split; [done|].
  intros k g Hin.
  destruct (load_groups_Ret_ok _ _ _ _ _ _ _ _ Hg k g Hin) as [? ?].
  split; [lia|done].
Qed.

Lemma load_year_Raise (year : Z) (rows : list Row.t) (w w' : world)
    (e : exn) :
  load_year year rows w = Raise e w' → e = ValueError.
Proof.
  unfold load_year. unfold bind at 1.
  destruct (load_groups _ _ _ _ _ _) as [[sirens result] w1|e1 w1] eqn:Hg.
  + unfold bind at 1. unfold print. cbn beta iota. unfold bind.
    rewrite cleanup_missing_eq.
    destruct (Date.date _ _ _); [done|]. by intros [= <- _].
  + intros [= <- <-]. eapply load_groups_Raise; [|done].
    intros k g Hin. by eapply groupby_groups.
Qed.

Lemma load_year_files (year : Z) (rows : list Row.t) (w : world) :
  files (world_of (load_year year rows w)) = files w.
Proof.
  unfold load_year. unfold bind at 1.
  pose proof (load_groups_files year (groupby Row.siren rows) 1 ∅
                (mkLoadResult 0 0 0 0) w) as Hf.
  destruct (load_groups _ _ _ _ _ _) as [[sirens result] w1|e1 w1];
    simpl in Hf; [|done].
  unfold bind at 1. unfold print. cbn beta iota. unfold bind.
  rewrite cleanup_missing_eq.
  by destruct (Date.date _ _ _).
Qed.



Lemma nb_open_app (tb1 tb2 : list Epci.t) :
  nb_open (tb1 ++ tb2) = (nb_open tb1 + nb_open tb2)%nat.
Proof. unfold nb_open. by rewrite filter_app, length_app. Qed.

Lemma nb_open_insert (tb : list Epci.t) (i : nat) (e e' : Epci.t) :
  tb !! i = Some e → is_open e = true → is_open e' = false →
  (nb_open (<[i := e']> tb) + 1)%nat = nb_open tb.
Proof.
  revert i. induction tb as [|a tb IH]; intros [|i] Hi Ho Hc; try done.
  - injection Hi as ->. unfold nb_open. simpl.
    rewrite !filter_cons.
    rewrite (decide_False (P := is_open e' = true)) by congruence.
    rewrite (decide_True (P := is_open e = true)) by done.
    simpl. lia.
  - simpl in Hi. specialize (IH i Hi Ho Hc). unfold nb_open in *. simpl.
    rewrite !filter_cons. case_decide; simpl; lia.
Qed.

Lemma upsert_counts (year : Z) (siren : string) (rows : list Row.t)
    (w w' : world) (op : option Z) :
  upsert year siren rows w = Ret op w' →
  length (db w')
  = (length (db w) + if op is Some _ then 1 else 0)%nat
  ∧ nb_open (db w')
    = (nb_open (db w) + if bool_decide (op = Some INSERTED) then 1 else 0)%nat
  ∧ (op = None ∨ op = Some INSERTED ∨ op = Some UPDATED).
Proof.
  intros (row & _ & _ & H)%upsert_Ret. cbv zeta in H.
  destruct (TinyDB.get _ _) as [[doc_id current]|] eqn:Hget.
  - destruct (set_bool _).
    + destruct H as (-> & _ & ->).
      apply get_Some in Hget as (Hcur & [_ Ho]%open_version_true & _).
      rewrite length_insert, length_app. simpl. split; [lia|].
      split; [|by right; right].
      rewrite ?bool_decide_eq_false_2 by done.
      set (c' := Epci.set_predecesseurs _ _).
      set (cur' := Epci.close_with _ _ _ _).
      assert ((nb_open (<[doc_id := cur']> (db w ++ [c'])) + 1)%nat
              = nb_open (db w ++ [c'])) as Hn.
      { apply (nb_open_insert _ _ current); [by apply lookup_app_l_Some| |done].
        unfold is_open. by rewrite Ho. }
      rewrite nb_open_app in Hn.
      assert (nb_open [c'] = 1%nat) as Hc' by reflexivity.
      simpl. lia.
    + destruct H as [-> ->]. split; [lia|]. split; [|by left].
      rewrite ?bool_decide_eq_false_2 by done. simpl. lia.
  - destruct H as [-> ->]. rewrite length_app, nb_open_app. simpl.
    split; [lia|]. split; [|by right; left].
    rewrite ?bool_decide_eq_true_2 by done. simpl. unfold nb_open. simpl. lia.
Qed.

Lemma load_groups_counts (year : Z) groups (idx : nat)
    (sirens sirens' : gset string) (result result' : LoadResult)
    (w w' : world) :
  load_groups year groups idx sirens result w = Ret (sirens', result') w' →
  total result' = (total result + length groups)%nat
  ∧ (new result ≤ new result')%nat ∧ (updated result ≤ updated result')%nat
  ∧ (new result' - new result + (updated result' - updated result)
     ≤ length groups)%nat
  ∧ length (db w')
    = (length (db w) + (new result' - new result)
       + (updated result' - updated result))%nat
  ∧ nb_open (db w') = (nb_open (db w) + (new result' - new result))%nat
  ∧ ended result' = ended result.
Proof.
  revert idx sirens result w.
  induction groups as [|[siren rows] groups IH]; intros idx sirens result w.
  - intros [= <- <- <-]. simpl. lia.
  - destruct (load_groups_cons year siren rows groups idx sirens result w)
      as (w0 & Hdb & _ & ->).
    destruct (upsert year siren rows w0) as [op w1|] eqn:Hup; [|done].
    intros Hrest. apply IH in Hrest. simpl in Hrest.
    apply upsert_counts in Hup as (Hlen & Hopen & Hop). rewrite Hdb in *.
    unfold INSERTED, UPDATED in *.
    destruct Hop as [-> | [-> | ->]]; simpl in *;
      repeat case_bool_decide; simplify_eq; lia.
Qed.

Lemma nb_open_cleanup (sirens : gset string) (d : Date.t) (tb : list Epci.t) :
  (nb_open ((λ e, if missing sirens e then Epci.set_dateFin d e else e) <$> tb)
   + length (filter (λ e, missing sirens e = true) tb))%nat
  = nb_open tb.
Proof.
  unfold nb_open. induction tb as [|e tb IH]; [done|].
  rewrite fmap_cons, !filter_cons.
  destruct (missing sirens e) eqn:Hm.
  - apply missing_true in Hm as [_ Ho].
    rewrite decide_False by done. rewrite decide_True by done.
    rewrite decide_True by (unfold is_open; by rewrite Ho). simpl. lia.
  - rewrite (decide_False (P := false = true)) by done.
    case_decide; simpl; lia.
Qed.

Lemma cleanup_missing_counts (year : Z) (sirens : gset string)
    (w w' : world) ids :
  cleanup_missing year sirens w = Ret ids w' →
  length (db w') = length (db w)
  ∧ (nb_open (db w') + length ids)%nat = nb_open (db w).
Proof.
  intros (_ & -> & ->)%cleanup_missing_Ret. simpl.
  destruct (update_from_spec (Epci.set_dateFin (Date.mk (year - 1) 12 31))
              (missing sirens) (db w) 0) as (_ & Hids & _).
  unfold TinyDB.update. rewrite length_fmap, Hids.
  split; [done|]. apply nb_open_cleanup.
Qed.

(** The counts of a year add up: [total] is the number of groups, at
    most one of [new] and [updated] counts a group, the table grows by
    [new + updated] versions, and the number of open versions grows by [new]
    and shrinks by [ended]. *)
Theorem load_year_counts (year : Z) (rows : list Row.t) (w w' : world)
    (r : LoadResult) :
  load_year year rows w = Ret r w' →
  total r = length (groupby Row.siren rows)
  ∧ (new r + updated r ≤ total r)%nat
  ∧ length (db w') = (length (db w) + new r + updated r)%nat
  ∧ (nb_open (db w') + ended r)%nat = (nb_open (db w) + new r)%nat.
Proof.
  intros (sirens & result & w1 & ids & Hg & Hc & ->)%load_year_Ret.
  apply load_groups_counts in Hg as (Ht & _ & _ & Hle & Hlen & Hopen & _).
  apply cleanup_missing_counts in Hc as [Hlen' Hopen'].
  simpl in *. lia.
Qed.

Lemma load_year_counts_witness :
  total (mkLoadResult 1 0 1 0) = length (groupby Row.siren rows_ab)
  ∧ (new (mkLoadResult 1 0 1 0) + updated (mkLoadResult 1 0 1 0)
     ≤ total (mkLoadResult 1 0 1 0))%nat
  ∧ length (db (printed NL store_2001))
    = (length (db store_2000) + new (mkLoadResult 1 0 1 0)
       + updated (mkLoadResult 1 0 1 0))%nat
  ∧ (nb_open (db (printed NL store_2001)) + ended (mkLoadResult 1 0 1 0))%nat
    = (nb_open (db store_2000) + new (mkLoadResult 1 0 1 0))%nat.
Proof.
  apply (load_year_counts 2001 rows_ab store_2000 (printed NL store_2001)).
  vm_compute. reflexivity.
Defined.

Lemma groupby_key_elem {A K : Type} `{EqDecision K} (key : A → K)
    (l : list A) (x : A) :
  x ∈ l → key x ∈ (fst <$> groupby key l).
Proof.
  rewrite <- (groupby_concat key l) at 1.
  intros (g & Hx & [[k g'] [-> Hg]]%list_elem_of_fmap)%elem_of_concat.
  apply list_elem_of_fmap. exists (k, g'). split; [|done]. simpl.
  by eapply groupby_groups.
Qed.

Lemma upsert_current (year : Z) (siren : string) (rows : list Row.t)
    (w w' : world) (op : option Z) :
  (∀ row, head rows = Some row → Row.siren row = siren) →
  upsert year siren rows w = Ret op w' →
  current_members (db w') siren (members_of rows).
Proof.
  intros Hkey (row & Hrow & _ & H)%upsert_Ret. cbv zeta in H.
  specialize (Hkey row Hrow).
  destruct (TinyDB.get _ _) as [[doc_id current]|] eqn:Hget.
  - apply get_Some in Hget as (Hcur & [Hs Ho]%open_version_true & _).
    destruct (set_bool _) eqn:Hdiff.
    + destruct H as (_ & _ & ->).
      exists (Epci.set_predecesseurs [Epci.id current] (candidate year row rows)).
      split; [|done].
      apply list_elem_of_lookup. exists (length (db w)).
      rewrite list_lookup_insert_ne by (apply lookup_lt_Some in Hcur; lia).
      rewrite lookup_app_r by lia. by rewrite Nat.sub_diag.
    + destruct H as [_ ->]. apply set_bool_sym_diff_false in Hdiff.
      exists current. split; [by eapply list_elem_of_lookup_2|done].
  - destruct H as [_ ->]. exists (candidate year row rows).
    split; [|done]. apply elem_of_app. right. left.
Qed.

Lemma upsert_keeps_others (year : Z) (siren : string) (rows : list Row.t)
    (w w' : world) (op : option Z) (e : Epci.t) :
  upsert year siren rows w = Ret op w' →
  e ∈ db w → Epci.siren e ≠ siren → e ∈ db w'.
Proof.
  intros (row & Hrow & _ & H)%upsert_Ret He Hne. cbv zeta in H.
  destruct (TinyDB.get _ _) as [[doc_id current]|] eqn:Hget.
  - apply get_Some in Hget as (Hcur & [Hs Ho]%open_version_true & _).
    destruct (set_bool _); [|destruct H as [_ ->]; done].
    destruct H as (_ & _ & ->).
    apply list_elem_of_lookup_1 in He as [j Hj].
    apply list_elem_of_lookup. exists j.
    rewrite list_lookup_insert_ne by (intros ->; congruence).
    by apply lookup_app_l_Some.
  - destruct H as [_ ->]. apply elem_of_app. by left.
Qed.

Lemma load_groups_current (year : Z) groups (idx : nat)
    (sirens sirens' : gset string) (result result' : LoadResult)
    (w w' : world) :
  NoDup (fst <$> groups) →
  (∀ k g row, (k, g) ∈ groups → head g = Some row → Row.siren row = k) →
  load_groups year groups idx sirens result w = Ret (sirens', result') w' →
  (∀ k g, (k, g) ∈ groups → current_members (db w') k (members_of g))
  ∧ (∀ e, e ∈ db w → Epci.siren e ∉ (fst <$> groups) → e ∈ db w').
Proof.
  revert idx sirens result w.
  induction groups as [|[siren rows] groups IH];
    intros idx sirens result w Hnd Hkey.
  - intros [= <- <- <-]. split; [by intros k g ?%elem_of_nil|done].
  - destruct (load_groups_cons year siren rows groups idx sirens result w)
      as (w0 & Hdb & _ & ->).
    destruct (upsert year siren rows w0) as [op w1|] eqn:Hup; [|done].
    rewrite fmap_cons in Hnd. apply NoDup_cons in Hnd as [Hk Hnd].
    intros Hrest. apply IH in Hrest as [IH1 IH2]; [|done|].
    2:{ intros k g row Hin. apply Hkey. by right. }
    split.
    + intros k g [[= -> ->]|Hin]%elem_of_cons; [|by apply IH1].
      apply upsert_current in Hup as (e & He & Hs & Ho & Hm).
      * exists e. split; [|done]. apply IH2; [done|]. by rewrite Hs.
      * intros row. apply Hkey. left.
    + intros e He Hne. rewrite fmap_cons, not_elem_of_cons in Hne.
      destruct Hne as [Hne1 Hne2]. apply IH2; [|done].
      eapply upsert_keeps_others; [done|by rewrite Hdb|done].
Qed.

Lemma upsert_keeps_open_siren (year : Z) (siren : string)
    (rows : list Row.t) (w w' : world) (op : option Z) (k : string) :
  (∀ row, head rows = Some row → Row.siren row = siren) →
  upsert year siren rows w = Ret op w' →
  (∃ e, e ∈ db w ∧ Epci.siren e = k ∧ Epci.dateFin e = None) →
  ∃ e, e ∈ db w' ∧ Epci.siren e = k ∧ Epci.dateFin e = None.
Proof.
  intros Hkey Hup (e & He & Hs & Ho).
  destruct (decide (k = siren)) as [->|Hne].
  - apply upsert_current in Hup as (e' & ? & ? & ? & _); eauto.
  - exists e. split; [|done]. eapply upsert_keeps_others; [done..|congruence].
Qed.

Lemma load_groups_open (year : Z) groups (idx : nat)
    (sirens sirens' : gset string) (result result' : LoadResult)
    (w w' : world) :
  (∀ k g row, (k, g) ∈ groups → head g = Some row → Row.siren row = k) →
  load_groups year groups idx sirens result w = Ret (sirens', result') w' →
  ∀ k, (k ∈ (fst <$> groups)
        ∨ ∃ e, e ∈ db w ∧ Epci.siren e = k ∧ Epci.dateFin e = None) →
       ∃ e, e ∈ db w' ∧ Epci.siren e = k ∧ Epci.dateFin e = None.
Proof.
  revert idx sirens result w.
  induction groups as [|[siren rows] groups IH];
    intros idx sirens result w Hkey.
  - intros [= <- <- <-] k [?%elem_of_nil|?]; done.
  - destruct (load_groups_cons year siren rows groups idx sirens result w)
      as (w0 & Hdb & _ & ->).
    destruct (upsert year siren rows w0) as [op w1|] eqn:Hup; [|done].
    assert (∀ row, head rows = Some row → Row.siren row = siren) as Hk1.
    { intros row. apply Hkey. left. }
    intros Hrest k Hk. eapply IH; [|done|].
    { intros k' g row Hin. apply Hkey. by right. }
    rewrite fmap_cons, elem_of_cons in Hk.
    destruct Hk as [[->|Hk]|Hk]; [right|by left|right].
    + apply upsert_current in Hup as (e & ? & ? & ? & _); eauto.
    + eapply upsert_keeps_open_siren; [done..|by rewrite Hdb].
Qed.

Lemma groupby_keys_rows (rows : list Row.t) (k : string) :
  k ∈ (Row.siren <$> rows) ↔ k ∈ (fst <$> groupby Row.siren rows).
Proof.
  split.
  - intros (row & -> & Hrow)%list_elem_of_fmap. by apply groupby_key_elem.
  - intros (row & Hrow & <-)%groupby_keys. apply list_elem_of_fmap. eauto.
Qed.

Lemma groupby_head_key (rows : list Row.t) (k : string) (g : list Row.t)
    (row : Row.t) :
  (k, g) ∈ groupby Row.siren rows → head g = Some row → Row.siren row = k.
Proof.
  intros Hin Hrow. eapply groupby_groups; [done|]. by apply head_Some_elem_of.
Qed.

(** The cleanup keeps the open versions of the SIRENs it was given, and
    leaves no other version open. *)
Lemma cleanup_keeps_seen (year : Z) (sirens : gset string) (w w' : world)
    ids (e : Epci.t) :
  cleanup_missing year sirens w = Ret ids w' →
  e ∈ db w → Epci.dateFin e = None → Epci.siren e ∈ sirens → e ∈ db w'.
Proof.
  intros (_ & -> & _)%cleanup_missing_Ret He Ho Hs. simpl.
  apply list_elem_of_fmap. exists e. split; [|done].
  destruct (missing sirens e) eqn:Hm; [|done].
  by apply missing_true in Hm as [Hm _].
Qed.

Lemma cleanup_open_seen (year : Z) (sirens : gset string) (w w' : world)
    ids (e : Epci.t) :
  cleanup_missing year sirens w = Ret ids w' →
  e ∈ db w' → Epci.dateFin e = None → Epci.siren e ∈ sirens.
Proof.
  intros (_ & -> & _)%cleanup_missing_Ret. simpl.
  intros (e0 & -> & He)%list_elem_of_fmap Ho.
  destruct (missing sirens e0) eqn:Hm; [done|].
  apply not_true_iff_false in Hm. rewrite missing_true in Hm.
  destruct (decide (Epci.siren e0 ∈ sirens)); [done|]. exfalso. by apply Hm.
Qed.

(** [load_year] is its loop over the groups, then the cleanup with the
    SIRENs of the groups. *)
Lemma load_year_Ret_seen (year : Z) (rows : list Row.t) (w w' : world)
    (r : LoadResult) :
  load_year year rows w = Ret r w' →
  ∃ result w1 ids,
    load_groups year (groupby Row.siren rows) 1 ∅ (mkLoadResult 0 0 0 0) w
    = Ret (list_to_set (fst <$> groupby Row.siren rows), result) w1
    ∧ cleanup_missing year (list_to_set (fst <$> groupby Row.siren rows))
        (printed NL w1) = Ret ids w'
    ∧ total r = length (groupby Row.siren rows).
Proof.
  intros (sirens & result & w1 & ids & Hg & Hc & ->)%load_year_Ret.
  pose proof Hg as Hg'.
  apply (load_groups_Ret (λ _, True)) in Hg' as (_ & Hs & Ht); [|done..].
  rewrite (right_id_L ∅ (∪)) in Hs. subst sirens.
  by exists result, w1, ids.
Qed.

(** After a year, every group of the file has its open version, when no
    two groups have the same SIREN. *)
Lemma load_year_groups_current (year : Z) (rows : list Row.t) (w w' : world)
    (r : LoadResult) :
  NoDup (fst <$> groupby Row.siren rows) →
  load_year year rows w = Ret r w' →
  ∀ k g, (k, g) ∈ groupby Row.siren rows →
         current_members (db w') k (members_of g).
Proof.
  intros Hnd (result & w1 & ids & Hg & Hc & _)%load_year_Ret_seen k g Hin.
  apply load_groups_current in Hg as [Hcur _];
    [|done|apply groupby_head_key].
  destruct (Hcur k g Hin) as (e & He & Hs & Ho & Hm).
  exists e. split; [|done].
  eapply cleanup_keeps_seen; [done..|].
  rewrite Hs. apply elem_of_list_to_set, list_elem_of_fmap. by exists (k, g).
Qed.

(** After a year, the open versions are those of the SIRENs of the
    file of the year: every SIREN of the file has an open version, and every
    open version has a SIREN of the file (an empty file leaves no version
    open). When the rows of each SIREN are next to each other, the open
    version of a SIREN has the zero-padded INSEE codes of its rows as
    members. *)
Theorem load_year_current (year : Z) (rows : list Row.t) (w w' : world)
    (r : LoadResult) :
  load_year year rows w = Ret r w' →
  (∀ e, e ∈ db w' → Epci.dateFin e = None →
        Epci.siren e ∈ (Row.siren <$> rows))
  ∧ (∀ k, k ∈ (Row.siren <$> rows) →
          ∃ e, e ∈ db w' ∧ Epci.siren e = k ∧ Epci.dateFin e = None)
  ∧ (contiguous Row.siren rows →
     ∀ k, k ∈ (Row.siren <$> rows) →
          current_members (db w') k
            (members_of (filter (λ row, Row.siren row = k) rows))).
Proof.
  intros Hload. split_and!.
  - destruct (load_year_Ret_seen _ _ _ _ _ Hload)
      as (result & w1 & ids & _ & Hc & _).
    intros e He Ho. apply groupby_keys_rows.
    apply (elem_of_list_to_set (C := gset string)).
    by eapply cleanup_open_seen.
  - destruct (load_year_Ret_seen _ _ _ _ _ Hload)
      as (result & w1 & ids & Hg & Hc & _).
    intros k Hk%groupby_keys_rows.
    destruct (load_groups_open _ _ _ _ _ _ _ _ _
                (groupby_head_key rows) Hg k) as (e & He & Hs & Ho);
      [by left|].
    exists e. split; [|done].
    eapply cleanup_keeps_seen; [done..|].
    rewrite Hs. by apply elem_of_list_to_set.
  - intros Hcont%groupby_contiguous k Hk%groupby_keys_rows.
    apply list_elem_of_fmap in Hk as ([k' g] & -> & Hin). simpl.
    rewrite <- (groupby_filter Row.siren rows k' g Hcont Hin).
    by eapply load_year_groups_current.
Qed.

Lemma load_year_current_witness :
  current_members (db (printed NL store_two_keys)) "E1"
    (members_of (filter (λ row, Row.siren row = "E1") rows_two_keys)).
Proof.
  destruct (load_year_current 2000 rows_two_keys Store_init
              (printed NL store_two_keys) (mkLoadResult 2 2 0 0))
    as (_ & _ & H).
  - vm_compute. reflexivity.
  - apply (H rows_two_keys_contiguous).
    apply list_elem_of_fmap. exists (sample_row "E1" "2" "1").
    split; [reflexivity|left].
Defined.

Lemma upsert_noop (year : Z) (siren : string) (rows : list Row.t) (w : world) :
  1 ≤ year ≤ 9999 → group_ok rows → one_open (db w) →
  current_members (db w) siren (members_of rows) →
  ∃ w', upsert year siren rows w = Ret None w' ∧ db w' = db w.
Proof.
  intros Hy (row & Hrow & n & Hn) Hone (e & He & Hs & Ho & Hm).
  apply list_elem_of_lookup_1 in He as [i Hi].
  assert (TinyDB.get (open_version siren) (db w) = Some (i, e)) as Hget.
  { apply get_Some. split_and!; [done|by apply open_version_true|].
    intros j y Hj Hlt. apply not_true_iff_false.
    rewrite open_version_true. intros [Hys Hyo].
    assert (j = i) by (eapply Hone; eauto; congruence). lia. }
  rewrite upsert_eq, extract_epci_eq, Hrow, Hn, date_Jan1 by done.
  case_bool_decide.
  - rewrite Hget. simpl. rewrite Hm.
    rewrite (proj2 (set_bool_sym_diff_false _ _)) by done. by eexists.
  - rewrite Hget. simpl. rewrite Hm.
    rewrite (proj2 (set_bool_sym_diff_false _ _)) by done. by eexists.
Qed.

Lemma load_groups_noop (year : Z) groups (idx : nat) (sirens : gset string)
    (result : LoadResult) (w : world) :
  1 ≤ year ≤ 9999 → one_open (db w) →
  (∀ k g, (k, g) ∈ groups →
     group_ok g ∧ current_members (db w) k (members_of g)) →
  ∃ w', load_groups year groups idx sirens result w
        = Ret (list_to_set (fst <$> groups) ∪ sirens,
               mkLoadResult (total result + length groups) (new result)
                 (updated result) (ended result)) w'
        ∧ db w' = db w.
Proof.
  intros Hy. revert idx sirens result w.
  induction groups as [|[siren rows] groups IH];
    intros idx sirens result w Hone Hcur.
  - exists w. split; [|done]. simpl. unfold ret. f_equal. f_equal.
    + set_solver.
    + destruct result. simpl. f_equal. lia.
  - destruct (load_groups_cons year siren rows groups idx sirens result w)
      as (w0 & Hdb & _ & ->).
    destruct (Hcur siren rows) as [Hok Hc]; [left|].
    destruct (upsert_noop year siren rows w0) as (w1 & -> & Hdb1);
      [done|done|by rewrite Hdb|by rewrite Hdb|].
    rewrite Hdb in Hdb1.
    cbv beta iota.
    match goal with
    | |- context [load_groups _ _ _ _ ?res _] =>
        destruct (IH (S idx) ({[siren]} ∪ sirens) res w1)
          as (w2 & Heq & Hdb2)
    end.
    + by rewrite Hdb1.
    + intros k g Hin. rewrite Hdb1. apply Hcur. by right.
    + rewrite Heq.
      exists w2. split; [|congruence]. f_equal. f_equal.
      * rewrite fmap_cons. simpl. set_solver.
      * simpl. f_equal; lia.
Qed.

(** X. Loading the rows of a year once more, for the same or any other
    year [datetime.date] can hold together with its previous year, changes
    nothing in the store: every group is the unchanged case, nothing is
    inserted, updated or ended. (The store had at most one open version per
    SIREN, and the rows of each SIREN are next to each other.) *)
Theorem load_year_again (year year2 : Z) (rows : list Row.t) (w w1 : world)
    (r : LoadResult) :
  one_open (db w) →
  contiguous Row.siren rows →
  load_year year rows w = Ret r w1 →
  1 < year2 ≤ 9999 →
  ∃ w2, load_year year2 rows w1 = Ret (mkLoadResult (total r) 0 0 0) w2
        ∧ db w2 = db w1.
Proof.
  intros Hone Hcont%groupby_contiguous Hload Hy2.
  pose proof (load_year_one_open _ _ _ _ _ Hone Hload) as Hone1.
  destruct (load_year_Ret_seen _ _ _ _ _ Hload)
    as (result & w0 & ids & Hg & Hc & Htotal).
  destruct (load_groups_noop year2 (groupby Row.siren rows) 1 ∅
              (mkLoadResult 0 0 0 0) w1) as (w2 & Hg2 & Hdb2); [lia|done| |].
  { intros k g Hin. split.
    - by eapply load_groups_Ret_ok.
    - by eapply load_year_groups_current. }
  unfold load_year. unfold bind at 1. rewrite Hg2.
  unfold bind at 1. unfold print. cbn beta iota. unfold bind.
  rewrite cleanup_missing_eq, date_Dec31 by lia. cbv zeta.
  destruct (update_from_spec (Epci.set_dateFin (Date.mk (year2 - 1) 12 31))
              (missing (list_to_set (groupby Row.siren rows).*1 ∪ ∅))
              (db w2) 0) as (Htb & Hlen & _).
  unfold TinyDB.update. unfold with_table. simpl.
  assert (∀ e, e ∈ db w2 →
            missing (list_to_set (groupby Row.siren rows).*1 ∪ ∅) e = false)
    as Hnone.
  { intros e He. apply not_true_iff_false. rewrite missing_true.
    intros [Hs Ho]. apply Hs. rewrite Hdb2 in He.
    apply elem_of_union. left. by eapply cleanup_open_seen. }
  eexists. split.
  - f_equal. rewrite Hlen, Htotal, filter_none; [done|].
    intros e He. rewrite Hnone by done. done.
  - simpl. rewrite Htb, <- Hdb2.
    rewrite <- (list_fmap_id (db w2)) at 2. apply list_fmap_ext.
    intros i e He. rewrite Hnone; [done|]. by eapply list_elem_of_lookup_2.
Qed.

Lemma load_year_again_witness :
  ∃ w2, load_year 2005 rows_two_keys (printed NL store_two_keys)
        = Ret (mkLoadResult (total (mkLoadResult 2 2 0 0)) 0 0 0) w2
        ∧ db w2 = db (printed NL store_two_keys).
Proof.
  apply (load_year_again 2000 2005 rows_two_keys Store_init
           (printed NL store_two_keys) (mkLoadResult 2 2 0 0)).
  - intros i j a b Ha. by destruct i.
  - exact rows_two_keys_contiguous.
  - vm_compute. reflexivity.
  - lia.
Defined.

(** ** Calling [upsert] again *)

(** [upsert] is idempotent: after a call that returned, a second call
    for the same group, in the same year or in another, finds the members
    unchanged; it returns [None] and leaves the table as it is. (The store
    had at most one open version per SIREN, and [siren] is the SIREN of the
    first row.) *)
Theorem upsert_idempotent (year year2 : Z) (siren : string)
    (rows : list Row.t) (w w1 : world) (op : option Z) :
  one_open (db w) →
  (∀ row, head rows = Some row → Row.siren row = siren) →
  upsert year siren rows w = Ret op w1 →
  1 ≤ year2 ≤ 9999 →
  ∃ w2, upsert year2 siren rows w1 = Ret None w2 ∧ db w2 = db w1.
Proof.
  intros Hone Hkey Hup Hy2.
  apply upsert_noop; [done| | |].
  - by eapply upsert_Ret_group_ok.
  - by eapply one_open_upsert.
  - by eapply upsert_current.
Qed.

Lemma upsert_idempotent_witness :
  ∃ w2, upsert 2001 "E1" rows_ab store_2001 = Ret None w2
        ∧ db w2 = db store_2001.
Proof.
  apply (upsert_idempotent 2001 2001 "E1" rows_ab store_2000 store_2001
           (Some UPDATED)).
  - intros i j a b Ha Hb. destruct i, j; done.
  - by intros row [= <-].
  - vm_compute. reflexivity.
  - lia.
Defined.

(** ** Dates of the store *)

Lemma valid_Jan1 (y : Z) : 1 ≤ y ≤ 9999 → Date.valid (Date.mk y 1 1) = true.
Proof.
  intros Hy. pose proof (date_Jan1 y Hy) as H. unfold Date.date in H.
  by destruct (Date.valid _).
Qed.

Lemma valid_Dec31 (y : Z) : 1 ≤ y ≤ 9999 → Date.valid (Date.mk y 12 31) = true.
Proof.
  intros Hy. pose proof (date_Dec31 y Hy) as H. unfold Date.date in H.
  by destruct (Date.valid _).
Qed.

Lemma dates_valid_upsert (year : Z) (siren : string) (rows : list Row.t)
    (w w' : world) (op : option Z) :
  (∀ e, e ∈ db w → dates_valid e) →
  upsert year siren rows w = Ret op w' →
  ∀ e, e ∈ db w' → dates_valid e.
Proof.
  intros Hok (row & Hrow & Hy & Hup)%upsert_Ret. cbv zeta in Hup.
  assert (∀ p, dates_valid (Epci.mk (epci_id row year) (Date.mk year 1 1)
                              (Row.siren row) (Row.nom row) (Row.nature row)
                              (Row.fiscalite row) (Row.ptot row)
                              (members_of rows) p None None None)) as Hcand.
  { intros p. split; [by apply valid_Jan1|done]. }
  destruct (TinyDB.get _ _) as [[i cur]|] eqn:Hget.
  - destruct (set_bool _).
    + destruct Hup as (_ & Hy1 & ->).
      apply get_Some in Hget as (Hi & _ & _).
      assert (cur ∈ db w) as Hcur by by eapply list_elem_of_lookup_2.
      intros e (j & Hj)%list_elem_of_lookup_1.
      apply list_lookup_insert_Some in Hj as [(-> & <- & _)|[Hne Hj]].
      * split; [apply (proj1 (Hok cur Hcur))|]. simpl. intros d [= <-].
        apply valid_Dec31. lia.
      * apply list_elem_of_lookup_2, elem_of_app in Hj as [Hj|Hj].
        -- by apply Hok.
        -- apply list_elem_of_singleton in Hj as ->. apply Hcand.
    + by destruct Hup as [_ ->].
  - destruct Hup as [_ ->]. intros e [He|He]%elem_of_app; [by apply Hok|].
    apply list_elem_of_singleton in He as ->. apply Hcand.
Qed.

Lemma dates_valid_load_year (year : Z) (rows : list Row.t) (w w' : world)
    (r : LoadResult) :
  (∀ e, e ∈ db w → dates_valid e) →
  load_year year rows w = Ret r w' →
  ∀ e, e ∈ db w' → dates_valid e.
Proof.
  intros Hok (sirens & result & w1 & ids & Hg & Hcl & _)%load_year_Ret.
  apply (load_groups_Ret (λ tb, ∀ e, e ∈ tb → dates_valid e)) in Hg
    as (Hok1 & _); [| |done].
  2:{ intros siren g v op v' _ Hv Hup. by eapply dates_valid_upsert. }
  apply cleanup_missing_Ret in Hcl as (Hy & -> & _). simpl.
  intros e' (e & -> & He)%list_elem_of_fmap.
  destruct (missing sirens e); [|by apply Hok1].
  split; [apply (proj1 (Hok1 e He))|]. simpl. intros d [= <-].
  apply valid_Dec31. lia.
Qed.

(** ** Zero-padded INSEE codes *)

Lemma ascii_list_of (l : list ascii) : ascii_list (of_ascii_list l) = l.
Proof. apply String.list_ascii_of_string_of_list_ascii. Qed.

Lemma of_ascii_list_of (s : string) : of_ascii_list (ascii_list s) = s.
Proof. apply String.string_of_list_ascii_of_string. Qed.

Lemma zeros_length (n : nat) : length (zeros n) = n.
Proof. induction n; simpl; congruence. Qed.

Lemma zfill_long (n : nat) (s : string) :
  (n ≤ length (ascii_list s))%nat → zfill n s = s.
Proof.
  intros Hn. unfold zfill.
  replace (n - length (ascii_list s))%nat with 0%nat by lia. simpl.
  destruct (ascii_list s) as [|c l] eqn:Hl.
  - by rewrite <- (of_ascii_list_of s), Hl.
  - rewrite <- (of_ascii_list_of s), Hl. by destruct (is_sign c).
Qed.

Lemma zfill_length (n : nat) (s : string) :
  (n ≤ length (ascii_list (zfill n s)))%nat.
Proof.
  unfold zfill. destruct (ascii_list s) as [|c l].
  - rewrite ascii_list_of, zeros_length. cbn [length]. lia.
  - destruct (is_sign c); rewrite ascii_list_of; cbn [length];
      rewrite ?length_app, ?zeros_length; cbn [length]; lia.
Qed.

Lemma zfill_idem (n : nat) (s : string) : zfill n (zfill n s) = zfill n s.
Proof. apply zfill_long, zfill_length. Qed.

Lemma members_of_padded (rows : list Row.t) :
  members_of (padded <$> rows) = members_of rows.
Proof.
  unfold members_of. f_equal. rewrite <- list_fmap_compose.
  apply list_fmap_ext. intros i r _. simpl. apply zfill_idem.
Qed.

Lemma extract_epci_padded (year : Z) (rows : list Row.t) (w : world) :
  extract_epci year (padded <$> rows) w = extract_epci year rows w.
Proof.
  rewrite !extract_epci_eq. destruct rows as [|row rows]; [done|].
  cbn [fmap list_fmap head]. fold (fmap padded rows).
  change (padded row :: (padded <$> rows)) with (padded <$> row :: rows).
  unfold candidate, mismatch_line, epci_id.
  by rewrite members_of_padded.
Qed.

Lemma upsert_padded (year : Z) (siren : string) (rows : list Row.t)
    (w : world) :
  upsert year siren (padded <$> rows) w = upsert year siren rows w.
Proof. by rewrite !upsert_eq, extract_epci_padded. Qed.

Lemma groupby_padded (rows : list Row.t) :
  groupby Row.siren (padded <$> rows)
  = (λ kg : string * list Row.t, (kg.1, padded <$> kg.2))
    <$> groupby Row.siren rows.
Proof.
  induction rows as [|row rows IH]; [done|].
  rewrite fmap_cons. cbn [groupby]. rewrite IH.
  destruct (groupby Row.siren rows) as [|[k g] gs]; [done|].
  rewrite fmap_cons. cbn [fst snd].
  change (Row.siren (padded row)) with (Row.siren row).
  by destruct (decide (Row.siren row = k)).
Qed.

Lemma load_groups_padded (year : Z) groups (idx : nat) (sirens : gset string)
    (result : LoadResult) (w : world) :
  load_groups year
    ((λ kg : string * list Row.t, (kg.1, padded <$> kg.2)) <$> groups)
    idx sirens result w
  = load_groups year groups idx sirens result w.
Proof.
  revert idx sirens result w.
  induction groups as [|[siren rows] groups IH]; intros idx sirens result w.
  { done. }
  rewrite fmap_cons. cbn [fst snd load_groups]. unfold bind.
  destruct ((if bool_decide (idx mod DOT_MOD = 0)%nat
             then print (if bool_decide (idx mod IDX_MOD = 0)%nat
                         then white (pretty idx) else ".") ""
             else ret ()) w) as [[] w0|]; [|done].
  rewrite upsert_padded.
  destruct (upsert year siren rows w0) as [op w1|]; [|done].
  apply IH.
Qed.

(** Leading zeros of the INSEE codes make no difference: a file that
    writes the codes already zero-padded to five characters is loaded as
    the file that writes them bare, with the same result, the same store and
    the same console output. *)
Theorem load_year_padded (year : Z) (rows : list Row.t) (w : world) :
  load_year year (padded <$> rows) w = load_year year rows w.
Proof.
  unfold load_year. cbv zeta. unfold bind at 1 5.
  by rewrite groupby_padded, load_groups_padded.
Qed.

(** ** The history runner *)

Lemma load_years_cons (csv : gmap string (list Row.t)) (year : Z)
    (years : list Z) (results : list LoadResult) (w : world) :
  ∃ (w0 : world) (after : LoadResult → world → world),
    db w0 = db w ∧ files w0 = files w
    ∧ (∀ r v, db (after r v) = db v ∧ files (after r v) = files v)
    ∧ load_years csv (year :: years) results w =
      match csv !! (pretty year +:+ ".csv") with
      | None => FileNotFound (pretty year +:+ ".csv") w0
      | Some rows =>
          match load_year year rows w0 with
          | Raise e w1 => Failed e w1
          | Ret r w1 => load_years csv years (results ++ [r]) (after r w1)
          end
      end.
Proof.
  cbn [load_years]. unfold io_bind, lift, load_year_file.
  exists (world_of (info ("Processing " +:+ pretty year +:+ ".csv") w)),
    (λ r v, world_of (success
                        ("Processed " +:+ pretty (total r)
                         +:+ " EPCIs: added " +:+ pretty (new r)
                         +:+ ", updated " +:+ pretty (updated r)
                         +:+ ", ended " +:+ pretty (ended r)) v)).
  split_and!; [done|done|by intros r v|].
  unfold info, success, print, world_of, lift.
  destruct (csv !! _) as [rows|]; [|reflexivity].
  destruct (load_year _ _ _) as [r w1|]; reflexivity.
Qed.

Lemma load_years_nil (csv : gmap string (list Row.t))
    (results : list LoadResult) (w : world) :
  load_years csv [] results w = Done results w.
Proof. done. Qed.

(** What a year establishes, year after year. *)
Lemma load_years_Done (P : Z → list LoadResult → list Epci.t → Prop)
    (csv : gmap string (list Row.t)) (n : nat) (a : Z)
    (results res : list LoadResult) (w w' : world) :
  (∀ year rows rs v r v',
     a ≤ year < a + Z.of_nat n →
     csv !! (pretty year +:+ ".csv") = Some rows →
     P year rs (db v) →
     load_year year rows v = Ret r v' →
     P (year + 1) (rs ++ [r]) (db v')) →
  P a results (db w) →
  load_years csv (seqZ a (Z.of_nat n)) results w = Done res w' →
  P (a + Z.of_nat n) res (db w') ∧ files w' = files w.
Proof.
  revert a results w. induction n as [|n IH]; intros a results w Hstep HP.
  { rewrite load_years_nil. intros [= <- <-].
    by replace (a + Z.of_nat 0) with a by lia. }
  rewrite seqZ_cons by lia.
  destruct (load_years_cons csv a (seqZ (Z.succ a) (Z.pred (Z.of_nat (S n)))) results w)
    as (w0 & after & Hdb & Hf & Hafter & ->).
  destruct (csv !! _) as [rows|] eqn:Hrows; [|done].
  pose proof (load_year_files a rows w0) as Hf1.
  destruct (load_year a rows w0) as [r w1|] eqn:Hload; [|done].
  simpl in Hf1. destruct (Hafter r w1) as [Hdb2 Hf2].
  replace (Z.pred (Z.of_nat (S n))) with (Z.of_nat n) by lia.
  intros Hrest. apply IH in Hrest as [HP' Hf'].
  - split; [|congruence].
    by replace (a + Z.of_nat (S n)) with (Z.succ a + Z.of_nat n) by lia.
  - intros year rows' rs v r' v' Hy. apply Hstep. lia.
  - rewrite Hdb2. replace (Z.succ a) with (a + 1) by lia.
    eapply (Hstep a rows results w0); [lia|done| |done]. by rewrite Hdb.
Qed.

Lemma load_years_Done_files (csv : gmap string (list Row.t)) (years : list Z)
    (results res : list LoadResult) (w w' : world) :
  load_years csv years results w = Done res w' →
  ∀ year, year ∈ years →
    ∃ rows v r v', csv !! (pretty year +:+ ".csv") = Some rows
                   ∧ load_year year rows v = Ret r v'.
Proof.
  revert results w. induction years as [|y years IH]; intros results w.
  { by intros _ year ?%elem_of_nil. }
  destruct (load_years_cons csv y years results w)
    as (w0 & after & _ & _ & _ & ->).
  destruct (csv !! _) as [rows|] eqn:Hrows; [|done].
  destruct (load_year y rows w0) as [r w1|] eqn:Hload; [|done].
  intros Hrest year [->|Hin]%elem_of_cons.
  - by eexists _, _, _, _.
  - by eapply IH.
Qed.

Lemma load_years_returns (csv : gmap string (list Row.t)) (years : list Z)
    (results : list LoadResult) (w : world) :
  (∀ year, year ∈ years →
     1 < year ≤ 9999
     ∧ ∃ rows, csv !! (pretty year +:+ ".csv") = Some rows
               ∧ ∀ k g, (k, g) ∈ groupby Row.siren rows → group_ok g) →
  ∃ res w', load_years csv years results w = Done res w'.
Proof.
  revert results w. induction years as [|y years IH]; intros results w Hok.
  { rewrite load_years_nil. by eexists _, _. }
  destruct (load_years_cons csv y years results w)
    as (w0 & after & _ & _ & _ & ->).
  destruct (Hok y) as (Hy & rows & -> & Hg); [left|].
  destruct (load_year_returns y rows w0) as (r & w1 & ->); [lia| |].
  { intros k g Hin. split; [lia|]. by eapply Hg. }
  apply IH. intros year Hin. apply Hok. by right.
Qed.

Lemma load_years_fails (csv : gmap string (list Row.t)) (years : list Z)
    (results : list LoadResult) (w : world) :
  (∀ e w', load_years csv years results w = Failed e w' →
           e = ValueError ∧ files w' = files w)
  ∧ (∀ f w', load_years csv years results w = FileNotFound f w' →
             files w' = files w
             ∧ ∃ year, year ∈ years ∧ f = pretty year +:+ ".csv"
                       ∧ csv !! f = None).
Proof.
  revert results w. induction years as [|y years IH]; intros results w.
  { rewrite load_years_nil. by split. }
  destruct (load_years_cons csv y years results w)
    as (w0 & after & _ & Hf & Hafter & ->).
  destruct (csv !! _) as [rows|] eqn:Hrows.
  - pose proof (load_year_files y rows w0) as Hf1.
    destruct (load_year y rows w0) as [r w1|e1 w1] eqn:Hload; simpl in Hf1.
    + destruct (Hafter r w1) as [_ Hf2].
      destruct (IH (results ++ [r]) (after r w1)) as [IH1 IH2]. split.
      * intros e w' [-> ->]%IH1. split; [done|congruence].
      * intros f w' [-> (year & Hin & -> & Hnone)]%IH2.
        split; [congruence|]. exists year. split_and!; [by right|done..].
    + split; [|done]. intros e w' [= <- <-]. split; [|congruence].
      by eapply load_year_Raise.
  - split; [done|]. intros f w' [= <- <-]. split; [done|].
    exists y. split_and!; [left|done..].
Qed.

(** The line [success] prints at the end of a run. *)
Lemma build_history_eq (set_iter : gset string → list string)
    (csv : gmap string (list Row.t)) (output : string) (w : world) :
  build_history set_iter csv output w =
  match load_years csv (seqZ FIRST_YEAR (LAST_YEAR + 1 - FIRST_YEAR)) []
          (World [] (stdout w) (files w)) with
  | Done results w1 =>
      Done ()
        (World (db w1)
           (stdout w1
            ++ [(purple "➤" +:+ " " +:+ white "Writing history file") +:+ NL]
            ++ [(green "✓" +:+ " "
                 +:+ white ("History writed to " +:+ output)) +:+ NL]
            ++ [str_repeat "=" 80 +:+ NL]
            ++ [(green "✓" +:+ " "
                 +:+ white (SUMMARY (pretty (sum_of total results))
                              (pretty (length results))
                              (pretty (sum_of new results))
                              (pretty (sum_of updated results))
                              (pretty (sum_of ended results)))) +:+ NL])
           (<[output := JArray (export_doc set_iter <$> db w1)]> (files w1)))
  | Failed e w1 => Failed e w1
  | FileNotFound f w1 => FileNotFound f w1
  end.
Proof.
  unfold build_history. unfold io_bind at 1. unfold lift at 1, new_store.
  unfold io_bind at 1.
  destruct (load_years _ _ _ _) as [results w1| |]; [|done..].
  unfold io_bind, lift, info. unfold print at 1. cbv beta iota.
  rewrite dump_to_eq. cbv beta iota. unfold success, print. cbv beta iota.
  cbn [db stdout files]. by rewrite <- !(assoc_L (++)).
Qed.

(** ** Validity intervals *)

Lemma intervals_ok_mono (lo hi hi' : Z) (tb : list Epci.t) :
  hi ≤ hi' → intervals_ok lo hi tb → intervals_ok lo hi' tb.
Proof.
  intros Hle H e He. destruct (H e He) as (y & Hy & Hd & Hf).
  exists y. split_and!; [lia|lia|done|].
  intros d Hdf. destruct (Hf d Hdf) as (y' & Hy' & ->). exists y'.
  split; [lia|done].
Qed.

Lemma intervals_ok_candidate (lo year : Z) (tb : list Epci.t) (e : Epci.t) :
  lo ≤ year → intervals_ok lo year tb →
  Epci.dateDebut e = Date.mk year 1 1 → Epci.dateFin e = None →
  intervals_ok lo year (tb ++ [e]).
Proof.
  intros Hlo H Hd Hf e' [He'|He']%elem_of_app.
  - by apply H.
  - apply list_elem_of_singleton in He' as ->. exists year.
    split_and!; [lia|lia|done|]. intros d. by rewrite Hf.
Qed.

Lemma intervals_upsert (lo year : Z) (sirens : gset string) (siren : string)
    (rows : list Row.t) (w w' : world) (op : option Z) :
  lo ≤ year →
  started_by year sirens (db w) → siren ∉ sirens →
  intervals_ok lo year (db w) →
  upsert year siren rows w = Ret op w' →
  intervals_ok lo year (db w').
Proof.
  intros Hlo Hst Hk Hok (row & Hrow & Hy & Hup)%upsert_Ret. cbv zeta in Hup.
  destruct (TinyDB.get _ _) as [[i cur]|] eqn:Hget.
  - destruct (set_bool _).
    + destruct Hup as (_ & Hy1 & ->).
      apply get_Some in Hget as (Hi & [Hs Ho]%open_version_true & _).
      assert (cur ∈ db w) as Hcur by by eapply list_elem_of_lookup_2.
      intros e (j & Hj)%list_elem_of_lookup_1.
      apply list_lookup_insert_Some in Hj as [(-> & <- & _)|[Hne Hj]].
      * destruct (Hok cur Hcur) as (y & Hyr & Hd & _).
        exists y. split_and!; [lia|lia|done|]. simpl. intros d [= <-].
        exists (year - 1). split; [|done].
        destruct (Hst cur Hcur) as [Hlt|[_ Hin]].
        -- rewrite Hd in Hlt. simpl in Hlt. lia.
        -- by rewrite Hs in Hin.
      * apply list_elem_of_lookup_2 in Hj.
        by eapply (intervals_ok_candidate lo year); [done|done| | |exact Hj].
    + by destruct Hup as [_ ->].
  - destruct Hup as [_ ->]. by apply intervals_ok_candidate.
Qed.

Lemma intervals_load_groups (lo year : Z) groups (idx : nat)
    (sirens sirens' : gset string) (result result' : LoadResult)
    (w w' : world) :
  lo ≤ year →
  NoDup (fst <$> groups) →
  (∀ k, k ∈ (fst <$> groups) → k ∉ sirens) →
  (∀ k g row, (k, g) ∈ groups → head g = Some row → Row.siren row = k) →
  run_inv year sirens (db w) →
  intervals_ok lo year (db w) →
  load_groups year groups idx sirens result w = Ret (sirens', result') w' →
  intervals_ok lo year (db w').
Proof.
  intros Hlo. revert idx sirens result w.
  induction groups as [|[siren rows] groups IH];
    intros idx sirens result w Hnd Hnew Hkey Hinv Hok.
  - by intros [= <- <- <-].
  - destruct (load_groups_cons year siren rows groups idx sirens result w)
      as (w0 & Hdb & _ & ->).
    destruct (upsert year siren rows w0) as [op w1|] eqn:Hup; [|done].
    rewrite fmap_cons in Hnd. apply NoDup_cons in Hnd as [Hk Hnd].
    assert (siren ∉ sirens) as Hfresh.
    { apply Hnew. rewrite fmap_cons. left. }
    apply IH; [done| | | |].
    + intros k Hin. rewrite not_elem_of_union, not_elem_of_singleton.
      split; [by intros ->|]. apply Hnew. rewrite fmap_cons. by right.
    + intros k g row Hin. apply Hkey. by right.
    + eapply run_inv_upsert; [by rewrite Hdb|done| |done].
      intros row. apply Hkey. left.
    + eapply intervals_upsert; [done| |done| |done].
      * rewrite Hdb. apply Hinv.
      * by rewrite Hdb.
Qed.

(** A chronological year keeps the validity intervals well-formed. *)
Lemma intervals_load_year (lo y year : Z) (rows : list Row.t) (w w' : world)
    (r : LoadResult) :
  run_inv (y + 1) ∅ (db w) → intervals_ok lo y (db w) →
  y < year → lo ≤ year →
  contiguous Row.siren rows →
  load_year year rows w = Ret r w' →
  intervals_ok lo year (db w').
Proof.
  intros (Hinv & Hwf & Hst) Hok Hlt Hlo Hc
    (sirens & result & w1 & ids & Hg & Hcl & _)%load_year_Ret.
  assert (run_inv year ∅ (db w)) as Hrun.
  { split_and!; [done..|].
    intros e He. left. destruct (Hst e He) as [?|[_ ?]]; [lia|set_solver]. }
  assert (NoDup (fst <$> groupby Row.siren rows)) as Hnd
    by by apply groupby_contiguous.
  assert (∀ k g row, (k, g) ∈ groupby Row.siren rows → head g = Some row →
            Row.siren row = k) as Hkey.
  { intros k g row Hin Hrow. eapply groupby_groups; [done|].
    by apply head_Some_elem_of. }
  pose proof Hg as Hg'.
  apply run_inv_load_groups in Hg' as (_ & _ & Hst1);
    [|done|set_solver|done..].
  eapply (intervals_load_groups lo) in Hg;
    [|done|done|set_solver|done|done|].
  2:{ eapply intervals_ok_mono; [|done]. lia. }
  apply cleanup_missing_Ret in Hcl as (Hy & -> & _). simpl.
  intros e' (e & -> & He)%list_elem_of_fmap.
  destruct (Hg e He) as (ye & Hye & Hd & Hf).
  destruct (missing sirens e) eqn:Hm; [|by exists ye].
  apply missing_true in Hm as [Hs Ho].
  exists ye. split_and!; [lia|lia|done|]. simpl. intros d [= <-].
  exists (year - 1). split; [|done].
  destruct (Hst1 e He) as [Hlt'|[_ Hin]]; [|done].
  rewrite Hd in Hlt'. simpl in Hlt'. lia.
Qed.

(** ** What a run of [build_history] leaves *)

Lemma sum_of_app (f : LoadResult → nat) (rs : list LoadResult)
    (r : LoadResult) :
  sum_of f (rs ++ [r]) = (sum_of f rs + f r)%nat.
Proof.
  unfold sum_of. induction rs as [|r' rs IH]; simpl; [lia|].
  rewrite IH. lia.
Qed.

Lemma years_range (year : Z) :
  year ∈ seqZ FIRST_YEAR (LAST_YEAR + 1 - FIRST_YEAR)
  ↔ FIRST_YEAR ≤ year ≤ LAST_YEAR.
Proof. rewrite elem_of_seqZ. unfold FIRST_YEAR, LAST_YEAR. lia. Qed.

Lemma build_history_Done (set_iter : gset string → list string)
    (csv : gmap string (list Row.t)) (output : string) (w w' : world) :
  build_history set_iter csv output w = Done () w' →
  ∃ results w1,
    load_years csv (seqZ FIRST_YEAR (Z.of_nat 21)) []
      (World [] (stdout w) (files w)) = Done results w1
    ∧ db w' = db w1
    ∧ files w' = <[output := JArray (export_doc set_iter <$> db w1)]> (files w1)
    ∧ last (stdout w')
      = Some ((green "✓" +:+ " "
               +:+ white (SUMMARY (pretty (sum_of total results))
                            (pretty (length results))
                            (pretty (sum_of new results))
                            (pretty (sum_of updated results))
                            (pretty (sum_of ended results)))) +:+ NL).
Proof.
  rewrite build_history_eq.
  change (LAST_YEAR + 1 - FIRST_YEAR) with (Z.of_nat 21).
  destruct (load_years _ _ _ _) as [results w1| |]; [|done..].
  intros [= <-]. exists results, w1. split_and!; [done..|].
  cbn [stdout]. by rewrite last_app.
Qed.

(** A run that fails writes no file: the files are as they were
    before the run. A failure is a [ValueError] of [load_year], or the
    [FileNotFoundError] of the file of a year from 1999 to 2019 that does
    not exist. *)
Theorem build_history_no_partial_output (set_iter : gset string → list string)
    (csv : gmap string (list Row.t)) (output : string) (w : world) :
  (∀ e w', build_history set_iter csv output w = Failed e w' →
           e = ValueError ∧ files w' = files w)
  ∧ (∀ f w', build_history set_iter csv output w = FileNotFound f w' →
             files w' = files w
             ∧ ∃ year, FIRST_YEAR ≤ year ≤ LAST_YEAR
                       ∧ f = pretty year +:+ ".csv" ∧ csv !! f = None).
Proof.
  rewrite build_history_eq.
  destruct (load_years_fails csv (seqZ FIRST_YEAR (LAST_YEAR + 1 - FIRST_YEAR))
              [] (World [] (stdout w) (files w))) as [H1 H2].
  destruct (load_years _ _ _ _) as [results w1|e1 w1|f1 w1]; [done| |].
  - split; [|done]. intros e w' [= <- <-]. by apply H1.
  - split; [done|]. intros f w' [= <- <-].
    destruct (H2 f1 w1) as [Hf (year & Hin%years_range & -> & Hnone)]; [done|].
    split; [done|]. by exists year.
Qed.

(** A run completes exactly when the file of every year from 1999 to
    2019 exists and, in each of them, the first row of every group has a
    member count that reads as an integer. *)
Theorem build_history_done_iff (set_iter : gset string → list string)
    (csv : gmap string (list Row.t)) (output : string) (w : world) :
  (∃ w', build_history set_iter csv output w = Done () w')
  ↔ ∀ year, FIRST_YEAR ≤ year ≤ LAST_YEAR →
      ∃ rows, csv !! (pretty year +:+ ".csv") = Some rows
              ∧ ∀ k g, (k, g) ∈ groupby Row.siren rows → group_ok g.
Proof.
  rewrite build_history_eq. split.
  - intros [w' H] year Hy%years_range.
    destruct (load_years _ _ _ _) as [results w1| |] eqn:Hl; [|done..].
    destruct (load_years_Done_files _ _ _ _ _ _ Hl year Hy)
      as (rows & v & r & v' & Hrows & Hload).
    exists rows. split; [done|]. intros k g Hin.
    by eapply load_year_Ret_ok.
  - intros Hok.
    destruct (load_years_returns csv
                (seqZ FIRST_YEAR (LAST_YEAR + 1 - FIRST_YEAR)) []
                (World [] (stdout w) (files w))) as (res & w1 & ->).
    + intros year Hy%years_range. split; [|by apply Hok].
      unfold FIRST_YEAR, LAST_YEAR in Hy. lia.
    + by eexists.
Qed.

(** A run that completes writes one file, [output], and what it
    writes is the export of the store as the last year left it. Whatever
    the store was before the run, that store has at most one open version
    per SIREN, and its dates are dates [datetime.date] can hold. *)
Theorem build_history_output (set_iter : gset string → list string)
    (csv : gmap string (list Row.t)) (output : string) (w w' : world) :
  build_history set_iter csv output w = Done () w' →
  files w' = <[output := JArray (export_doc set_iter <$> db w')]> (files w)
  ∧ one_open (db w')
  ∧ ∀ e, e ∈ db w' → dates_valid e.
Proof.
  intros (results & w1 & Hl & -> & -> & _)%build_history_Done.
  apply (load_years_Done
           (λ _ _ tb, one_open tb ∧ ∀ e, e ∈ tb → dates_valid e))
    in Hl as [[Hone Hd] Hf].
  - by rewrite Hf.
  - intros year rows _ v r v' _ _ [Hone Hd] Hload. split.
    + by eapply load_year_one_open.
    + by eapply dates_valid_load_year.
  - split; [|by intros e ?%elem_of_nil].
    intros i j a b Ha. by destruct i.
Qed.

(** When, in every file, the rows of a SIREN are next to each
    other, the store a completed run exports is consistent: ids are unique
    and of the form [siren@year-01-01], links are symmetric and name
    versions of the store, open versions have no successor, every version
    starts on January 1 of a year from 1999 to 2019, and a closed one ends
    on a December 31 from the year it starts to 2018. *)
Theorem build_history_consistent (set_iter : gset string → list string)
    (csv : gmap string (list Row.t)) (output : string) (w w' : world) :
  (∀ year rows, FIRST_YEAR ≤ year ≤ LAST_YEAR →
     csv !! (pretty year +:+ ".csv") = Some rows →
     contiguous Row.siren rows) →
  build_history set_iter csv output w = Done () w' →
  store_inv (db w') ∧ ids_well_formed (db w')
  ∧ intervals_ok FIRST_YEAR LAST_YEAR (db w').
Proof.
  intros Hc (results & w1 & Hl & -> & _)%build_history_Done.
  apply (load_years_Done
           (λ year _ tb, run_inv year ∅ tb
                         ∧ intervals_ok FIRST_YEAR (year - 1) tb))
    in Hl as [[(Hinv & Hwf & _) Hok] _].
  - split_and!; [done..|]. revert Hok. by apply intervals_ok_mono.
  - intros year rows _ v r v' Hy Hrows [Hrun Hok] Hload.
    assert (contiguous Row.siren rows) as Hcont.
    { eapply Hc; [|done]. unfold FIRST_YEAR, LAST_YEAR in *. lia. }
    replace year with (year - 1 + 1) in Hrun by lia.
    split.
    + eapply run_inv_load_year; [done| |done..]. lia.
    + replace (year + 1 - 1) with year by lia.
      eapply intervals_load_year; [done..|lia|lia|done|done].
  - split; [|by intros e ?%elem_of_nil].
    split_and!; [apply store_inv_nil|by intros e ?%elem_of_nil..].
Qed.

(** The summary a completed run prints last is about the store it
    exports: 21 years, as many insertions and updates together as the
    store has versions, and as many insertions as versions still open and
    versions ended. *)
Theorem build_history_summary (set_iter : gset string → list string)
    (csv : gmap string (list Row.t)) (output : string) (w w' : world) :
  build_history set_iter csv output w = Done () w' →
  ∃ results,
    length results = 21%nat
    ∧ last (stdout w')
      = Some ((green "✓" +:+ " "
               +:+ white (SUMMARY (pretty (sum_of total results)) "21"
                            (pretty (sum_of new results))
                            (pretty (sum_of updated results))
                            (pretty (sum_of ended results)))) +:+ NL)
    ∧ length (db w')
      = (sum_of new results + sum_of updated results)%nat
    ∧ (nb_open (db w') + sum_of ended results)%nat = sum_of new results
    ∧ (sum_of new results + sum_of updated results
       ≤ sum_of total results)%nat.
Proof.
  intros (results & w1 & Hl & -> & _ & Hout)%build_history_Done.
  apply (load_years_Done
           (λ year rs tb,
              Z.of_nat (length rs) = year - FIRST_YEAR
              ∧ length tb = (sum_of new rs + sum_of updated rs)%nat
              ∧ (nb_open tb + sum_of ended rs)%nat = sum_of new rs
              ∧ (sum_of new rs + sum_of updated rs ≤ sum_of total rs)%nat))
    in Hl as [(Hlen & Hdb & Hopen & Hle) _].
  - assert (length results = 21%nat) as Hlen' by lia.
    exists results. split_and!; [done| |done..].
    by rewrite Hout, Hlen'.
  - intros year rows rs v r v' _ _ (Hlen & Hdb & Hopen & Hle) Hload.
    apply load_year_Ret in Hload
      as (sirens & result & v1 & ids & Hg & Hc & ->).
    apply load_groups_counts in Hg as (Ht & _ & _ & Hle' & Hdb' & Hopen' & _).
    apply cleanup_missing_counts in Hc as [Hdb'' Hopen''].
    rewrite length_app, !sum_of_app. simpl in *. split_and!; lia.
  - done.
Qed.

Lemma contiguous_same_key {A K : Type} (key : A → K) (k : K) (l : list A) :
  (∀ x, x ∈ l → key x = k) → contiguous key l.
Proof.
  intros H l1 x l2 y l3 -> _ z Hz.
  rewrite (H z), (H x); [done|..].
  - apply elem_of_app. right. left.
  - apply elem_of_app. right. right. apply elem_of_app. by left.
Qed.

Lemma sample_csv_contiguous (year : Z) (rows : list Row.t) :
  FIRST_YEAR ≤ year ≤ LAST_YEAR →
  sample_csv !! (pretty year +:+ ".csv") = Some rows →
  contiguous Row.siren rows.
Proof.
  intros Hy%years_range Hrows.
  apply (contiguous_same_key _ "E1").
  vm_compute in Hy.
  repeat (apply elem_of_cons in Hy as [->|Hy]);
    try (vm_compute in Hrows; injection Hrows as <-; intros x Hx;
         repeat (apply elem_of_cons in Hx as [->|Hx]);
         try reflexivity; by apply elem_of_nil in Hx).
  by apply elem_of_nil in Hy.
Qed.

Lemma build_history_output_witness :
  ∃ w', build_history elements sample_csv OUTPUT Store_init = Done () w'
        ∧ files w'
          = <[OUTPUT := JArray (export_doc elements <$> db w')]>
              (files Store_init)
        ∧ one_open (db w')
        ∧ ∀ e, e ∈ db w' → dates_valid e.
Proof.
  eexists. split; [vm_compute; reflexivity|].
  apply (build_history_output elements sample_csv OUTPUT Store_init).
  vm_compute. reflexivity.
Defined.

Lemma build_history_consistent_witness :
  ∃ w', build_history elements sample_csv OUTPUT Store_init = Done () w'
        ∧ store_inv (db w') ∧ ids_well_formed (db w')
        ∧ intervals_ok FIRST_YEAR LAST_YEAR (db w').
Proof.
  eexists. split; [vm_compute; reflexivity|].
  apply (build_history_consistent elements sample_csv OUTPUT Store_init).
  - exact sample_csv_contiguous.
  - vm_compute. reflexivity.
Defined.

Lemma build_history_summary_witness :
  ∃ w' results,
    build_history elements sample_csv OUTPUT Store_init = Done () w'
    ∧ length results = 21%nat
    ∧ last (stdout w')
      = Some ((green "✓" +:+ " "
               +:+ white (SUMMARY (pretty (sum_of total results)) "21"
                            (pretty (sum_of new results))
                            (pretty (sum_of updated results))
                            (pretty (sum_of ended results)))) +:+ NL)
    ∧ length (db w')
      = (sum_of new results + sum_of updated results)%nat
    ∧ (nb_open (db w') + sum_of ended results)%nat = sum_of new results
    ∧ (sum_of new results + sum_of updated results
       ≤ sum_of total results)%nat.
Proof.
  pose proof (build_history_summary elements sample_csv OUTPUT Store_init)
    as H.
  edestruct H as (results & Hr); [vm_compute; reflexivity|].
  eexists _, results. split; [vm_compute; reflexivity|exact Hr].
Defined.

Lemma build_history_no_partial_output_witness :
  ∃ f w', build_history elements ∅ OUTPUT Store_init = FileNotFound f w'
          ∧ files w' = files Store_init
          ∧ ∃ year, FIRST_YEAR ≤ year ≤ LAST_YEAR
                    ∧ f = pretty year +:+ ".csv"
                    ∧ (∅ : gmap string (list Row.t)) !! f = None.
Proof.
  eexists _, _. split; [vm_compute; reflexivity|].
  apply (proj2 (build_history_no_partial_output elements ∅ OUTPUT
                  Store_init)).
  vm_compute. reflexivity.
Defined.

(** ** The export loses nothing *)

Lemma int_pad4 (y : Z) : 1 ≤ y ≤ 9999 → int (Date.pad 4 y) = Some y.
Proof.
  intros Hy.
  assert (Forall (λ y, int (Date.pad 4 y) = Some y) (seqZ 1 9999)) as Hall.
  { apply (bool_decide_unpack _). vm_compute. exact I. }
  eapply Forall_forall in Hall; [done|]. apply elem_of_seqZ. lia.
Qed.

Lemma int_pad2 (n : Z) : 1 ≤ n ≤ 31 → int (Date.pad 2 n) = Some n.
Proof.
  intros Hn.
  assert (Forall (λ n, int (Date.pad 2 n) = Some n) (seqZ 1 31)) as Hall.
  { apply (bool_decide_unpack _). vm_compute. exact I. }
  eapply Forall_forall in Hall; [done|]. apply elem_of_seqZ. lia.
Qed.

Lemma digits_only_length (n : nat) (s : string) :
  digits_only n s = true → length (ascii_list s) = n.
Proof.
  unfold digits_only. intros [H _]%andb_prop. by apply bool_decide_eq_true in H.
Qed.

Lemma valid_ranges (d : Date.t) :
  Date.valid d = true →
  1 ≤ Date.year d ≤ 9999 ∧ 1 ≤ Date.month d ≤ 12 ∧ 1 ≤ Date.day d ≤ 31.
Proof.
  intros Hv. destruct d as [y m dd].
  destruct (date_Some y m dd (Date.mk y m dd)) as [_ H]; [|done].
  unfold Date.date. by rewrite Hv.
Qed.

Lemma isoformat_inj (d1 d2 : Date.t) :
  Date.valid d1 = true → Date.valid d2 = true →
  Date.isoformat d1 = Date.isoformat d2 → d1 = d2.
Proof.
  intros (Hy1 & Hm1 & Hd1)%valid_ranges (Hy2 & Hm2 & Hd2)%valid_ranges Heq.
  destruct d1 as [y1 m1 dd1], d2 as [y2 m2 dd2]. simpl in *.
  unfold Date.isoformat in Heq. simpl in Heq.
  apply (f_equal ascii_list) in Heq. rewrite !ascii_list_app in Heq.
  apply app_inj_1 in Heq as [Hy Heq].
  2:{ rewrite !(digits_only_length 4) by (apply pad4_digits; lia). done. }
  apply app_inj_1 in Heq as [_ Heq]; [|done].
  apply app_inj_1 in Heq as [Hm Heq].
  2:{ rewrite !(digits_only_length 2) by (apply pad2_digits; lia). done. }
  apply app_inj_1 in Heq as [_ Hd]; [|done].
  apply ascii_list_inj in Hy, Hm, Hd.
  apply (f_equal int) in Hy, Hm, Hd.
  rewrite !int_pad4 in Hy by lia. rewrite !int_pad2 in Hm, Hd by lia.
  congruence.
Qed.

Lemma set_iter_inj (set_iter : gset string → list string) (X Y : gset string) :
  (∀ X, set_iter X ≡ₚ elements X) → set_iter X = set_iter Y → X = Y.
Proof.
  intros Hperm Heq.
  rewrite <- (list_to_set_elements_L X), <- (list_to_set_elements_L Y).
  apply list_to_set_perm_L. by rewrite <- !Hperm, Heq.
Qed.

Lemma JString_fmap_inj (l1 l2 : list string) :
  JString <$> l1 = JString <$> l2 → l1 = l2.
Proof.
  revert l2. induction l1 as [|s l1 IH]; intros [|t l2]; try done.
  rewrite !fmap_cons. intros [= -> ?]. f_equal. by apply IH.
Qed.

Lemma export_doc_inj (set_iter : gset string → list string) (e1 e2 : Epci.t) :
  (∀ X, set_iter X ≡ₚ elements X) →
  dates_valid e1 → dates_valid e2 →
  export_doc set_iter e1 = export_doc set_iter e2 → e1 = e2.
Proof.
  intros Hperm [Hd1 Hf1] [Hd2 Hf2].
  destruct e1 as [id1 dd1 s1 n1 na1 f1 p1 m1 pr1 su1 df1 r1],
           e2 as [id2 dd2 s2 n2 na2 f2 p2 m2 pr2 su2 df2 r2].
  unfold export_doc. cbn [Epci.id Epci.dateDebut Epci.siren Epci.nom
    Epci.nature Epci.fiscalite Epci.population Epci.membres
    Epci.predecesseurs Epci.successeurs Epci.dateFin Epci.raisonFin] in *.
  intros [= -> Hdd -> -> -> -> -> Hm%JString_fmap_inj Hrest].
  apply isoformat_inj in Hdd as ->; [|done..].
  apply (set_iter_inj _ _ _ Hperm) in Hm as ->.
  assert (pr1 = pr2 ∧ su1 = su2 ∧ df1 = df2 ∧ r1 = r2) as (-> & -> & -> & ->);
    [|done].
  destruct pr1 as [pr1|], pr2 as [pr2|], su1 as [su1|], su2 as [su2|],
    df1 as [df1|], df2 as [df2|], r1 as [r1|], r2 as [r2|];
    simpl in Hrest; try discriminate Hrest;
    simplify_eq;
    repeat match goal with
      | H : JString <$> _ = JString <$> _ |- _ =>
          apply JString_fmap_inj in H as ->
      | H : Date.isoformat _ = Date.isoformat _ |- _ =>
          apply isoformat_inj in H as ->; [|by eauto..]
      end; done.
Qed.

(** The export loses nothing: two tables whose dates are dates
    [datetime.date] can hold and whose exports are the same document are
    the same table, version by version, sets, dates and links included
    (the interpreter iterating over each set once, as it does). *)
Theorem export_lossless (set_iter : gset string → list string)
    (tb1 tb2 : list Epci.t) :
  (∀ X, set_iter X ≡ₚ elements X) →
  (∀ e, e ∈ tb1 → dates_valid e) →
  (∀ e, e ∈ tb2 → dates_valid e) →
  JArray (export_doc set_iter <$> tb1) = JArray (export_doc set_iter <$> tb2) →
  tb1 = tb2.
Proof.
  intros Hperm H1 H2 [= Heq]. revert tb2 H2 Heq.
  induction tb1 as [|e1 tb1 IH]; intros [|e2 tb2] H2 Heq; try done.
  rewrite !fmap_cons in Heq. apply (inj2 cons) in Heq as [He Heq]. f_equal.
  - apply (export_doc_inj set_iter); [done| | |exact He].
    + apply H1. left.
    + apply H2. left.
  - apply IH; [| |exact Heq].
    + intros e He'. apply H1. by right.
    + intros e He'. apply H2. by right.
Qed.

Lemma store_2001_dates (e : Epci.t) : e ∈ db store_2001 → dates_valid e.
Proof.
  unfold store_2001. cbn [db]. intros He.
  repeat (apply elem_of_cons in He as [->|He]);
    [split; [vm_compute; reflexivity
            |intros d Hd; vm_compute in Hd; simplify_eq; vm_compute;
             reflexivity]..
    |by apply elem_of_nil in He].
Qed.

Lemma export_lossless_witness : db store_2001 = db store_2001.
Proof.
  apply (export_lossless elements).
  - done.
  - exact store_2001_dates.
  - exact store_2001_dates.
  - reflexivity.
Defined.
